(** * ifaplib: the IMAP File Access Protocol engine

    A shallow embedding of [ifaplib/__init__.py] (Python 2): the message
    codec ([encode_object], [_reflow], [_maybe_encrypt]), the reverse-scan
    reconciliation ([synchronize]), the writer ([flush], [_maybe_flush]),
    the scoped session ([__enter__], [__exit__]), [set_encryption_key]
    and [open].

    Conventions.
    - A Python 2 [str] is a list of bytes, [list ascii].
    - A call that can raise returns a [result]; the state reached when the
      exception leaves the method is returned next to it.
    - [print] statements are collected as a list of [output] events.
    - The IMAP object is an interface [IMAP B] over a backend state [B].
    - Library functions whose behaviour on arbitrary input is not part of
      this repository (the e-mail header reader, [json.loads], SHA-256 and
      the [Fernet] constructor) are fields of [Reader] and [Crypto];
      [json.dumps], [base64], [str.strip], [str.split], [int] and [sorted]
      are written out.  [py27] is the reader of Python 2.7 on the texts
      that matter here. *)

From stdpp Require Import gmap strings list sorting.
From Stdlib Require Import ZArith Ascii Lia.

Open Scope Z_scope.

(** ** Python strings *)

Abbreviation str := (list ascii).

Definition lit (s : string) : str := String.list_ascii_of_string s.
Coercion lit : string >-> list.

Definition code (c : ascii) : Z := Z.of_N (N_of_ascii c).
Definition chr (z : Z) : ascii := ascii_of_N (Z.to_N z).

(** [str.isspace] on one byte: space, \t, \n, \v, \f, \r. *)
Definition is_space (c : ascii) : bool :=
  let n := code c in (n =? 32) || ((9 <=? n) && (n <=? 13)).

Definition CR : ascii := Eval cbv in chr 13.
Definition LF : ascii := Eval cbv in chr 10.
Definition TAB : ascii := Eval cbv in chr 9.
Definition BS : ascii := Eval cbv in chr 8.
Definition FF : ascii := Eval cbv in chr 12.
Definition CRLF : str := [CR; LF].

Fixpoint lstrip (s : str) : str :=
  match s with
  | c :: r => if is_space c then lstrip r else s
  | [] => []
  end.

Definition rstrip (s : str) : str := rev (lstrip (rev s)).

(** [s.strip()] *)
Definition strip (s : str) : str := rstrip (lstrip s).

(** [s.split(sep)] for a one-byte separator: empty fields are kept. *)
Fixpoint split_on (sep : ascii) (s : str) : list str :=
  match s with
  | [] => [[]]
  | c :: r =>
      if decide (c = sep) then [] :: split_on sep r
      else match split_on sep r with
           | h :: t => (c :: h) :: t
           | [] => [[c]]
           end
  end.

(** [''.join(s.split())]: every whitespace byte removed. *)
Definition remove_spaces (s : str) : str := filter (λ c, is_space c = false) s.

(** [sep.join(parts)] *)
Fixpoint join (sep : str) (parts : list str) : str :=
  match parts with
  | [] => []
  | [p] => p
  | p :: ps => p ++ sep ++ join sep ps
  end.

(** [s.replace(c, new)] for a one-byte pattern. *)
Fixpoint replace_char (c : ascii) (new : str) (s : str) : str :=
  match s with
  | [] => []
  | x :: r => (if decide (x = c) then new else [x]) ++ replace_char c new r
  end.

Definition len (s : str) : Z := Z.of_nat (List.length s).

(** ** Exceptions and results *)

Inductive exn :=
  | IOError | ValueError | UnicodeDecodeError | NameError | AttributeError
  | KeyError | IndexError | TypeError | InvalidToken.

Inductive result (A : Type) :=
  | Ret (a : A)
  | Raise (e : exn).
Arguments Ret {A} a.
Arguments Raise {A} e.

Global Instance result_ret : MRet result := @Ret.
Global Instance result_bind : MBind result := λ A B f m,
  match m with Ret a => f a | Raise e => Raise e end.

Definition raised {A} (r : result A) : option exn :=
  match r with Ret _ => None | Raise e => Some e end.

(** ** Decimal integers: [str(n)] and [int(s)] *)

Definition digit_char (d : Z) : ascii := chr (48 + d).

Definition is_digit (c : ascii) : bool := (48 <=? code c) && (code c <=? 57).

Fixpoint digits_acc (fuel : nat) (n : Z) (acc : str) : str :=
  match fuel with
  | O => acc
  | S f =>
      let acc' := digit_char (n mod 10) :: acc in
      if n <? 10 then acc' else digits_acc f (n / 10) acc'
  end.

(** The decimal digits of [n >= 0]. *)
Definition digits (n : Z) : str := digits_acc (S (Z.to_nat n)) n [].

(** [str(z)] / [repr(z)] of an integer. *)
Definition py_str (z : Z) : str :=
  if z <? 0 then "-"%char :: digits (- z) else digits z.

Fixpoint digits_value (acc : Z) (s : str) : option Z :=
  match s with
  | [] => Some acc
  | c :: r => if is_digit c then digits_value (10 * acc + (code c - 48)) r else None
  end.

(** [int(s)]: surrounding whitespace is dropped, one sign is allowed, at
    least one digit is needed; [None] is [ValueError]. *)
Definition py_int (s : str) : option Z :=
  match strip s with
  | [] => None
  | c :: r =>
      if decide (c = "-"%char) then
        match r with [] => None | _ => Z.opp <$> digits_value 0 r end
      else if decide (c = "+"%char) then
        match r with [] => None | _ => digits_value 0 r end
      else digits_value 0 (c :: r)
  end.

(** [sorted] on integers. *)
Definition py_sorted (l : list Z) : list Z := merge_sort Z.le l.

(** ** JSON values and Python dictionaries *)

Unset Elimination Schemes.
Inductive json :=
  | JNull
  | JBool (b : bool)
  | JInt (z : Z)
  | JStr (s : str)
  | JList (l : list json)
  | JDict (d : list (str * json)).
Set Elimination Schemes.

(** A dictionary with string keys, in iteration order. *)
Abbreviation dict := (list (str * json)).

Fixpoint dict_get (k : str) (d : dict) : option json :=
  match d with
  | [] => None
  | (k', v) :: r => if decide (k' = k) then Some v else dict_get k r
  end.

Definition dict_has (k : str) (d : dict) : bool := bool_decide (is_Some (dict_get k d)).

(** [d[k] = v] *)
Fixpoint dict_set (k : str) (v : json) (d : dict) : dict :=
  match d with
  | [] => [(k, v)]
  | (k', v') :: r => if decide (k' = k) then (k, v) :: r else (k', v') :: dict_set k v r
  end.

(** [del d[k]] (guarded by [k in d] at every use) *)
Definition dict_del (k : str) (d : dict) : dict := filter (λ kv, kv.1 ≠ k) d.

(** [d.update(other)] *)
Definition dict_update (d other : dict) : dict :=
  fold_left (λ acc kv, dict_set kv.1 kv.2 acc) other d.

(** What a Python dictionary accepts as a key among JSON values: [True]
    and [False] hash and compare as 1 and 0, lists and dictionaries are
    unhashable. *)
Inductive pykey :=
  | KStr (s : str)
  | KInt (z : Z)
  | KNone.

Global Instance pykey_eq_dec : EqDecision pykey.
Proof. solve_decision. Defined.

Global Instance pykey_countable : Countable pykey.
Proof.
  refine (inj_countable'
    (λ k, match k with KStr s => inl s | KInt z => inr (inl z) | KNone => inr (inr ()) end)
    (λ x, match x with inl s => KStr s | inr (inl z) => KInt z | inr (inr _) => KNone end) _).
  by intros [].
Defined.

(** [hash(v)]: [None] is [TypeError: unhashable type]. *)
Definition py_hash (v : json) : option pykey :=
  match v with
  | JStr s => Some (KStr s)
  | JInt z => Some (KInt z)
  | JBool b => Some (KInt (if b then 1 else 0))
  | JNull => Some KNone
  | JList _ | JDict _ => None
  end.

(** [v[k]] for a string [k]. *)
Definition getitem (v : json) (k : str) : result json :=
  match v with
  | JDict d => match dict_get k d with Some x => Ret x | None => Raise KeyError end
  | _ => Raise TypeError
  end.

(** ** Configuration, library objects and the IMAP interface *)

(** A [cryptography.fernet.Fernet] object.  [fernet_encrypt] is taken as a
    function of the plaintext: the IV and the timestamp it draws are not
    modelled.  [fernet_decrypt] raises ([InvalidToken] on a bad token). *)
Record Fernet := {
  fernet_encrypt : str → str;
  fernet_decrypt : str → result str;
}.

(** [_IFAP_Config] *)
Record IFAP_Config := {
  buffering_max_bytes : Z;
  buffering : bool;
  encrypt : bool;
  fernet : option Fernet;
  key : option str;
}.

(** [_IFAP_Config()] with its default arguments. *)
Definition default_config : IFAP_Config :=
  {| buffering_max_bytes := 102400; buffering := false; encrypt := false;
     fernet := None; key := None |}.

(** [_IFAP_Config.Copy] *)
Definition Copy (obj : IFAP_Config) : IFAP_Config :=
  {| buffering_max_bytes := buffering_max_bytes obj;
     buffering := buffering obj;
     encrypt := encrypt obj;
     fernet := fernet obj;
     key := key obj |}.

(** The reading side of the Python library.
    - [email_header text name] is
      [email.parser.Parser().parsestr(text, headersonly=True)[name]].
    - [json_loads] is [json.loads]. *)
Record Reader := {
  email_header : str → str → option str;
  json_loads : str → result json;
}.

(** [hashlib.sha256(s).digest()] and the constructor [Fernet(key)]. *)
Record Crypto := {
  sha256_digest : str → str;
  Fernet_new : str → Fernet;
}.

(** One element of the list that [imap.fetch] returns next to its status:
    [None], a pair of strings, or a string. *)
Inductive fetch_item :=
  | ItemNone
  | ItemPair (envelope body : str)
  | ItemStr (s : str).

(** The four calls made on the IMAP object, each returning its answer and
    the backend's next state.  [imap_select] returns [select(folder)[0]];
    [imap_search] returns [(rv, seqs)] of [search(None, 'ALL')], whose
    data the code destructures as a one-element list; [imap_fetch b seq]
    is [fetch(str(seq), '(BODY.PEEK[]<0.1024>)')]; [imap_append b folder
    eml] is [append(folder, None, None, eml)]. *)
Record IMAP (B : Type) := {
  imap_select : B → str → str * B;
  imap_search : B → (str * str) * B;
  imap_fetch : B → Z → (str * list fetch_item) * B;
  imap_append : B → str → str → (str * str) * B;
}.
Arguments imap_select {B}.
Arguments imap_search {B}.
Arguments imap_fetch {B}.
Arguments imap_append {B}.

(** An [IFAP_File]: the [StringIO] buffer and the extra attributes. *)
Record IFAP_File := {
  f_file_path : str;
  f_open_mode : str;
  f_metadata : dict;
  f_value : str;
}.

(** The in-memory index: path to (sequence, metadata). *)
Abbreviation index := (gmap pykey (Z * dict)).

(** The [IFAP] object (the lock is not modelled: one thread). *)
Record IFAP := {
  config : IFAP_Config;
  base_folder : str;
  sstack : list IFAP_Config;
  unwritten : gmap str IFAP_File;
  unwritten_bytes : Z;
  tree : index;
}.

Definition set_config (c : IFAP_Config) (o : IFAP) : IFAP :=
  {| config := c; base_folder := base_folder o; sstack := sstack o;
     unwritten := unwritten o; unwritten_bytes := unwritten_bytes o;
     tree := tree o |}.

Definition set_sstack (s : list IFAP_Config) (o : IFAP) : IFAP :=
  {| config := config o; base_folder := base_folder o; sstack := s;
     unwritten := unwritten o; unwritten_bytes := unwritten_bytes o;
     tree := tree o |}.

Definition set_tree (t : index) (o : IFAP) : IFAP :=
  {| config := config o; base_folder := base_folder o; sstack := sstack o;
     unwritten := unwritten o; unwritten_bytes := unwritten_bytes o;
     tree := t |}.

Definition set_unwritten (u : gmap str IFAP_File) (n : Z) (o : IFAP) : IFAP :=
  {| config := config o; base_folder := base_folder o; sstack := sstack o;
     unwritten := u; unwritten_bytes := n; tree := tree o |}.

(** [IFAP(imap_obj, base_folder)] *)
Definition IFAP_new (cfg : IFAP_Config) (folder : str) : IFAP :=
  {| config := cfg; base_folder := folder; sstack := []; unwritten := ∅;
     unwritten_bytes := 0; tree := ∅ |}.

(** What the methods print. *)
Inductive output :=
  | SnapshotAt (seq : Z)
  | DeleteThese (s : gset Z)
  | Failed (d : str)
  | OpenFixme.

Definition _SNAPSHOT_FILE_PATH : str := "IFAP/metadata.json".
Definition OK : str := "OK".

(** ** synchronize *)

(** The local variables of the scan, with the index and the output. *)
Record scan_state := {
  s_tree : index;
  s_broken : gset Z;
  s_to_delete : gset Z;
  s_out : list output;
}.

(** [data[0][1]] *)
Definition header_text (data : list fetch_item) : result str :=
  match data with
  | [] => Raise IndexError
  | ItemNone :: _ => Raise TypeError
  | ItemPair _ body :: _ => Ret body
  | ItemStr s :: _ =>
      match s with
      | _ :: c :: _ => Ret [c]
      | _ => Raise IndexError
      end
  end.

(** The exception classes of the [except] clause; [UnicodeDecodeError] is
    a subclass of [ValueError]. *)
Definition handled (e : exn) : bool :=
  match e with
  | ValueError | UnicodeDecodeError | NameError | AttributeError
  | KeyError | IndexError | InvalidToken => true
  | IOError | TypeError => false
  end.

(** [self._tree.get(k, (-1,))[0]] *)
Definition latest_seq (t : index) (k : pykey) : Z :=
  match t !! k with Some (s, _) => s | None => -1 end.

(** The [for k in ('_', 'fn')] loop. *)
Definition strip_transport (metadata : dict) : dict :=
  let m1 := if dict_has "_" metadata then dict_del "_" metadata else metadata in
  if dict_has "fn" m1 then dict_del "fn" m1 else m1.

(** [file_path == self._SNAPSHOT_FILE_PATH] *)
Definition is_snapshot_path (file_path : json) : bool :=
  match file_path with
  | JStr s => bool_decide (s = _SNAPSHOT_FILE_PATH)
  | _ => false
  end.


(** ** json.dumps(obj, indent=1), Python 2.7 *)

Definition QUOTE : ascii := Eval cbv in chr 34.
Definition BACKSLASH : ascii := Eval cbv in chr 92.

Definition hex_digit (d : Z) : ascii :=
  if d <? 10 then chr (48 + d) else chr (87 + d).

(** ['\\u%04x' % n] *)
Definition u_escape (n : Z) : str :=
  [BACKSLASH; "u"%char; hex_digit (n / 4096 mod 16); hex_digit (n / 256 mod 16);
   hex_digit (n / 16 mod 16); hex_digit (n mod 16)].

(** The replacement [json.encoder] makes for one code point under
    [ensure_ascii]: a backslash before a backslash or a double quote,
    the short escapes, [\uXXXX] for the
    other characters outside space..tilde, a surrogate pair above the
    basic plane. *)
Definition escape_cp (cp : Z) : str :=
  if cp =? 34 then [BACKSLASH; QUOTE]
  else if cp =? 92 then [BACKSLASH; BACKSLASH]
  else if cp =? 10 then [BACKSLASH; "n"%char]
  else if cp =? 13 then [BACKSLASH; "r"%char]
  else if cp =? 9 then [BACKSLASH; "t"%char]
  else if cp =? 12 then [BACKSLASH; "f"%char]
  else if cp =? 8 then [BACKSLASH; "b"%char]
  else if (32 <=? cp) && (cp <=? 126) then [chr cp]
  else if cp <? 65536 then u_escape cp
  else
    let n := cp - 65536 in
    u_escape (55296 + n / 1024 mod 1024) ++ u_escape (56320 + n mod 1024).

Definition is_cont (b : Z) : bool := (128 <=? b) && (b <=? 191).

(** [s.decode('utf-8')] as code points; [None] is [UnicodeDecodeError].
    Python 2 accepts encoded surrogates. *)
Fixpoint utf8_decode (s : list Z) : option (list Z) :=
  match s with
  | [] => Some []
  | b0 :: r0 =>
      if b0 <? 128 then cons b0 <$> utf8_decode r0
      else if (194 <=? b0) && (b0 <=? 223) then
        match r0 with
        | b1 :: r1 =>
            if is_cont b1
            then cons ((b0 - 192) * 64 + (b1 - 128)) <$> utf8_decode r1
            else None
        | _ => None
        end
      else if (224 <=? b0) && (b0 <=? 239) then
        match r0 with
        | b1 :: b2 :: r2 =>
            if is_cont b1 && is_cont b2 && implb (b0 =? 224) (160 <=? b1)
            then cons ((b0 - 224) * 4096 + (b1 - 128) * 64 + (b2 - 128))
                   <$> utf8_decode r2
            else None
        | _ => None
        end
      else if (240 <=? b0) && (b0 <=? 244) then
        match r0 with
        | b1 :: b2 :: b3 :: r3 =>
            if is_cont b1 && is_cont b2 && is_cont b3
               && implb (b0 =? 240) (144 <=? b1)
               && implb (b0 =? 244) (b1 <=? 143)
            then cons ((b0 - 240) * 262144 + (b1 - 128) * 4096
                       + (b2 - 128) * 64 + (b3 - 128))
                   <$> utf8_decode r3
            else None
        | _ => None
        end
      else None
  end.

(** [encode_basestring_ascii] on a [str]. *)
Definition encode_basestring_ascii (s : str) : result str :=
  match utf8_decode (code <$> s) with
  | None => Raise UnicodeDecodeError
  | Some cps => Ret (QUOTE :: List.concat (escape_cp <$> cps) ++ [QUOTE])
  end.

(** ['\n' + ' ' * (indent * level)] with [indent = 1]. *)
Definition newline_indent (level : nat) : str := LF :: replicate level " "%char.

(** The encoder, over the text [nl level] it puts at the start of a line
    of nesting depth [level]; items are separated by [', '] and that
    text. *)
Fixpoint dumps_with (nl : nat → str) (level : nat) (v : json) : result str :=
  match v with
  | JNull => Ret (lit "null")
  | JBool true => Ret (lit "true")
  | JBool false => Ret (lit "false")
  | JInt z => Ret (py_str z)
  | JStr s => encode_basestring_ascii s
  | JList [] => Ret (lit "[]")
  | JList l =>
      items ← (fix chunks (l : list json) : result (list str) :=
                 match l with
                 | [] => Ret []
                 | x :: r =>
                     a ← dumps_with nl (S level) x; b ← chunks r; Ret (a :: b)
                 end) l;
      Ret ("[" ++ nl (S level)
               ++ join (", " ++ nl (S level)) items
               ++ nl level ++ "]")
  | JDict [] => Ret (lit "{}")
  | JDict d =>
      items ← (fix chunks (d : dict) : result (list str) :=
                 match d with
                 | [] => Ret []
                 | (k, x) :: r =>
                     k' ← encode_basestring_ascii k;
                     a ← dumps_with nl (S level) x;
                     b ← chunks r;
                     Ret ((k' ++ ": " ++ a) :: b)
                 end) d;
      Ret ("{" ++ nl (S level)
               ++ join (", " ++ nl (S level)) items
               ++ nl level ++ "}")
  end.

(** The encoder with [indent=1]. *)
Definition dumps : nat → json → result str := dumps_with newline_indent.

(** The two loops of the encoder, on their own: the texts of the items
    of a list and of a dictionary. *)
Fixpoint collect {A} (f : A → result str) (l : list A) : result (list str) :=
  match l with
  | [] => Ret []
  | x :: r => a ← f x; b ← collect f r; Ret (a :: b)
  end.

Definition item_text (nl : nat → str) (level : nat) (kv : str * json) : result str :=
  k' ← encode_basestring_ascii kv.1;
  a ← dumps_with nl (S level) kv.2;
  Ret (k' ++ ": " ++ a).

(** [json.dumps(mdata, indent=1)] *)
Definition json_dumps (mdata : dict) : result str := dumps 0 (JDict mdata).

(** ** base64 *)

Definition b64_char (urlsafe : bool) (n : Z) : ascii :=
  if n <? 26 then chr (65 + n)
  else if n <? 52 then chr (71 + n)
  else if n <? 62 then chr (n - 4)
  else if n =? 62 then (if urlsafe then "-"%char else "+"%char)
  else (if urlsafe then "_"%char else "/"%char).

Fixpoint b64_bytes (urlsafe : bool) (s : list Z) : str :=
  let c := b64_char urlsafe in
  match s with
  | [] => []
  | [a] => [c (a / 4); c (a mod 4 * 16); "="%char; "="%char]
  | [a; b] => [c (a / 4); c (a mod 4 * 16 + b / 16); c (b mod 16 * 4); "="%char]
  | a :: b :: d :: r =>
      c (a / 4) :: c (a mod 4 * 16 + b / 16) :: c (b mod 16 * 4 + d / 64)
        :: c (d mod 64) :: b64_bytes urlsafe r
  end.

(** [base64.b64encode] *)
Definition b64encode (s : str) : str := b64_bytes false (code <$> s).

(** [base64.urlsafe_b64encode] *)
Definition urlsafe_b64encode (s : str) : str := b64_bytes true (code <$> s).

(** ** The codec *)

(** [re.sub('(\S{n,n})', lambda m: m.group(0) + sep, s)] on a string [s]
    without whitespace, for [n > 0]: [sep] after every full run of [n]
    bytes. *)
Fixpoint sub_runs (fuel : nat) (n : nat) (sep s : str) : str :=
  match fuel with
  | O => s
  | S f =>
      if decide (n ≤ List.length s)%nat
      then take n s ++ sep ++ sub_runs f n sep (drop n s)
      else s
  end.

(** [_reflow(data, indent, linelen, preserve)] for [linelen > len(indent)]
    (the calls pass the default 78 and an indent of at most one byte). *)
Definition _reflow (data indent : str) (linelen : nat) (preserve : bool) : str :=
  if preserve then
    indent ++ strip (replace_char LF (CRLF ++ indent) data)
  else
    let linelen := (linelen - List.length indent)%nat in
    let data := remove_spaces data in
    indent ++ strip (sub_runs (List.length data) linelen (CRLF ++ indent) data).

(** [_maybe_encrypt(data, b64encode)] *)
Definition _maybe_encrypt (cfg : IFAP_Config) (data : str) (b64 : bool) : result str :=
  if encrypt cfg then
    match fernet cfg with
    | Some f => Ret (fernet_encrypt f data)
    | None => Raise AttributeError
    end
  else if b64 then Ret (b64encode data)
  else Ret data.

(** [os.path.basename] *)
Definition basename (p : str) : str := default [] (last (split_on "/"%char p)).

(** What [encode_object] has computed when it reaches its [return]: the
    metadata dictionary, its serialization and the payload, both before
    encryption, and the three header values. *)
Record encoded_parts := {
  e_mdata : dict;
  e_xifap : str;
  e_file_data : str;
  e_encoding : str;
  e_subject : str;
  e_filename : str;
}.

Definition encode_parts (cfg : IFAP_Config) (file_path file_data : str)
    (metadata : option dict) : result encoded_parts :=
  let mdata := [(lit "fn", JStr file_path); (lit "bytes", JInt (len file_data))] in
  let mdata :=
    match metadata with
    | Some (kv :: m) => dict_update mdata (kv :: m)
    | _ => mdata
    end in
  xifap ← json_dumps mdata;
  if encrypt cfg then
    let padding := replicate 200 "_"%char in
    let mdata :=
      dict_set "_" (JStr (take (Z.to_nat (148 - len xifap mod 148)) padding)) mdata in
    xifap ← json_dumps mdata;
    let file_data :=
      file_data ++ replicate (Z.to_nat (2048 - len file_data mod 2048)) " "%char in
    Ret {| e_mdata := mdata; e_xifap := xifap; e_file_data := file_data;
           e_encoding := "7bit"; e_subject := "..."; e_filename := "ifap.enc" |}
  else
    Ret {| e_mdata := mdata; e_xifap := xifap; e_file_data := file_data;
           e_encoding := "base64"; e_subject := file_path;
           e_filename := basename file_path |}.

(** The list that [encode_object] joins with ['\r\n']. *)
Definition encode_lines (cfg : IFAP_Config) (file_path file_data : str)
    (metadata : option dict) : result (list str) :=
  p ← encode_parts cfg file_path file_data metadata;
  xifap ← _maybe_encrypt cfg (e_xifap p) false;
  body ← _maybe_encrypt cfg (e_file_data p) true;
  Ret [
    lit "To: .. <to@ifap.example>";
    lit "From: .. <from@ifap.example>";
    "Subject: " ++ e_subject p;
    lit "X-IFAP:";
    _reflow xifap " " 78 (negb (encrypt cfg));
    lit "Content-Type: application/x-ifap";
    "Content-Transfer-Encoding: " ++ e_encoding p;
    "Content-Disposition: attachment; filename=" ++ [QUOTE] ++ e_filename p ++ [QUOTE];
    [];
    _reflow body [] 78 false].

Definition encode_object (cfg : IFAP_Config) (file_path file_data : str)
    (metadata : option dict) : result str :=
  lines ← encode_lines cfg file_path file_data metadata;
  Ret (join CRLF lines).

(** [set_encryption_key] *)
Definition set_encryption_key (C : Crypto) (self : IFAP) (passphrase : str) : IFAP :=
  let k := urlsafe_b64encode (take 32 (sha256_digest C passphrase)) in
  let c := config self in
  set_config {| buffering_max_bytes := buffering_max_bytes c;
                buffering := buffering c;
                encrypt := true;
                fernet := Some (Fernet_new C k);
                key := Some k |} self.

Section Engine.
Context {B : Type} (imap : IMAP B) (L : Reader).

(** The body of the [try] block: the metadata dictionary and the value of
    its ['fn'] entry. *)
Definition parse_message (cfg : IFAP_Config) (data : list fetch_item)
  : result (dict * json) :=
  text ← header_text data;
  header ← match email_header L text "X-IFAP" with
           | Some v => Ret v
           | None => Raise AttributeError
           end;
  let xifap := strip header in
  xifap ← (if decide (take 1 xifap ≠ "{")
           then match fernet cfg with
                | Some f => fernet_decrypt f xifap
                | None => Raise AttributeError
                end
           else Ret xifap);
  metadata ← json_loads L xifap;
  file_path ← getitem metadata "fn";
  match metadata with
  | JDict d => Ret (d, file_path)
  | _ => Raise TypeError
  end.

Definition add_broken (seq : Z) (st : scan_state) : scan_state :=
  {| s_tree := s_tree st; s_broken := {[seq]} ∪ s_broken st;
     s_to_delete := s_to_delete st; s_out := s_out st |}.

(** One turn of the loop for a sequence that is not in [to_delete], given
    the answer of [fetch]. *)
Definition process (cfg : IFAP_Config) (st : scan_state) (seq : Z)
    (answer : str * list fetch_item) : result scan_state :=
  let '(rv, data) := answer in
  if decide (rv ≠ OK) then Ret (add_broken seq st)
  else
    match parse_message cfg data with
    | Raise e => if handled e then Ret (add_broken seq st) else Raise e
    | Ret (metadata, file_path) =>
        if is_snapshot_path file_path then
          Ret {| s_tree := s_tree st; s_broken := s_broken st;
                 s_to_delete := s_to_delete st;
                 s_out := s_out st ++ [SnapshotAt seq] |}
        else
          match py_hash file_path with
          | None => Raise TypeError
          | Some k =>
              if latest_seq (s_tree st) k >=? seq then Ret st
              else
                let metadata := strip_transport metadata in
                let to_delete :=
                  match s_tree st !! k with
                  | Some (old, _) => {[old]} ∪ s_to_delete st
                  | None => s_to_delete st
                  end in
                Ret {| s_tree := <[k := (seq, metadata)]> (s_tree st);
                       s_broken := s_broken st;
                       s_to_delete := to_delete;
                       s_out := s_out st |}
          end
    end.

(** The [for seq in reversed(seqs)] loop. *)
Fixpoint scan (cfg : IFAP_Config) (b : B) (st : scan_state) (seqs : list Z)
  : result unit * B * scan_state :=
  match seqs with
  | [] => (Ret (), b, st)
  | seq :: rest =>
      if decide (seq ∈ s_to_delete st) then scan cfg b st rest
      else
        let '(answer, b') := imap_fetch imap b seq in
        match process cfg st seq answer with
        | Ret st' => scan cfg b' st' rest
        | Raise e => (Raise e, b', st)
        end
  end.

(** [[int(i) for i in seqs.split(' ')]]; [None] is the [ValueError] of
    [int]. *)
Definition parse_seqs (seqs : str) : option (list Z) :=
  mapM py_int (split_on " "%char seqs).

(** [set(k[0] for k in self._tree.values())] *)
Definition tree_seqs (t : index) : gset Z :=
  list_to_set ((λ kv, kv.2.1) <$> map_to_list t).

(** The locals when the loop starts. *)
Definition scan_start (self : IFAP) : scan_state :=
  {| s_tree := tree self; s_broken := ∅; s_to_delete := ∅; s_out := [] |}.

(** What a method call leaves behind: how it ended, the object, the
    backend and what was printed. *)
Record outcome := {
  returned : result unit;
  self' : IFAP;
  backend' : B;
  printed : list output;
}.

Definition synchronize (self : IFAP) (b : B) : outcome :=
  let '(status, b) := imap_select imap b (base_folder self) in
  if decide (OK ≠ status) then
    {| returned := Raise IOError; self' := self; backend' := b; printed := [] |}
  else
    let '((rv, seqs), b) := imap_search imap b in
    if decide (rv ≠ OK) then
      {| returned := Raise IOError; self' := self; backend' := b; printed := [] |}
    else
      match parse_seqs seqs with
      | None =>
          {| returned := Raise ValueError; self' := self; backend' := b;
             printed := [] |}
      | Some l =>
          let seqs := py_sorted l in
          let '(r, b, st) := scan (config self) b (scan_start self) (rev seqs) in
          match r with
          | Raise e =>
              {| returned := Raise e; self' := set_tree (s_tree st) self;
                 backend' := b; printed := s_out st |}
          | Ret _ =>
              let to_delete :=
                s_to_delete st ∪
                ((list_to_set seqs ∖ s_broken st) ∖ tree_seqs (s_tree st)) in
              {| returned := Ret (); self' := set_tree (s_tree st) self;
                 backend' := b; printed := s_out st ++ [DeleteThese to_delete] |}
          end
      end.


(** ** flush *)

(** The body of the [for file_path in self._unwritten.keys()] loop, over
    the list of keys taken when the loop starts. *)
Fixpoint flush_loop (keys : list str) (self : IFAP) (b : B) (out : list output)
  : outcome :=
  match keys with
  | [] => {| returned := Ret (); self' := self; backend' := b; printed := out |}
  | file_path :: rest =>
      match unwritten self !! file_path with
      | None =>
          {| returned := Raise KeyError; self' := self; backend' := b;
             printed := out |}
      | Some f =>
          match encode_object (config self) file_path (f_value f) None with
          | Raise e =>
              {| returned := Raise e; self' := self; backend' := b;
                 printed := out |}
          | Ret eml =>
              let '((rv, d), b) := imap_append imap b (base_folder self) eml in
              if decide (rv = OK) then
                flush_loop rest
                  (set_unwritten (delete file_path (unwritten self))
                     (unwritten_bytes self - len (f_value f)) self)
                  b out
              else flush_loop rest self b (out ++ [Failed d])
          end
      end
  end.

Definition flush (self : IFAP) (b : B) : outcome :=
  flush_loop (map_to_list (unwritten self)).*1 self b [].

(** [_maybe_flush] *)
Definition _maybe_flush (self : IFAP) (b : B) : outcome :=
  if negb (buffering (config self))
     || (buffering_max_bytes (config self) <? unwritten_bytes self)
  then flush self b
  else {| returned := Ret (); self' := self; backend' := b; printed := [] |}.

(** ** The scoped session *)

(** [a; b] for two method calls: [b] runs when [a] returned. *)
Definition and_then (a : outcome) (k : IFAP → B → outcome) : outcome :=
  match returned a with
  | Raise e => a
  | Ret _ =>
      let r := k (self' a) (backend' a) in
      {| returned := returned r; self' := self' r; backend' := backend' r;
         printed := printed a ++ printed r |}
  end.

Definition set_buffering (v : bool) (c : IFAP_Config) : IFAP_Config :=
  {| buffering_max_bytes := buffering_max_bytes c; buffering := v;
     encrypt := encrypt c; fernet := fernet c; key := key c |}.

Definition __enter__ (self : IFAP) (b : B) : outcome :=
  let self := set_sstack (sstack self ++ [Copy (config self)]) self in
  let self := set_config (set_buffering true (config self)) self in
  synchronize self b.

Definition __exit__ (self : IFAP) (b : B) : outcome :=
  match last (sstack self) with
  | None =>
      {| returned := Raise IndexError; self' := self; backend' := b;
         printed := [] |}
  | Some c =>
      let self :=
        set_config c (set_sstack (removelast (sstack self)) self) in
      and_then (_maybe_flush self b) synchronize
  end.

End Engine.

(** ** open *)

(** The names bound when the body of [IFAP_File.__init__] runs: its
    parameters, then the globals of the module.  (No Python builtin has a
    name that starts with [_f].) *)
Definition init_locals : list string :=
  ["self"; "ifap"; "file_path"; "mode"; "metadata"; "args"; "kwargs"]%string.

Definition module_globals : list string :=
  ["__name__"; "__file__"; "__package__"; "__builtins__";
   "__author__"; "__version__"; "__doc__"; "base64"; "email"; "hashlib";
   "json"; "os"; "re"; "threading"; "StringIO"; "urlsafe_b64encode";
   "Fernet"; "InvalidToken"; "default_backend"; "IFAP_File"; "_IFAP_Config";
   "IFAP"]%string.

(** Evaluating a bare name. *)
Definition load_name (locals : list string) (name : string) : result unit :=
  if decide (name ∈ locals ++ module_globals) then Ret () else Raise NameError.

(** [IFAP_File.__init__(self, ifap, file_path, mode, metadata, contents)]:
    after [StringIO.__init__], the first assignment reads [_file_path]. *)
Definition IFAP_File_init (file_path mode : str) (metadata : dict) (contents : str)
  : result IFAP_File :=
  _ ← load_name init_locals "_file_path";
  Ret {| f_file_path := file_path; f_open_mode := mode;
         f_metadata := metadata; f_value := contents |}.

Definition open (self : IFAP) (file_path mode : str)
  : result IFAP_File * list output :=
  let contents : str := [] in
  let metadata : dict := [] in
  let '(mode, contents, out) :=
    if bool_decide ("r"%char ∈ mode) || bool_decide ("a"%char ∈ mode) then
      let mode := replace_char "+"%char "w" mode in
      match unwritten self !! file_path with
      | Some f => (mode, f_value f, [])
      | None => (mode, contents, [OpenFixme])
      end
    else (mode, contents, []) in
  (IFAP_File_init file_path mode metadata contents, out).

(** ** An IMAP folder

    A folder that answers as [imaplib] does on a healthy connection: the
    messages are numbered 1..n in the order of their appends, [search]
    lists every number, [fetch] returns the first 1024 bytes of the
    message ([[None]] for a number that is not there) and [append] stores
    the message at the end.  The folder keeps a log of the numbers it was
    asked to fetch. *)
Record folder := {
  messages : list str;
  fetch_log : list Z;
}.

Definition folder_of (msgs : list str) : folder :=
  {| messages := msgs; fetch_log := [] |}.

(** The message numbered [seq]. *)
Definition message_at (msgs : list str) (seq : Z) : option str :=
  if 1 <=? seq then msgs !! Z.to_nat (seq - 1) else None.

Definition seq_numbers (msgs : list str) : list Z :=
  (λ i, Z.of_nat (S i)) <$> seq 0 (List.length msgs).

Definition fetch_answer (msgs : list str) (seq : Z) : str * list fetch_item :=
  match message_at msgs seq with
  | Some m =>
      (OK, [ItemPair (py_str seq ++ " (BODY[]<0> {" ++ py_str (len (take 1024 m)) ++ "}")
                     (take 1024 m);
            ItemStr ")"])
  | None => (OK, [ItemNone])
  end.

Definition folder_imap : IMAP folder := {|
  imap_select := λ b _, (OK, b);
  imap_search := λ b, ((OK, join " " (py_str <$> seq_numbers (messages b))), b);
  imap_fetch := λ b seq,
    (fetch_answer (messages b) seq,
     {| messages := messages b; fetch_log := fetch_log b ++ [seq] |});
  imap_append := λ b _ eml,
    ((OK, lit "[APPENDUID] (Success)"),
     {| messages := messages b ++ [eml]; fetch_log := fetch_log b |});
|}.

(** ** The reference reader: e-mail headers

    [email.parser.Parser().parsestr(text, headersonly=True)[name]] of
    Python 2.7, for a [str]: the text is cut into lines, the header lines
    are those up to the first line that is neither a field, a
    continuation nor a [From ] line, and a field's value is its folded
    lines without the trailing line end. *)

(** [text.splitlines(True)] *)
Fixpoint splitlines (s : str) : list str :=
  match s with
  | [] => []
  | c :: r =>
      if decide (c = LF) then [LF] :: splitlines r
      else if decide (c = CR) then
        match r with
        | c' :: r' =>
            if decide (c' = LF) then [CR; LF] :: splitlines r'
            else [CR] :: splitlines r
        | [] => [[CR]]
        end
      else
        match splitlines r with
        | l :: ls => (c :: l) :: ls
        | [] => [[c]]
        end
  end.

Definition is_blank (c : ascii) : bool :=
  bool_decide (c = " "%char) || bool_decide (c = TAB).

(** One or more bytes of 33..57 or 59..126, then a colon. *)
Fixpoint field_name_colon (seen : bool) (s : str) : bool :=
  match s with
  | [] => false
  | c :: r =>
      if decide (c = ":"%char) then seen
      else if (33 <=? code c) && (code c <=? 126) then field_name_colon true r
      else false
  end.

Definition starts_with (p s : str) : bool := bool_decide (take (List.length p) s = p).

(** [headerRE.match(line)] *)
Definition is_header_line (line : str) : bool :=
  starts_with "From " line
  || match line with c :: _ => is_blank c | [] => false end
  || field_name_colon false line.

Fixpoint take_while {A} (f : A → bool) (l : list A) : list A :=
  match l with
  | x :: r => if f x then x :: take_while f r else []
  | [] => []
  end.

Fixpoint rstrip_crlf_rev (s : str) : str :=
  match s with
  | c :: r => if bool_decide (c = CR) || bool_decide (c = LF) then rstrip_crlf_rev r else s
  | [] => []
  end.

(** [s.rstrip('\r\n')] *)
Definition rstrip_crlf (s : str) : str := rev (rstrip_crlf_rev (rev s)).

(** [s.find(':')] as the text before the colon and the text after it. *)
Fixpoint cut_at_colon (s : str) : option (str * str) :=
  match s with
  | [] => None
  | c :: r =>
      if decide (c = ":"%char) then Some ([], r)
      else '(a, b) ← cut_at_colon r; Some (c :: a, b)
  end.

(** [_parse_headers]: [lineno] counts the lines done, [total] is their
    number, [lastheader] (empty for none) and [lastvalue] are the field
    being collected, [acc] holds the fields stored so far. *)
Fixpoint parse_headers (lines : list str) (lineno total : nat)
    (lastheader : str) (lastvalue : list str) (acc : list (str * str))
  : list (str * str) :=
  match lines with
  | [] =>
      match lastheader with
      | [] => acc
      | _ => acc ++ [(lastheader, rstrip_crlf (List.concat lastvalue))]
      end
  | line :: rest =>
      if match line with c :: _ => is_blank c | [] => false end then
        match lastheader with
        | [] => parse_headers rest (S lineno) total [] [] acc
        | _ => parse_headers rest (S lineno) total lastheader (lastvalue ++ [line]) acc
        end
      else
        let acc :=
          match lastheader with
          | [] => acc
          | _ => acc ++ [(lastheader,
                          rstrip_crlf (removelast (List.concat lastvalue)))]
          end in
        if starts_with "From " line then
          if decide (lineno = 0%nat) then parse_headers rest (S lineno) total [] [] acc
          else if decide (S lineno = total) then acc
          else parse_headers rest (S lineno) total [] [] acc
        else
          match cut_at_colon line with
          | None => parse_headers rest (S lineno) total [] [] acc
          | Some (name, value) =>
              parse_headers rest (S lineno) total name [lstrip value] acc
          end
  end.

Definition lower_char (c : ascii) : ascii :=
  if (65 <=? code c) && (code c <=? 90) then chr (code c + 32) else c.

(** [s.lower()] *)
Definition lower (s : str) : str := lower_char <$> s.

(** [Message.get(name)] *)
Fixpoint get_field (name : str) (fields : list (str * str)) : option str :=
  match fields with
  | [] => None
  | (k, v) :: r => if decide (lower k = lower name) then Some v else get_field name r
  end.

Definition py27_email_header (text name : str) : option str :=
  let headers := take_while is_header_line (splitlines text) in
  get_field name (parse_headers headers 0 (List.length headers) [] [] []).

(** ** The reference reader: json.loads

    [json.loads] of Python 2.7 on a [str], for the JSON values of [json]:
    a Python [unicode] result is held as its UTF-8 bytes.  Numbers with a
    fraction or an exponent, [NaN] and [Infinity] have no counterpart in
    [json]; the reader reports them as it reports malformed text.  [None]
    stands for [ValueError] (which [UnicodeDecodeError] is a subclass
    of). *)

Definition is_json_ws (c : ascii) : bool :=
  bool_decide (c = " "%char) || bool_decide (c = TAB)
  || bool_decide (c = LF) || bool_decide (c = CR).

Fixpoint skip_ws (s : str) : str :=
  match s with
  | c :: r => if is_json_ws c then skip_ws r else s
  | [] => []
  end.

Definition hex_value (c : ascii) : option Z :=
  let n := code c in
  if (48 <=? n) && (n <=? 57) then Some (n - 48)
  else if (97 <=? n) && (n <=? 102) then Some (n - 87)
  else if (65 <=? n) && (n <=? 70) then Some (n - 55)
  else None.

Definition hex4 (a b c d : ascii) : option Z :=
  x ← hex_value a; y ← hex_value b; z ← hex_value c; w ← hex_value d;
  Some (((x * 16 + y) * 16 + z) * 16 + w).

(** [unichr(cp).encode('utf-8')] *)
Definition utf8_encode (cp : Z) : str :=
  if cp <? 128 then [chr cp]
  else if cp <? 2048 then [chr (192 + cp / 64); chr (128 + cp mod 64)]
  else if cp <? 65536 then
    [chr (224 + cp / 4096); chr (128 + cp / 64 mod 64); chr (128 + cp mod 64)]
  else
    [chr (240 + cp / 262144); chr (128 + cp / 4096 mod 64);
     chr (128 + cp / 64 mod 64); chr (128 + cp mod 64)].

(** The text of a string literal after its opening quote: the decoded
    content and what follows the closing quote. *)
Fixpoint scan_string (s : str) : option (str * str) :=
  match s with
  | [] => None
  | c :: r =>
      if decide (c = QUOTE) then Some ([], r)
      else if decide (c = BACKSLASH) then
        match r with
        | [] => None
        | e :: r1 =>
            if decide (e = "u"%char) then
              match r1 with
              | h1 :: h2 :: h3 :: h4 :: r2 =>
                  match hex4 h1 h2 h3 h4 with
                  | None => None
                  | Some u =>
                      let single :=
                        '(t, rest) ← scan_string r2; Some (utf8_encode u ++ t, rest) in
                      if (55296 <=? u) && (u <=? 56319) then
                        match r2 with
                        | b :: u' :: g1 :: g2 :: g3 :: g4 :: r3 =>
                            match hex4 g1 g2 g3 g4 with
                            | Some u2 =>
                                if bool_decide (b = BACKSLASH)
                                   && bool_decide (u' = "u"%char)
                                   && (56320 <=? u2) && (u2 <=? 57343)
                                then
                                  '(t, rest) ← scan_string r3;
                                  Some (utf8_encode
                                          (65536 + (u - 55296) * 1024 + (u2 - 56320))
                                          ++ t, rest)
                                else single
                            | None => single
                            end
                        | _ => single
                        end
                      else single
                  end
              | _ => None
              end
            else
              let simple (x : ascii) :=
                '(t, rest) ← scan_string r1; Some (x :: t, rest) in
              if decide (e = QUOTE) then simple QUOTE
              else if decide (e = BACKSLASH) then simple BACKSLASH
              else if decide (e = "/"%char) then simple "/"%char
              else if decide (e = "b"%char) then simple BS
              else if decide (e = "f"%char) then simple FF
              else if decide (e = "n"%char) then simple LF
              else if decide (e = "r"%char) then simple CR
              else if decide (e = "t"%char) then simple TAB
              else None
        end
      else if code c <? 32 then None
      else '(t, rest) ← scan_string r; Some (c :: t, rest)
  end.

(** A string literal, checked to decode as UTF-8. *)
Definition parse_string (s : str) : option (str * str) :=
  '(t, rest) ← scan_string s;
  if bool_decide (is_Some (utf8_decode (code <$> t))) then Some (t, rest) else None.

(** An integer literal; a leading zero before more digits leaves digits
    behind and a following [.], [e] or [E] either makes a float or is left
    behind: both end in [ValueError] here. *)
Definition parse_number (s : str) : option (json * str) :=
  let '(neg, s1) :=
    match s with
    | c :: r => if decide (c = "-"%char) then (true, r) else (false, s)
    | [] => (false, s)
    end in
  let ds := take_while is_digit s1 in
  let rest := drop (List.length ds) s1 in
  match ds with
  | [] => None
  | d :: ds' =>
      if bool_decide (d = "0"%char) && negb (bool_decide (ds' = [])) then None
      else if match rest with
              | c :: _ => bool_decide (c = "."%char) || bool_decide (c = "e"%char)
                          || bool_decide (c = "E"%char)
              | [] => false
              end then None
      else v ← digits_value 0 ds; Some (JInt (if neg then - v else v), rest)
  end.

(** [dict(pairs)] *)
Definition dict_of_pairs (pairs : dict) : dict :=
  fold_left (λ acc kv, dict_set kv.1 kv.2 acc) pairs [].

Fixpoint parse_value (fuel : nat) (s : str) : option (json * str) :=
  match fuel with
  | O => None
  | S f =>
      match s with
      | [] => None
      | c :: r =>
          if decide (c = QUOTE) then
            '(t, rest) ← parse_string r; Some (JStr t, rest)
          else if decide (c = "{"%char) then
            match skip_ws r with
            | c' :: r' =>
                if decide (c' = "}"%char) then Some (JDict [], r')
                else '(d, rest) ← parse_members f (c' :: r');
                     Some (JDict (dict_of_pairs d), rest)
            | [] => None
            end
          else if decide (c = "["%char) then
            match skip_ws r with
            | c' :: r' =>
                if decide (c' = "]"%char) then Some (JList [], r')
                else '(l, rest) ← parse_elements f (c' :: r'); Some (JList l, rest)
            | [] => None
            end
          else if starts_with "null" s then Some (JNull, drop 4 s)
          else if starts_with "true" s then Some (JBool true, drop 4 s)
          else if starts_with "false" s then Some (JBool false, drop 5 s)
          else parse_number s
      end
  end
with parse_members (fuel : nat) (s : str) : option (dict * str) :=
  match fuel with
  | O => None
  | S f =>
      match s with
      | c :: r =>
          if decide (c = QUOTE) then
            '(k, r1) ← parse_string r;
            match skip_ws r1 with
            | c1 :: r2 =>
                if decide (c1 = ":"%char) then
                  '(v, r3) ← parse_value f (skip_ws r2);
                  match skip_ws r3 with
                  | c2 :: r4 =>
                      if decide (c2 = "}"%char) then Some ([(k, v)], r4)
                      else if decide (c2 = ","%char) then
                        '(d, r5) ← parse_members f (skip_ws r4);
                        Some ((k, v) :: d, r5)
                      else None
                  | [] => None
                  end
                else None
            | [] => None
            end
          else None
      | [] => None
      end
  end
with parse_elements (fuel : nat) (s : str) : option (list json * str) :=
  match fuel with
  | O => None
  | S f =>
      '(v, r1) ← parse_value f s;
      match skip_ws r1 with
      | c :: r2 =>
          if decide (c = "]"%char) then Some ([v], r2)
          else if decide (c = ","%char) then
            '(l, r3) ← parse_elements f (skip_ws r2); Some (v :: l, r3)
          else None
      | [] => None
      end
  end.

(** [json.loads] on the texts [json.dumps] writes for null, booleans,
    integers, strings, lists and dictionaries.  Numbers with a fraction
    or an exponent, [NaN] and [Infinity], which [json.loads] reads as
    floats, have no value in [json]: this reader answers [ValueError]
    for them, and nothing below is stated about such texts. *)
Definition py27_json_loads (s : str) : result json :=
  match parse_value (S (List.length s)) (skip_ws s) with
  | Some (v, rest) =>
      match skip_ws rest with
      | [] => Ret v
      | _ => Raise ValueError
      end
  | None => Raise ValueError
  end.

(** The reference reader. *)
Definition py27 : Reader :=
  {| email_header := py27_email_header; json_loads := py27_json_loads |}.

(** ** Snapshot adoption, as the specification words it

    The specification has the scan adopt the first snapshot it meets:
    the snapshot's condensed index is merged into the index, for the paths
    not already seen at a higher sequence, and no sequence at or below the
    snapshot's covered highwater is scanned.  The form of a snapshot is
    left open, so the statement is made for any way [read] of reading its
    condensed index and highwater off the snapshot's metadata, over the
    folders of [folder_imap]. *)
Record snapshot := {
  condensed : list (pykey * (Z * dict));
  highwater : Z;
}.

Definition adopts_snapshots (L : Reader) (read : dict → snapshot) : Prop :=
  ∀ (self : IFAP) (msgs : list str) (seq : Z) (metadata : dict) (file_path : json),
    let r := synchronize folder_imap L self (folder_of msgs) in
    returned r = Ret () →
    seq = Z.of_nat (List.length msgs) →
    parse_message L (config self) (fetch_answer msgs seq).2 = Ret (metadata, file_path) →
    is_snapshot_path file_path = true →
    (∀ s, s < seq → s ≤ highwater (read metadata) → s ∉ fetch_log (backend' r))
    ∧ (∀ k e, (k, e) ∈ condensed (read metadata) →
              e.1 ≤ latest_seq (tree (self' r)) k).

(** ** Sessions of appends and synchronizations on a folder *)

Inductive operation :=
  | Append (eml : str)
  | Synchronize.

(** The engine and the folder after one operation, with how it ended. *)
Definition run_op (L : Reader) (st : IFAP * folder * result unit) (o : operation)
  : IFAP * folder * result unit :=
  let '(self, b, _) := st in
  match o with
  | Append eml => (self, (imap_append folder_imap b (base_folder self) eml).2, Ret ())
  | Synchronize =>
      let r := synchronize folder_imap L self b in
      (self' r, backend' r, returned r)
  end.

Definition run (L : Reader) (ops : list operation) (self : IFAP) (b : folder)
  : IFAP * folder * result unit :=
  fold_left (run_op L) ops (self, b, Ret ()).

(** A message of the folder names [k] (the claim's parsed successfully and
    names that path): its first 1024 bytes parse and the ['fn'] entry
    hashes to [k]. *)
Definition names (L : Reader) (cfg : IFAP_Config) (msgs : list str) (seq : Z)
    (k : pykey) : Prop :=
  ∃ metadata file_path,
    is_Some (message_at msgs seq)
    ∧ parse_message L cfg (fetch_answer msgs seq).2 = Ret (metadata, file_path)
    ∧ py_hash file_path = Some k.

(** The same, for a message that is not a tombstone: no true ['del']. *)
Definition names_live (L : Reader) (cfg : IFAP_Config) (msgs : list str) (seq : Z)
    (k : pykey) : Prop :=
  ∃ metadata file_path,
    is_Some (message_at msgs seq)
    ∧ parse_message L cfg (fetch_answer msgs seq).2 = Ret (metadata, file_path)
    ∧ py_hash file_path = Some k
    ∧ dict_get "del" metadata ≠ Some (JBool true).

(** ** The index against the answers of a folder

    [ans seq] is the answer of [fetch] for [seq].  An answer is readable
    as [k] when the scan would file it under [k]: the status is OK, the
    header parses, the path is not the snapshot path and it hashes to
    [k]. *)
Definition readable (L : Reader) (cfg : IFAP_Config)
    (answer : str * list fetch_item) (k : pykey) : Prop :=
  ∃ data metadata file_path,
    answer = (OK, data)
    ∧ parse_message L cfg data = Ret (metadata, file_path)
    ∧ is_snapshot_path file_path = false
    ∧ py_hash file_path = Some k.

(** The index records [s] for some path. *)
Definition recorded (T : index) (s : Z) : Prop := ∃ k md, T !! k = Some (s, md).

(** Nothing is left to do for [s]: if its message is readable as [k], the
    index holds [k] at [s] or higher. *)
Definition covered (L : Reader) (cfg : IFAP_Config)
    (ans : Z → str * list fetch_item) (T : index) (s : Z) : Prop :=
  ∀ k, readable L cfg (ans s) k → s ≤ latest_seq T k.

(** The index fits the folder: every sequence it records is covered.
    This holds whenever each entry [k ↦ (s, _)] was read off the message
    at [s]. *)
Definition index_fits (L : Reader) (cfg : IFAP_Config)
    (ans : Z → str * list fetch_item) (T : index) : Prop :=
  ∀ s, recorded T s → covered L cfg ans T s.

(** Every entry [k ↦ (s, _)] was read off the message at [s]. *)
Definition index_sound (L : Reader) (cfg : IFAP_Config)
    (ans : Z → str * list fetch_item) (T : index) : Prop :=
  ∀ k s md, T !! k = Some (s, md) → readable L cfg (ans s) k.

(** For every path of the index, the recorded sequence is the highest
    among the messages that [named] relates to the path. *)
Definition records_latest (named : Z → pykey → Prop) (T : index) : Prop :=
  ∀ k s md, T !! k = Some (s, md) → named s k ∧ ∀ s', named s' k → s' ≤ s.

(** ** The staged writes *)

(** [sum(len(f) for f in self._unwritten.values())] *)
Definition staged_size (u : gmap str IFAP_File) : Z :=
  map_fold (λ _ f acc, acc + len (f_value f)) 0 u.

(** Every staged write can be encoded. *)
Definition encodes (self : IFAP) : Prop :=
  ∀ path f, unwritten self !! path = Some f →
    ∃ eml, encode_object (config self) path (f_value f) None = Ret eml.






(** ** Example data *)

Definition sure (r : result str) : str :=
  match r with Ret s => s | Raise _ => [] end.

(** ["one"] written to [a], then a tombstone for [a]. *)
Definition eml_a : str := sure (encode_object default_config "a" "one" None).
Definition eml_a_tombstone : str :=
  sure (encode_object default_config "a" [] (Some [(lit "del", JBool true)])).
Definition eml_b : str := sure (encode_object default_config "b" "two" None).
Definition eml_snapshot : str :=
  sure (encode_object default_config _SNAPSHOT_FILE_PATH "{}"
          (Some [(lit "snap", JInt 1)])).

Definition fresh : IFAP := IFAP_new default_config "INBOX".

(** An engine whose index says that [a] is at sequence 1. *)
Definition seeded : IFAP := set_tree {[KStr "a" := (1, [])]} fresh.

(** A reading of snapshots: the highwater is the integer under ['snap'],
    the condensed index is empty. *)
Definition snap_highwater (metadata : dict) : snapshot :=
  {| condensed := [];
     highwater := match dict_get "snap" metadata with
                  | Some (JInt h) => h
                  | _ => 0
                  end |}.

(** An engine with one write staged: ["one"] for [a]. *)
Definition file_a : IFAP_File :=
  {| f_file_path := "a"; f_open_mode := "w"; f_metadata := []; f_value := "one" |}.
Definition staged : IFAP := set_unwritten {[lit "a" := file_a]} 3 fresh.

(** A stand-in for the cryptographic library, to run the examples: the
    digest pads or cuts to 32 bytes, a token is [gA] and two letters of
    [a]..[p] for every byte, and decryption skips whitespace. *)
Fixpoint toy_letters (s : str) : str :=
  match s with
  | [] => []
  | c :: r => chr (97 + code c / 16) :: chr (97 + code c mod 16) :: toy_letters r
  end.

Fixpoint toy_bytes (s : str) : option str :=
  match s with
  | [] => Some []
  | a :: b :: r =>
      if (97 <=? code a) && (code a <? 113) && (97 <=? code b) && (code b <? 113)
      then cons (chr (16 * (code a - 97) + (code b - 97))) <$> toy_bytes r
      else None
  | _ => None
  end.

Definition toy_fernet (key : str) : Fernet := {|
  fernet_encrypt := λ data, "gA" ++ toy_letters data;
  fernet_decrypt := λ token,
    match remove_spaces token with
    | g :: a :: r =>
        if bool_decide (g = "g"%char) && bool_decide (a = "A"%char) then
          match toy_bytes r with
          | Some data => Ret data
          | None => Raise InvalidToken
          end
        else Raise InvalidToken
    | _ => Raise InvalidToken
    end;
|}.

Definition toy_crypto : Crypto := {|
  sha256_digest := λ s, take 32 (s ++ replicate 32 "0"%char);
  Fernet_new := toy_fernet;
|}.

Definition parts_of (r : result encoded_parts) : encoded_parts :=
  match r with
  | Ret p => p
  | Raise _ =>
      {| e_mdata := []; e_xifap := []; e_file_data := []; e_encoding := [];
         e_subject := []; e_filename := [] |}
  end.

(** A backend whose [select] is refused. *)
Definition refusing_imap : IMAP unit := {|
  imap_select := λ b _, (lit "NO", b);
  imap_search := λ b, ((OK, lit "1"), b);
  imap_fetch := λ b _, ((OK, [ItemNone]), b);
  imap_append := λ b _ _, ((lit "NO", lit "refused"), b);
|}.

(** A backend where the one message [search] lists is gone when it is
    fetched: [imaplib] then answers [('OK', [None])]. *)
Definition vanished_imap : IMAP unit := {|
  imap_select := λ b _, (OK, b);
  imap_search := λ b, ((OK, lit "1"), b);
  imap_fetch := λ b _, ((OK, [ItemNone]), b);
  imap_append := λ b _ _, ((OK, []), b);
|}.

(** ** The turns of the scan

    What one turn of the loop does to the state [st] for the sequence
    [seq], against the answers [ans] of [fetch]: it raises whatever the
    state, it leaves the index and the deletion queue alone because [seq]
    is covered, or it files the message of [seq] under its path. *)
Inductive turn (L : Reader) (cfg : IFAP_Config) (ans : Z → str * list fetch_item)
    (st : scan_state) (seq : Z) : result scan_state → Prop :=
  | turn_raise e :
      (∀ st', process L cfg st' seq (ans seq) = Raise e) →
      turn L cfg ans st seq (Raise e)
  | turn_keep st' :
      s_tree st' = s_tree st → s_to_delete st' = s_to_delete st →
      covered L cfg ans (s_tree st) seq →
      (∀ st2, covered L cfg ans (s_tree st2) seq →
         ∃ st2', process L cfg st2 seq (ans seq) = Ret st2'
                 ∧ s_tree st2' = s_tree st2 ∧ s_to_delete st2' = s_to_delete st2) →
      turn L cfg ans st seq (Ret st')
  | turn_update st' k md :
      readable L cfg (ans seq) k →
      latest_seq (s_tree st) k < seq →
      s_tree st' = <[k := (seq, md)]> (s_tree st) →
      (∀ s, s ∈ s_to_delete st' → s ∈ s_to_delete st ∨ recorded (s_tree st) s) →
      (∀ st2, covered L cfg ans (s_tree st2) seq →
         ∃ st2', process L cfg st2 seq (ans seq) = Ret st2'
                 ∧ s_tree st2' = s_tree st2 ∧ s_to_delete st2' = s_to_delete st2) →
      turn L cfg ans st seq (Ret st').

(** The invariant of the scan: what the index records and what is queued
    for deletion is covered. *)
Definition scan_inv (L : Reader) (cfg : IFAP_Config) (ans : Z → str * list fetch_item)
    (st : scan_state) : Prop :=
  ∀ s, recorded (s_tree st) s ∨ s ∈ s_to_delete st → covered L cfg ans (s_tree st) s.

(** The state of a session: the configuration is the one it started with
    and the index is sound for the folder. *)
Definition session_inv (L : Reader) (cfg : IFAP_Config)
    (st : IFAP * folder * result unit) : Prop :=
  config st.1.1 = cfg ∧ index_sound L cfg (fetch_answer (messages st.1.2)) (tree st.1.1).

(** ** Texts

    A byte that [json.dumps] copies as it is, a byte it never escapes to
    anything but printable bytes, and a string of ASCII bytes. *)
Definition plain (c : ascii) : Prop :=
  32 ≤ code c ≤ 126 ∧ code c ≠ 34 ∧ code c ≠ 92.

Definition printable (c : ascii) : Prop := 32 ≤ code c ≤ 126.

Definition ascii_str (s : str) : Prop := Forall (λ c, code c < 128) s.

(** Whitespace for [json.loads]. *)
Definition ws (w : str) : Prop := Forall (λ c, is_json_ws c = true) w.

(** What may follow an integer literal: nothing that continues it. *)
Definition number_stop (rest : str) : Prop :=
  match rest with
  | [] => True
  | c :: _ => is_digit c = false ∧ c ≠ "."%char ∧ c ≠ "e"%char ∧ c ≠ "E"%char
  end.

(** The first byte of a serialized value: neither whitespace nor a
    closing bracket. *)
Definition value_start (c : ascii) : Prop :=
  is_json_ws c = false ∧ c ≠ "]"%char ∧ c ≠ "}"%char.

(** ** JSON values as Python has them

    The nodes of a value, which bound the depth the reader needs; and the
    values of Python dictionaries with ASCII strings: no key twice. *)
Fixpoint json_size (v : json) : nat :=
  match v with
  | JList l =>
      S ((fix sizes (l : list json) : nat :=
            match l with
            | [] => O
            | x :: r => S (json_size x + sizes r)
            end) l)
  | JDict d =>
      S ((fix sizes (d : dict) : nat :=
            match d with
            | [] => O
            | (_, x) :: r => S (json_size x + sizes r)
            end) d)
  | _ => 1%nat
  end.

Fixpoint wf_json (v : json) : Prop :=
  match v with
  | JStr s => ascii_str s
  | JList l =>
      (fix all (l : list json) : Prop :=
         match l with
         | [] => True
         | x :: r => wf_json x ∧ all r
         end) l
  | JDict d =>
      NoDup d.*1
      ∧ (fix all (d : dict) : Prop :=
           match d with
           | [] => True
           | (k, x) :: r => ascii_str k ∧ wf_json x ∧ all r
           end) d
  | _ => True
  end.

(** [json.loads] reads the text of [v] back, whatever follows it, when
    the encoder breaks its lines with [nl]. *)
Definition reads_back (nl : nat → str) (v : json) : Prop :=
  ∀ level t fuel rest,
    wf_json v → dumps_with nl level v = Ret t →
    (json_size v ≤ fuel)%nat → number_stop rest →
    parse_value fuel (t ++ rest) = Some (v, rest).

(** ** Reflowed text

    [_reflow] with [preserve] puts ['\r\n'] and the indent of the header
    for every ['\n']; the line breaks of [json.dumps] become those of
    [folded_indent].  In a wrapped text every line end is ['\r\n'] followed
    by a space: the continuation lines of one header field. *)
Definition refold : str → str := replace_char LF (CRLF ++ " ").

Definition folded_indent (level : nat) : str :=
  CR :: LF :: " "%char :: replicate level " "%char.

Inductive wrapped : str → Prop :=
  | wrapped_nil : wrapped []
  | wrapped_char c s : c ≠ CR → c ≠ LF → wrapped s → wrapped (c :: s)
  | wrapped_break s : wrapped s → wrapped (CR :: LF :: " "%char :: s).

(** Reflowing the serialization of a value gives its serialization with
    folded line ends, a wrapped text that is no shorter than the value has
    nodes. *)
Definition folds (v : json) : Prop :=
  ∀ level t, wf_json v → dumps_with newline_indent level v = Ret t →
    dumps_with folded_indent level v = Ret (refold t) ∧ wrapped (refold t)
    ∧ (json_size v ≤ length t)%nat.

(** The fields that the reader has stored when it reaches [X-IFAP]. *)
Definition fixed_fields (subject : str) : list (str * str) :=
  [(lit "To", rstrip_crlf (removelast (List.concat [lstrip (" .. <to@ifap.example>" ++ CRLF)])));
   (lit "From", rstrip_crlf (removelast (List.concat [lstrip (" .. <from@ifap.example>" ++ CRLF)])));
   (lit "Subject", rstrip_crlf (removelast (List.concat [lstrip (" " ++ subject ++ CRLF)])))].

(** ** The round trip, as the specification words it

    The message that [encode_object] returns for an object, fetched as
    [synchronize] fetches it and read as the scan reads it, names the
    path; what is left of its metadata once the keys ['_'] and ['fn'] are
    dropped is the metadata given, with the length of the payload under
    ['bytes']. *)
Definition round_trips (cfg : IFAP_Config) (file_path file_data : str)
    (metadata : option dict) : Prop :=
  ∃ eml mdata,
    encode_object cfg file_path file_data metadata = Ret eml
    ∧ parse_message py27 cfg (fetch_answer [eml] 1).2 = Ret (mdata, JStr file_path)
    ∧ ∀ k, dict_get k (strip_transport mdata) =
        if decide (k = lit "bytes") then Some (JInt (len file_data))
        else if decide (k = lit "_") then None
        else if decide (k = lit "fn") then None
        else dict_get k (default [] metadata).

(** The number of bytes of the message up to the end of the [X-IFAP]
    field, line end included. *)
Definition xifap_end (cfg : IFAP_Config) (file_path file_data : str)
    (metadata : option dict) : Z :=
  match encode_lines cfg file_path file_data metadata with
  | Ret lines => len (join CRLF (take 5 lines)) + 2
  | Raise _ => 0
  end.

(** With encryption on there is a Fernet object; it decrypts the tokens
    it makes whatever whitespace is put into them, as [base64] skips it,
    and its tokens do not start with a brace. *)
Definition fernet_ready (cfg : IFAP_Config) : Prop :=
  encrypt cfg = true →
  ∃ f, fernet cfg = Some f
    ∧ (∀ data token,
         remove_spaces token = remove_spaces (fernet_encrypt f data) →
         fernet_decrypt f token = Ret data)
    ∧ ∀ data, take 1 (remove_spaces (fernet_encrypt f data)) ≠ "{".

(** The configuration after [set_encryption_key('hunter2')]. *)
Definition toy_config : IFAP_Config :=
  config (set_encryption_key toy_crypto fresh "hunter2").

(** ** The order of two indexes *)

(** [T'] holds every path of [T], at the same sequence or a higher one. *)
Definition index_le (T T' : index) : Prop :=
  ∀ k s md, T !! k = Some (s, md) → ∃ s' md', T' !! k = Some (s', md') ∧ s ≤ s'.

(** An entry is as [T0] has it, or it is above what [T0] has, for a
    sequence of [l], without the two transport keys. *)
Definition entry_from (T0 : index) (l : list Z) (k : pykey) (s : Z) (md : dict) : Prop :=
  T0 !! k = Some (s, md)
  ∨ (latest_seq T0 k < s ∧ s ∈ l
     ∧ dict_get "_" md = None ∧ dict_get "fn" md = None).

(** ** mailfile.cli: the paths of the commands *)

(** [while path[:1] == '/': path = path[1:]] *)
Fixpoint drop_slashes (path : str) : str :=
  match path with
  | c :: r => if decide (c = "/"%char) then drop_slashes r else path
  | [] => []
  end.

(** [while path[-1:] == '/': path = path[:-1]] *)
Definition drop_end_slashes (path : str) : str := rev (drop_slashes (rev path)).

(** [s.replace('//', '/')]: the occurrences are taken from the left and
    do not overlap. *)
Fixpoint replace_slashes (s : str) : str :=
  match s with
  | a :: r =>
      match r with
      | b :: r' =>
          if decide (a = "/"%char ∧ b = "/"%char) then "/"%char :: replace_slashes r'
          else a :: replace_slashes r
      | [] => [a]
      end
  | [] => []
  end.

(** [_clean_path(path)] *)
Definition _clean_path (path : str) : str :=
  replace_slashes (drop_end_slashes (drop_slashes path)).

(** ** More example data *)

(** An engine made with [buffering=True]. *)
Definition buffered : IFAP :=
  IFAP_new {| buffering_max_bytes := 102400; buffering := true; encrypt := false;
              fernet := None; key := None |} "INBOX".

(** A path that is not UTF-8: the one byte 0xff. *)
Definition bad_path : str := Eval cbv in [chr 255].

(** An engine with a write staged under [bad_path]. *)
Definition staged_bad : IFAP :=
  set_unwritten {[bad_path := file_a]} 3 fresh.

(** * Properties *)

Section Synchronize.
Context {B : Type} (imap : IMAP B) (L : Reader).

Lemma synchronize_select_refused self b :
  (imap_select imap b (base_folder self)).1 ≠ OK →
  synchronize imap L self b =
    {| returned := Raise IOError; self' := self;
       backend' := (imap_select imap b (base_folder self)).2; printed := [] |}.
Proof.
  intros H. unfold synchronize.
  destruct (imap_select imap b (base_folder self)) as [status b1]; simpl in *.
  destruct (decide (OK ≠ status)) as [| n]; [done |].
  exfalso. apply n. congruence.
Qed.

Lemma synchronize_search_refused self b :
  (imap_select imap b (base_folder self)).1 = OK →
  (imap_search imap (imap_select imap b (base_folder self)).2).1.1 ≠ OK →
  synchronize imap L self b =
    {| returned := Raise IOError; self' := self;
       backend' := (imap_search imap (imap_select imap b (base_folder self)).2).2;
       printed := [] |}.
Proof.
  intros H1 H2. unfold synchronize.
  destruct (imap_select imap b (base_folder self)) as [status b1]; simpl in *.
  destruct (decide (OK ≠ status)); [congruence |].
  destruct (imap_search imap b1) as [[rv seqs] b2]; simpl in *.
  destruct (decide (rv ≠ OK)); [done | contradiction].
Qed.

(** C3. When [select] or, after it, [search] answers with a status other
    than OK, [synchronize] raises [IOError] and the engine, the index
    with it, is as it was before the call. *)
Theorem synchronize_io_error_leaves_index self b :
  (imap_select imap b (base_folder self)).1 ≠ OK
  ∨ (imap_search imap (imap_select imap b (base_folder self)).2).1.1 ≠ OK →
  returned (synchronize imap L self b) = Raise IOError
  ∧ self' (synchronize imap L self b) = self
  ∧ tree (self' (synchronize imap L self b)) = tree self.
Proof.
  intros H.
  destruct (decide ((imap_select imap b (base_folder self)).1 = OK)) as [Hsel | Hsel].
  - destruct H as [H | H]; [done |].
    by rewrite synchronize_search_refused.
  - by rewrite synchronize_select_refused.
Qed.

(** What one turn of the loop does with a message it cannot use. *)
Lemma process_fetch_failed cfg st seq rv data :
  rv ≠ OK → process L cfg st seq (rv, data) = Ret (add_broken seq st).
Proof. intros H. unfold process. by destruct (decide (rv ≠ OK)). Qed.

Lemma process_parse_failed cfg st seq data e :
  parse_message L cfg data = Raise e →
  process L cfg st seq (OK, data) =
    if handled e then Ret (add_broken seq st) else Raise e.
Proof.
  intros H. unfold process. destruct (decide (OK ≠ OK)); [done |]. by rewrite H.
Qed.

Lemma parse_message_none cfg data : parse_message L cfg (ItemNone :: data) = Raise TypeError.
Proof. reflexivity. Qed.

Lemma scan_cons cfg b st seq rest :
  seq ∉ s_to_delete st →
  scan imap L cfg b st (seq :: rest) =
    match process L cfg st seq (imap_fetch imap b seq).1 with
    | Ret st' => scan imap L cfg (imap_fetch imap b seq).2 st' rest
    | Raise e => (Raise e, (imap_fetch imap b seq).2, st)
    end.
Proof.
  intros H. simpl. destruct (decide (seq ∈ s_to_delete st)); [done |].
  by destruct (imap_fetch imap b seq).
Qed.

Lemma scan_skip cfg b st seq rest :
  seq ∈ s_to_delete st →
  scan imap L cfg b st (seq :: rest) = scan imap L cfg b st rest.
Proof. intros H. simpl. by destruct (decide (seq ∈ s_to_delete st)). Qed.

(** C2. A message whose fetch is answered [('OK', [None])] makes the
    [try] block raise [TypeError], which the [except] clause does not
    list: the scan stops there with that exception, the sequence is not
    classified broken and the remaining sequences are not read. *)
Theorem scan_type_error_escapes cfg b st seq rest data :
  seq ∉ s_to_delete st →
  (imap_fetch imap b seq).1 = (OK, ItemNone :: data) →
  scan imap L cfg b st (seq :: rest) = (Raise TypeError, (imap_fetch imap b seq).2, st).
Proof.
  intros Hd Hf. rewrite scan_cons by done. rewrite Hf.
  by rewrite (process_parse_failed _ _ _ _ TypeError).
Qed.

(** C6. A message at the reserved snapshot path changes neither the
    index nor the two sets: the scan prints a note and goes on with every
    lower sequence. *)
Theorem scan_snapshot_is_skipped cfg b st seq rest data metadata file_path :
  seq ∉ s_to_delete st →
  (imap_fetch imap b seq).1 = (OK, data) →
  parse_message L cfg data = Ret (metadata, file_path) →
  is_snapshot_path file_path = true →
  scan imap L cfg b st (seq :: rest) =
    scan imap L cfg (imap_fetch imap b seq).2
      {| s_tree := s_tree st; s_broken := s_broken st;
         s_to_delete := s_to_delete st; s_out := s_out st ++ [SnapshotAt seq] |}
      rest.
Proof.
  intros Hd Hf Hp Hs. rewrite scan_cons by done. rewrite Hf.
  unfold process. destruct (decide (OK ≠ OK)); [done |]. by rewrite Hp, Hs.
Qed.

End Synchronize.

(** ** The scan against fixed answers *)

Section FixedAnswers.
Context {B : Type} (imap : IMAP B) (L : Reader) (cfg : IFAP_Config).
Context (Inv : B → Prop) (ans : Z → str * list fetch_item).
Hypothesis fetch_fixed : ∀ b seq,
  Inv b → (imap_fetch imap b seq).1 = ans seq ∧ Inv (imap_fetch imap b seq).2.

Local Abbreviation covered := (covered L cfg ans).
Local Abbreviation readable := (readable L cfg).

Lemma readable_fun answer k k' : readable answer k → readable answer k' → k = k'.
Proof.
  intros (d & m & f & -> & Hp & _ & Hh) (d' & m' & f' & [= <-] & Hp' & _ & Hh').
  congruence.
Qed.

Lemma latest_seq_insert T k s md k' :
  latest_seq (<[k := (s, md)]> T) k' = if decide (k = k') then s else latest_seq T k'.
Proof.
  unfold latest_seq. rewrite lookup_insert. by destruct (decide (k = k')).
Qed.

Lemma covered_mono T T' s :
  (∀ k, latest_seq T k ≤ latest_seq T' k) → covered T s → covered T' s.
Proof. intros Hm Hc k Hr. specialize (Hc k Hr). specialize (Hm k). lia. Qed.

Local Abbreviation turn := (turn L cfg ans).

Lemma process_turn st seq : turn st seq (process L cfg st seq (ans seq)).
Proof.
  unfold process. destruct (ans seq) as [rv data] eqn:Hans.
  destruct (decide (rv ≠ OK)) as [Hrv | Hrv].
  { apply turn_keep; try done.
    - intros k Hr. rewrite Hans in Hr.
      destruct Hr as (d & m & f & [= -> ->] & _). done.
    - intros st2 _. unfold process. rewrite Hans.
      destruct (decide (rv ≠ OK)); [| done]. eexists. split; [reflexivity | done]. }
  destruct (parse_message L cfg data) as [[metadata file_path] | e] eqn:Hp.
  2: { destruct (handled e) eqn:He.
       - apply turn_keep; try done.
         + intros k Hr. rewrite Hans in Hr.
           destruct Hr as (d & m & f & [= _ <-] & Hp' & _). congruence.
         + intros st2 _. unfold process. rewrite Hans.
           destruct (decide (rv ≠ OK)); [done |]. rewrite Hp, He.
           eexists. split; [reflexivity | done].
       - apply turn_raise. intros st'. unfold process. rewrite Hans.
         destruct (decide (rv ≠ OK)); [done |]. by rewrite Hp, He. }
  destruct (is_snapshot_path file_path) eqn:Hs.
  { apply turn_keep; try done.
    - intros k Hr. rewrite Hans in Hr.
      destruct Hr as (d & m & f & [= _ <-] & Hp' & Hs' & _). congruence.
    - intros st2 _. unfold process. rewrite Hans.
      destruct (decide (rv ≠ OK)); [done |]. rewrite Hp, Hs.
      eexists. split; [reflexivity | done]. }
  destruct (py_hash file_path) as [k |] eqn:Hh.
  2: { apply turn_raise. intros st'. unfold process. rewrite Hans.
       destruct (decide (rv ≠ OK)); [done |]. by rewrite Hp, Hs, Hh. }
  assert (Hr : readable (rv, data) k).
  { exists data, metadata, file_path. repeat split; try done.
    f_equal. by destruct (decide (rv = OK)); [| contradiction Hrv]. }
  assert (Hagain : ∀ st2, covered (s_tree st2) seq →
     ∃ st2', process L cfg st2 seq (ans seq) = Ret st2'
             ∧ s_tree st2' = s_tree st2 ∧ s_to_delete st2' = s_to_delete st2).
  { intros st2 Hc. exists st2. split; [| done]. unfold process. rewrite Hans.
    destruct (decide (rv ≠ OK)); [done |]. rewrite Hp, Hs, Hh.
    specialize (Hc k). rewrite Hans in Hc. specialize (Hc Hr).
    destruct (latest_seq (s_tree st2) k >=? seq) eqn:Hge; [done | lia]. }
  destruct (latest_seq (s_tree st) k >=? seq) eqn:Hge.
  - apply turn_keep; try done.
    intros k' Hr'. rewrite Hans in Hr'. rewrite <- (readable_fun _ _ _ Hr Hr'). lia.
  - eapply (turn_update _ _ _ _ _ _ k); simpl; try done.
    + by rewrite Hans.
    + lia.
    + intros s. destruct (s_tree st !! k) as [[old md] |] eqn:Hk; [| by left].
      rewrite elem_of_union, elem_of_singleton. intros [-> | ?]; [right | by left].
      by exists k, md.
Qed.

Local Abbreviation scan_inv := (scan_inv L cfg ans).

Lemma turn_result st seq st' :
  turn st seq (Ret st') →
  (∀ k, latest_seq (s_tree st) k ≤ latest_seq (s_tree st') k)
  ∧ covered (s_tree st') seq
  ∧ (scan_inv st → scan_inv st')
  ∧ (index_sound L cfg ans (s_tree st) → index_sound L cfg ans (s_tree st')).
Proof.
  inversion 1 as [| ? Ht Hd Hc _ | ? k md Hr Hlt Ht Hd _]; subst.
  - repeat split.
    + intros k. rewrite Ht. lia.
    + by rewrite Ht.
    + intros Hi s Hs. rewrite Ht, Hd in Hs. rewrite Ht. by apply Hi.
    + intros Hi. by rewrite Ht.
  - assert (Hm : ∀ k', latest_seq (s_tree st) k' ≤ latest_seq (s_tree st') k').
    { intros k'. rewrite Ht, latest_seq_insert. destruct (decide (k = k')); subst; lia. }
    assert (Hc : covered (s_tree st') seq).
    { intros k' Hr'. rewrite <- (readable_fun _ _ _ Hr Hr').
      rewrite Ht, latest_seq_insert. destruct (decide (k = k)); [lia | done]. }
    repeat split; try done.
    + intros Hi s [(k' & md' & Hk') | Hs].
      * rewrite Ht, lookup_insert in Hk'. destruct (decide (k = k')).
        -- injection Hk' as <- <-. done.
        -- eapply covered_mono; [done |]. apply Hi. left. by exists k', md'.
      * eapply covered_mono; [done |]. apply Hi. destruct (Hd s Hs); auto.
    + intros Hi k' s md'. rewrite Ht, lookup_insert. destruct (decide (k = k')).
      * intros [= <- <-]. by subst.
      * apply Hi.
Qed.

Lemma scan_step b st seq rest :
  Inv b → seq ∉ s_to_delete st →
  scan imap L cfg b st (seq :: rest) =
    match process L cfg st seq (ans seq) with
    | Ret st' => scan imap L cfg (imap_fetch imap b seq).2 st' rest
    | Raise e => (Raise e, (imap_fetch imap b seq).2, st)
    end.
Proof.
  intros Hb Hd. rewrite scan_cons by done. by destruct (fetch_fixed b seq Hb) as [-> _].
Qed.

(** The scan keeps the invariant, never lowers an entry, and when it ends
    without an exception every sequence it was given is covered. *)
Lemma scan_covers seqs : ∀ b st,
  Inv b → scan_inv st →
  Inv (scan imap L cfg b st seqs).1.2
  ∧ scan_inv (scan imap L cfg b st seqs).2
  ∧ (∀ k, latest_seq (s_tree st) k ≤ latest_seq (s_tree (scan imap L cfg b st seqs).2) k)
  ∧ (index_sound L cfg ans (s_tree st) →
     index_sound L cfg ans (s_tree (scan imap L cfg b st seqs).2))
  ∧ ((scan imap L cfg b st seqs).1.1 = Ret () →
     ∀ s, s ∈ seqs → covered (s_tree (scan imap L cfg b st seqs).2) s).
Proof.
  induction seqs as [| seq rest IH]; intros b st Hb Hi.
  { simpl. repeat split; try done. intros _ s Hs. by apply elem_of_nil in Hs. }
  destruct (decide (seq ∈ s_to_delete st)) as [Hd | Hd].
  - rewrite scan_skip by done.
    destruct (IH b st Hb Hi) as (H1 & H2 & H3 & H4 & H5).
    repeat split; try done.
    intros Hr s [-> | Hs]%elem_of_cons; [| by apply H5].
    eapply covered_mono; [apply H3 |]. apply Hi. by right.
  - rewrite scan_step by done.
    pose proof (process_turn st seq) as Ht.
    destruct (fetch_fixed b seq Hb) as [_ Hb'].
    destruct (process L cfg st seq (ans seq)) as [st' | e].
    + destruct (turn_result _ _ _ Ht) as (Hm & Hc & Hi' & Hs').
      destruct (IH _ st' Hb' (Hi' Hi)) as (H1 & H2 & H3 & H4 & H5).
      repeat split; try done.
      * intros k. specialize (Hm k). specialize (H3 k). lia.
      * auto.
      * intros Hr s [-> | Hs]%elem_of_cons; [| by apply H5].
        eapply covered_mono; [apply H3 | done].
    + simpl. repeat split; try done.
Qed.

(** A second scan of the same sequences, started from the index the first
    one left and with nothing queued, leaves that index as it is. *)
Lemma scan_again seqs : ∀ b1 st1 b2 st2,
  Inv b1 → Inv b2 → scan_inv st1 →
  s_tree st2 = s_tree (scan imap L cfg b1 st1 seqs).2 →
  s_to_delete st2 = ∅ →
  s_tree (scan imap L cfg b2 st2 seqs).2 = s_tree st2.
Proof.
  induction seqs as [| seq rest IH]; intros b1 st1 b2 st2 Hb1 Hb2 Hi Ht Hd; [done |].
  assert (Hn : seq ∉ s_to_delete st2) by (rewrite Hd; set_solver).
  rewrite (scan_step b2) by done.
  destruct (fetch_fixed b2 seq Hb2) as [_ Hb2'].
  (* the second scan's turn at [seq], given that [seq] is covered *)
  assert (Hgo : covered (s_tree st2) seq →
    (∀ st2', s_tree st2' = s_tree st2 → s_to_delete st2' = ∅ →
       s_tree (scan imap L cfg (imap_fetch imap b2 seq).2 st2' rest).2 = s_tree st2') →
    s_tree (match process L cfg st2 seq (ans seq) with
            | Ret st' => scan imap L cfg (imap_fetch imap b2 seq).2 st' rest
            | Raise e => (Raise e, (imap_fetch imap b2 seq).2, st2)
            end).2 = s_tree st2).
  { intros Hc Hrest. pose proof (process_turn st2 seq) as Ht2.
    destruct (process L cfg st2 seq (ans seq)) as [st2' | e]; [| done].
    inversion Ht2 as [| ? Ht' Hd' _ _ | ? k md Hr Hlt _ _ _]; subst.
    - rewrite Hrest; congruence.
    - specialize (Hc k Hr). lia. }
  destruct (decide (seq ∈ s_to_delete st1)) as [Hd1 | Hd1].
  - rewrite scan_skip in Ht by done.
    destruct (scan_covers rest b1 st1 Hb1 Hi) as (_ & _ & Hm & _).
    apply Hgo.
    + rewrite Ht. eapply covered_mono; [apply Hm |]. apply Hi. by right.
    + intros st2' Ht' Hd'. apply (IH b1 st1); try done. congruence.
  - rewrite (scan_step b1) in Ht by done.
    pose proof (process_turn st1 seq) as Ht1.
    destruct (fetch_fixed b1 seq Hb1) as [_ Hb1'].
    destruct (process L cfg st1 seq (ans seq)) as [st1' | e] eqn:Hp1.
    + destruct (turn_result _ _ _ Ht1) as (_ & Hc & Hi' & _).
      destruct (scan_covers rest _ st1' Hb1' (Hi' Hi)) as (_ & _ & Hm & _).
      apply Hgo.
      * rewrite Ht. eapply covered_mono; [apply Hm | done].
      * intros st2' Ht' Hd'.
        apply (IH (imap_fetch imap b1 seq).2 st1'); auto. congruence.
    + inversion Ht1 as [? Hall | |]; subst. by rewrite Hall.
Qed.

End FixedAnswers.

(** ** Decimal numbers *)

Lemma code_chr z : 0 ≤ z < 256 → code (chr z) = z.
Proof.
  intros H. unfold code, chr. rewrite N_ascii_embedding; lia.
Qed.

Lemma is_space_digit d : 0 ≤ d < 10 → is_space (digit_char d) = false.
Proof. intros H. unfold is_space, digit_char. rewrite code_chr by lia. lia. Qed.

Lemma is_digit_digit d : 0 ≤ d < 10 → is_digit (digit_char d) = true.
Proof. intros H. unfold is_digit, digit_char. rewrite code_chr by lia. lia. Qed.

Lemma code_digit d : 0 ≤ d < 10 → code (digit_char d) = 48 + d.
Proof. intros H. unfold digit_char. rewrite code_chr; lia. Qed.

(** [digits_acc] puts a non-empty run of digits, without a leading zero
    unless the number is a single digit, in front of [acc]; read back, it
    adds [n] to the value read so far. *)
Lemma digits_acc_spec fuel : ∀ n acc,
  0 ≤ n → (Z.to_nat n < fuel)%nat →
  ∃ d ds p,
    digits_acc fuel n acc = d :: ds ++ acc
    ∧ Forall (λ c, is_digit c = true) (d :: ds)
    ∧ (d = "0"%char → n = 0 ∧ ds = [])
    ∧ 0 < p
    ∧ ∀ a rest, digits_value a (d :: ds ++ rest) = digits_value (a * p + n) rest.
Proof.
  induction fuel as [| f IH]; intros n acc Hn Hf; [lia |].
  simpl. destruct (n <? 10) eqn:Hlt.
  - assert (n mod 10 = n) as -> by (apply Z.mod_small; lia).
    exists (digit_char n), [], 10.
    split; [done |]. split; [| split; [| split]].
    + repeat constructor. apply is_digit_digit. lia.
    + intros Hd0. apply (f_equal code) in Hd0. rewrite code_digit in Hd0 by lia.
      change (code "0"%char) with 48 in Hd0. split; [lia | done].
    + lia.
    + intros a rest. simpl. rewrite is_digit_digit, code_digit by lia.
      f_equal. lia.
  - assert (Hq : 0 < n / 10) by (apply Z.div_str_pos; lia).
    assert (Hq2 : n / 10 < n) by (apply Z.div_lt; lia).
    destruct (IH (n / 10) (digit_char (n mod 10) :: acc))
      as (d & ds & p & He & Hd & Hz & Hp & Hv); [lia | lia |].
    pose proof (Z.mod_pos_bound n 10 ltac:(lia)) as Hm.
    exists d, (ds ++ [digit_char (n mod 10)]), (10 * p).
    split; [| split; [| split; [| split]]].
    + rewrite He. by rewrite <- app_assoc.
    + rewrite app_comm_cons. apply Forall_app. split; [done |].
      repeat constructor. by apply is_digit_digit.
    + intros Hd0. destruct (Hz Hd0). lia.
    + lia.
    + intros a rest. rewrite <- app_assoc.
      specialize (Hv a (digit_char (n mod 10) :: rest)).
      simpl in Hv |- *. rewrite Hv.
      rewrite is_digit_digit, code_digit by lia. f_equal.
      pose proof (Z.div_mod n 10 ltac:(lia)). lia.
Qed.

Lemma digits_spec n acc :
  0 ≤ n →
  ∃ d ds p,
    digits n ++ acc = d :: ds ++ acc
    ∧ Forall (λ c, is_digit c = true) (d :: ds)
    ∧ (d = "0"%char → n = 0 ∧ ds = [])
    ∧ 0 < p
    ∧ ∀ a rest, digits_value a (d :: ds ++ rest) = digits_value (a * p + n) rest.
Proof.
  intros Hn. unfold digits.
  destruct (digits_acc_spec (S (Z.to_nat n)) n [] Hn ltac:(lia))
    as (d & ds & p & He & H).
  exists d, ds, p. split; [| done]. rewrite He. by rewrite app_nil_r.
Qed.

Lemma lstrip_not_space c s : is_space c = false → lstrip (c :: s) = c :: s.
Proof. intros H. simpl. by rewrite H. Qed.

Lemma is_space_of_digit c : is_digit c = true → is_space c = false.
Proof. unfold is_digit, is_space. lia. Qed.

Lemma strip_digits s :
  s ≠ [] → Forall (λ c, is_digit c = true) s → strip s = s.
Proof.
  intros Hne Hd. unfold strip, rstrip.
  destruct s as [| c s]; [done |].
  rewrite lstrip_not_space by (apply is_space_of_digit; by inversion Hd).
  destruct (rev (c :: s)) as [| x r] eqn:Hr.
  { apply (f_equal length) in Hr. by rewrite length_rev in Hr. }
  rewrite lstrip_not_space.
  - rewrite <- Hr. apply rev_involutive.
  - apply is_space_of_digit. rewrite Forall_forall in Hd. apply Hd.
    apply list_elem_of_In. apply in_rev. rewrite Hr. by left.
Qed.

Lemma py_int_py_str z : 0 ≤ z → py_int (py_str z) = Some z.
Proof.
  intros Hz. unfold py_str. destruct (z <? 0) eqn:Hlt; [lia |].
  destruct (digits_spec z [] Hz) as (d & ds & p & He & Hd & _ & _ & Hv).
  rewrite !app_nil_r in He. unfold py_int. rewrite He, strip_digits by done.
  assert (Hdd : is_digit d = true) by (by inversion Hd).
  destruct (decide (d = "-"%char)) as [-> | _]; [done |].
  destruct (decide (d = "+"%char)) as [-> | _]; [done |].
  specialize (Hv 0 []). rewrite app_nil_r in Hv. rewrite Hv. simpl. f_equal; lia.
Qed.

Lemma py_str_no_sep z : 0 ≤ z → " "%char ∉ py_str z.
Proof.
  intros Hz. unfold py_str. destruct (z <? 0) eqn:Hlt; [lia |].
  destruct (digits_spec z [] Hz) as (d & ds & p & He & Hd & _).
  rewrite !app_nil_r in He. rewrite He. intros Hin.
  rewrite Forall_forall in Hd. by specialize (Hd _ Hin).
Qed.

Lemma split_on_no_sep sep s : sep ∉ s → split_on sep s = [s].
Proof.
  induction s as [| c s IH]; [done |]. intros Hn. simpl.
  destruct (decide (c = sep)) as [-> | _]; [set_solver |].
  rewrite IH by set_solver. done.
Qed.

Lemma split_on_app sep s t :
  sep ∉ s → split_on sep (s ++ sep :: t) = s :: split_on sep t.
Proof.
  induction s as [| c s IH]; intros Hn; simpl.
  - by destruct (decide (sep = sep)).
  - destruct (decide (c = sep)) as [-> | _]; [set_solver |].
    rewrite IH by set_solver. done.
Qed.

Lemma split_join sep parts :
  parts ≠ [] → Forall (λ p, sep ∉ p) parts →
  split_on sep (join [sep] parts) = parts.
Proof.
  induction parts as [| p ps IH]; [done |]. intros _ Hf.
  inversion Hf as [| ? ? Hp Hps]; subst.
  destruct ps as [| q ps]; [by apply split_on_no_sep |].
  change (join [sep] (p :: q :: ps)) with (p ++ sep :: join [sep] (q :: ps)).
  rewrite split_on_app by done. by rewrite IH.
Qed.

Lemma seq_numbers_pos msgs s : s ∈ seq_numbers msgs ↔ 1 ≤ s ≤ Z.of_nat (List.length msgs).
Proof.
  unfold seq_numbers. rewrite list_elem_of_fmap. split.
  - intros (i & -> & Hi). apply list_elem_of_In, in_seq in Hi. lia.
  - intros H. exists (Z.to_nat (s - 1)). split; [lia |].
    apply list_elem_of_In, in_seq. lia.
Qed.

Lemma message_at_Some msgs s :
  is_Some (message_at msgs s) ↔ 1 ≤ s ≤ Z.of_nat (List.length msgs).
Proof.
  unfold message_at. destruct (1 <=? s) eqn:H1.
  - rewrite lookup_lt_is_Some. lia.
  - split; [by intros [? ?] | lia].
Qed.

(** The answer of [search] reads back as the numbers of the folder. *)
Lemma parse_seqs_folder msgs :
  msgs ≠ [] →
  parse_seqs (join " " (py_str <$> seq_numbers msgs)) = Some (seq_numbers msgs).
Proof.
  intros Hne. unfold parse_seqs.
  change (lit " ") with [" "%char].
  rewrite split_join.
  - apply mapM_Some. apply Forall2_fmap_l, Forall_Forall2_diag.
    apply Forall_forall. intros s Hs%seq_numbers_pos. apply py_int_py_str. lia.
  - destruct msgs; [done |]. done.
  - apply Forall_fmap, Forall_forall. intros s Hs%seq_numbers_pos.
    apply py_str_no_sep. lia.
Qed.

(** ** synchronize on a folder *)

Section Folder.
Context (L : Reader).

Lemma folder_fetch_fixed msgs b seq :
  messages b = msgs →
  (imap_fetch folder_imap b seq).1 = fetch_answer msgs seq
  ∧ messages (imap_fetch folder_imap b seq).2 = msgs.
Proof. by intros <-. Qed.

Lemma scan_messages cfg seqs : ∀ b st,
  messages (scan folder_imap L cfg b st seqs).1.2 = messages b.
Proof.
  induction seqs as [| seq rest IH]; intros b st; [done |].
  simpl. destruct (decide (seq ∈ s_to_delete st)); [apply IH |].
  destruct (process L cfg st seq (fetch_answer (messages b) seq)); [| done].
  by rewrite IH.
Qed.

(** The index, the configuration and the messages after [synchronize]. *)
Lemma synchronize_folder self b :
  let r := synchronize folder_imap L self b in
  config (self' r) = config self
  ∧ messages (backend' r) = messages b
  ∧ match parse_seqs (join " " (py_str <$> seq_numbers (messages b))) with
    | None => returned r = Raise ValueError ∧ tree (self' r) = tree self
    | Some l =>
        let res := scan folder_imap L (config self) b (scan_start self)
                     (rev (py_sorted l)) in
        returned r = res.1.1 ∧ tree (self' r) = s_tree res.2
    end.
Proof.
  unfold synchronize. simpl.
  destruct (decide (OK ≠ OK)) as [? | _]; [done |].
  destruct (decide (OK ≠ OK)) as [? | _]; [done |].
  destruct (parse_seqs _) as [l |]; [| done].
  pose proof (scan_messages (config self) (rev (py_sorted l)) b (scan_start self)) as Hm.
  destruct (scan folder_imap L (config self) b (scan_start self) (rev (py_sorted l)))
    as [[r b'] st]. simpl in *.
  by destruct r as [[] | e].
Qed.

Lemma scan_start_inv self b :
  index_fits L (config self) (fetch_answer (messages b)) (tree self) →
  scan_inv L (config self) (fetch_answer (messages b)) (scan_start self).
Proof. intros Hf s [Hr | Hs]; [by apply Hf | set_solver]. Qed.

(** C5. When the index fits the folder, a second [synchronize] on the
    same folder leaves the index the first one produced. *)
Theorem synchronize_twice self b :
  index_fits L (config self) (fetch_answer (messages b)) (tree self) →
  let r1 := synchronize folder_imap L self b in
  let r2 := synchronize folder_imap L (self' r1) (backend' r1) in
  tree (self' r2) = tree (self' r1).
Proof.
  intros Hf r1 r2.
  destruct (synchronize_folder self b) as (Hc1 & Hm1 & H1).
  destruct (synchronize_folder (self' r1) (backend' r1)) as (_ & _ & H2).
  fold r1 in Hc1, Hm1, H1. fold r2 in H2. rewrite Hm1, Hc1 in H2.
  destruct (parse_seqs _) as [l |].
  - destruct H1 as [_ H1], H2 as [_ H2]. rewrite H2.
    apply (scan_again folder_imap L (config self)
             (λ b', messages b' = messages b) (fetch_answer (messages b))
             (λ b' seq H, folder_fetch_fixed (messages b) b' seq H)
             (rev (py_sorted l)) b (scan_start self)
             (backend' r1) (scan_start (self' r1)));
      try done.
    by apply scan_start_inv.
  - destruct H1 as [_ H1], H2 as [_ H2]. congruence.
Qed.

End Folder.

(** ** Appends and synchronizations *)

Section Sessions.
Context (L : Reader) (cfg : IFAP_Config).

Local Abbreviation ans := fetch_answer.

Lemma readable_message_at msgs s k :
  readable L cfg (ans msgs s) k → is_Some (message_at msgs s).
Proof.
  intros (d & m & f & Ha & Hp & _). unfold fetch_answer in Ha.
  destruct (message_at msgs s); [done |].
  injection Ha as <-. by rewrite parse_message_none in Hp.
Qed.

Lemma fetch_answer_app msgs eml s :
  is_Some (message_at msgs s) → ans (msgs ++ [eml]) s = ans msgs s.
Proof.
  intros [m Hm]. unfold fetch_answer. rewrite Hm. unfold message_at in *.
  destruct (1 <=? s); [| done]. by rewrite (lookup_app_l_Some _ _ _ _ Hm).
Qed.

Lemma index_sound_app msgs eml T :
  index_sound L cfg (ans msgs) T → index_sound L cfg (ans (msgs ++ [eml])) T.
Proof.
  intros Hs k s md Hk. specialize (Hs k s md Hk).
  rewrite fetch_answer_app; [done |]. by eapply readable_message_at.
Qed.

Lemma index_sound_fits a T : index_sound L cfg a T → index_fits L cfg a T.
Proof.
  intros Hs s (k & md & Hk) k' Hr.
  rewrite <- (readable_fun L cfg _ _ _ (Hs k s md Hk) Hr).
  unfold latest_seq. rewrite Hk. lia.
Qed.

Lemma is_snapshot_path_hash f f' k :
  py_hash f = Some k → py_hash f' = Some k → is_snapshot_path f = is_snapshot_path f'.
Proof.
  destruct f, f'; intros; simplify_eq/=; done.
Qed.

Local Abbreviation session_inv := (session_inv L cfg).

Lemma synchronize_sound self b :
  config self = cfg →
  index_sound L cfg (ans (messages b)) (tree self) →
  let r := synchronize folder_imap L self b in
  index_sound L cfg (ans (messages b)) (tree (self' r))
  ∧ (returned r = Ret () →
     ∀ s, is_Some (message_at (messages b) s) →
          covered L cfg (ans (messages b)) (tree (self' r)) s).
Proof.
  intros Hcfg Hs r.
  destruct (synchronize_folder L self b) as (_ & _ & H). fold r in H.
  destruct (decide (messages b = [])) as [He | Hne].
  { rewrite He in H. destruct H as [Hr Ht]. rewrite Ht. split; [done |].
    rewrite Hr. done. }
  rewrite parse_seqs_folder in H by done. destruct H as [Hr Ht].
  rewrite Hcfg in *.
  destruct (scan_covers folder_imap L cfg
              (λ b', messages b' = messages b) (ans (messages b))
              (λ b' seq H, folder_fetch_fixed (messages b) b' seq H)
              (rev (py_sorted (seq_numbers (messages b)))) b (scan_start self) eq_refl)
    as (_ & _ & _ & H4 & H5).
  { rewrite <- Hcfg. apply scan_start_inv. rewrite Hcfg. by apply index_sound_fits. }
  rewrite Ht. split; [by apply H4 |].
  intros Hret s Hm. apply H5; [congruence |].
  rewrite list_elem_of_In, <- in_rev, <- list_elem_of_In.
  unfold py_sorted. rewrite merge_sort_Permutation.
  by apply seq_numbers_pos, message_at_Some.
Qed.

Lemma run_op_inv st o : session_inv st → session_inv (run_op L st o).
Proof.
  destruct st as [[self b] r]. intros [Hc Hs]. simpl in *.
  destruct o as [eml |]; simpl.
  - split; [done |]. by apply index_sound_app.
  - destruct (synchronize_folder L self b) as (Hc' & Hm' & _).
    split; simpl; [congruence |]. rewrite Hm'. by apply synchronize_sound.
Qed.

Lemma run_inv ops self b :
  config self = cfg → tree self = ∅ → session_inv (run L ops self b).
Proof.
  intros Hc Ht. unfold run.
  assert (Hi : session_inv (self, b, Ret ())).
  { split; [done |]. simpl. rewrite Ht. intros k s md Hk. by rewrite lookup_empty in Hk. }
  revert Hi. generalize (self, b, Ret () : result unit). clear.
  induction ops as [| o ops IH]; intros st Hi; [done |].
  simpl. apply IH. by apply run_op_inv.
Qed.

(** C1. After appends and synchronizations on a folder, started with an
    empty index and ended by a [synchronize] that returns, the sequence
    the index records for a path is the highest among the messages that
    parse and name the path, tombstones included. *)
Theorem index_records_latest ops self b st :
  config self = cfg → tree self = ∅ →
  st = run L (ops ++ [Synchronize]) self b →
  st.2 = Ret () →
  records_latest (names L cfg (messages st.1.2)) (tree st.1.1).
Proof.
  intros Hc Ht -> Hret. unfold run in *. rewrite fold_left_app in *. simpl in *.
  pose proof (run_inv ops self b Hc Ht) as [Hc1 Hs1]. unfold run in *.
  destruct (fold_left (run_op L) ops (self, b, Ret ())) as [[self1 b1] r1].
  simpl in *.
  destruct (synchronize_folder L self1 b1) as (_ & Hm & _).
  destruct (synchronize_sound self1 b1 Hc1 Hs1) as [Hsound Hcov].
  rewrite Hm. intros k s md Hk.
  pose proof (Hsound k s md Hk) as Hr.
  split.
  - pose proof (readable_message_at _ _ _ Hr) as Hsome.
    destruct Hr as (d & m & f & Ha & Hp & _ & Hh). exists m, f.
    split; [done |]. by rewrite Ha.
  - intros s' (m' & f' & Hsome & Hp' & Hh').
    assert (Hr' : readable L cfg (ans (messages b1) s') k).
    { destruct Hr as (d & m & f & _ & _ & Hsn & Hh).
      unfold fetch_answer in *. destruct Hsome as [x Hx]. rewrite Hx in *.
      eexists _, m', f'. repeat split; try done.
      by rewrite (is_snapshot_path_hash f' f k). }
    specialize (Hcov Hret s' Hsome k Hr'). unfold latest_seq in Hcov.
    by rewrite Hk in Hcov.
Qed.

End Sessions.

(** ** The properties on example folders *)

Lemma synchronize_io_error_leaves_index_witness :
  ((imap_select refusing_imap () (base_folder seeded)).1 ≠ OK
   ∨ (imap_search refusing_imap
        (imap_select refusing_imap () (base_folder seeded)).2).1.1 ≠ OK)
  ∧ returned (synchronize refusing_imap py27 seeded ()) = Raise IOError
  ∧ self' (synchronize refusing_imap py27 seeded ()) = seeded
  ∧ tree (self' (synchronize refusing_imap py27 seeded ())) = tree seeded.
Proof.
  assert (H : (imap_select refusing_imap () (base_folder seeded)).1 ≠ OK) by done.
  split; [left; exact H |].
  exact (synchronize_io_error_leaves_index refusing_imap py27 seeded () (or_introl H)).
Defined.

Lemma scan_type_error_escapes_witness :
  (1 ∉ s_to_delete (scan_start fresh))
  ∧ (imap_fetch vanished_imap () 1).1 = (OK, [ItemNone])
  ∧ scan vanished_imap py27 default_config () (scan_start fresh) [1]
    = (Raise TypeError, (imap_fetch vanished_imap () 1).2, scan_start fresh).
Proof.
  assert (H : 1 ∉ s_to_delete (scan_start fresh)) by set_solver.
  split; [exact H |]. split; [reflexivity |].
  exact (scan_type_error_escapes vanished_imap py27 default_config ()
           (scan_start fresh) 1 [] [] H eq_refl).
Defined.

(** With [imaplib]'s answer for a message that is gone, [synchronize]
    itself ends with [TypeError]. *)
Lemma synchronize_vanished :
  returned (synchronize vanished_imap py27 fresh ()) = Raise TypeError.
Proof. reflexivity. Qed.

Lemma scan_snapshot_is_skipped_witness :
  let b := folder_of [eml_a; eml_snapshot] in
  let data := (fetch_answer [eml_a; eml_snapshot] 2).2 in
  let metadata := [(lit "fn", JStr _SNAPSHOT_FILE_PATH); (lit "bytes", JInt 2);
                   (lit "snap", JInt 1)] in
  (2 ∉ s_to_delete (scan_start fresh))
  ∧ (imap_fetch folder_imap b 2).1 = (OK, data)
  ∧ parse_message py27 default_config data = Ret (metadata, JStr _SNAPSHOT_FILE_PATH)
  ∧ is_snapshot_path (JStr _SNAPSHOT_FILE_PATH) = true
  ∧ scan folder_imap py27 default_config b (scan_start fresh) [2; 1]
    = scan folder_imap py27 default_config (imap_fetch folder_imap b 2).2
        {| s_tree := ∅; s_broken := ∅; s_to_delete := ∅; s_out := [SnapshotAt 2] |}
        [1].
Proof.
  intros b data metadata.
  assert (H1 : 2 ∉ s_to_delete (scan_start fresh)) by set_solver.
  assert (H2 : (imap_fetch folder_imap b 2).1 = (OK, data)) by reflexivity.
  assert (H3 : parse_message py27 default_config data
               = Ret (metadata, JStr _SNAPSHOT_FILE_PATH)) by (vm_compute; reflexivity).
  assert (H4 : is_snapshot_path (JStr _SNAPSHOT_FILE_PATH) = true) by reflexivity.
  split; [exact H1 |]. split; [exact H2 |]. split; [exact H3 |]. split; [exact H4 |].
  exact (scan_snapshot_is_skipped folder_imap py27 default_config b
           (scan_start fresh) 2 [1] data metadata _ H1 H2 H3 H4).
Defined.

(** The folder [a; snapshot covering 1]: the scan reads sequence 1 after
    the snapshot at 2, so the snapshot was not adopted. *)
Lemma snapshot_not_adopted : ¬ adopts_snapshots py27 snap_highwater.
Proof.
  intros H.
  destruct (H fresh [eml_a; eml_snapshot] 2
              [(lit "fn", JStr _SNAPSHOT_FILE_PATH); (lit "bytes", JInt 2);
               (lit "snap", JInt 1)]
              (JStr _SNAPSHOT_FILE_PATH)) as [Hlog _].
  - vm_compute. reflexivity.
  - reflexivity.
  - vm_compute. reflexivity.
  - reflexivity.
  - apply (Hlog 1); [lia | vm_compute; discriminate |].
    assert (Hl : fetch_log (backend' (synchronize folder_imap py27 fresh
                      (folder_of [eml_a; eml_snapshot]))) = [2; 1])
      by (vm_compute; reflexivity).
    rewrite Hl. set_solver.
Qed.

Lemma synchronize_twice_witness :
  let b := folder_of [eml_a; eml_b; eml_a_tombstone] in
  let r1 := synchronize folder_imap py27 fresh b in
  let r2 := synchronize folder_imap py27 (self' r1) (backend' r1) in
  index_fits py27 (config fresh) (fetch_answer (messages b)) (tree fresh)
  ∧ tree (self' r2) = tree (self' r1).
Proof.
  intros b r1 r2.
  assert (H : index_fits py27 (config fresh) (fetch_answer (messages b)) (tree fresh)).
  { intros s (k & md & Hk). exfalso. exact (lookup_empty_Some (M := gmap pykey) k (s, md) Hk). }
  split; [exact H |]. exact (synchronize_twice py27 fresh b H).
Defined.

(** An index that does not fit: it holds [a] at sequence 1, where the
    folder has a message for [b]; the first [synchronize] queues 1 for
    deletion and skips it, the second one reads it and adds [b]. *)
Lemma synchronize_twice_differs :
  let b := folder_of [eml_b; eml_a] in
  let r1 := synchronize folder_imap py27 seeded b in
  let r2 := synchronize folder_imap py27 (self' r1) (backend' r1) in
  tree (self' r2) ≠ tree (self' r1).
Proof.
  intros b r1 r2 H.
  apply (f_equal (λ t, latest_seq t (KStr "b"))) in H.
  vm_compute in H. discriminate.
Qed.

Lemma index_records_latest_witness :
  let st := run py27 ([Append eml_a; Append eml_a_tombstone; Append eml_b]
                      ++ [Synchronize]) fresh (folder_of []) in
  config fresh = default_config
  ∧ tree fresh = ∅
  ∧ st.2 = Ret ()
  ∧ records_latest (names py27 default_config (messages st.1.2)) (tree st.1.1).
Proof.
  intros st.
  assert (H : st.2 = Ret ()) by (vm_compute; reflexivity).
  split; [reflexivity |]. split; [reflexivity |]. split; [exact H |].
  exact (index_records_latest py27 default_config
           [Append eml_a; Append eml_a_tombstone; Append eml_b]
           fresh (folder_of []) st eq_refl eq_refl eq_refl H).
Defined.

(** A tombstone is recorded like any other message: with [a] written at 1
    and its tombstone at 2, the index holds [a] at 2, which is not a
    message that is no tombstone. *)
Lemma index_records_tombstone :
  let st := run py27 [Append eml_a; Append eml_a_tombstone; Synchronize]
              fresh (folder_of []) in
  st.2 = Ret ()
  ∧ ¬ records_latest (names_live py27 default_config (messages st.1.2)) (tree st.1.1).
Proof.
  intros st. split; [vm_compute; reflexivity |]. intros H.
  destruct (H (KStr "a") 2 [(lit "bytes", JInt 0); (lit "del", JBool true)])
    as [(m & f & _ & Hp & _ & Hd) _].
  - vm_compute. reflexivity.
  - vm_compute in Hp. injection Hp as <- <-. by apply Hd.
Qed.

(** ** open *)

Lemma IFAP_File_init_raises file_path mode metadata contents :
  IFAP_File_init file_path mode metadata contents = Raise NameError.
Proof. reflexivity. Qed.

(** C10. [open] never returns a file: whatever the path and the mode, the
    constructor of [IFAP_File] reads the undefined name [_file_path] and
    [NameError] leaves [open]. *)
Theorem open_raises_NameError self file_path mode :
  (open self file_path mode).1 = Raise NameError.
Proof.
  unfold open.
  destruct (bool_decide _ || bool_decide _); [| done].
  by destruct (unwritten self !! file_path).
Qed.

(** ** flush *)

Section Flush.
Context {B : Type} (imap : IMAP B).

Lemma staged_size_delete u path f :
  u !! path = Some f → staged_size (delete path u) = staged_size u - len (f_value f).
Proof.
  intros H. unfold staged_size.
  rewrite (map_fold_delete_L _ _ path f u); [lia | | done].
  intros. lia.
Qed.

(** What the loop leaves: it returns, the entries outside [keys] are as
    they were, an entry of [keys] is gone when its append was answered OK
    and is still staged, with a line printed, when it was not; the byte
    counter goes down by the sizes of the entries that are gone. *)
Lemma flush_loop_spec keys : ∀ self b out,
  NoDup keys →
  (∀ path, path ∈ keys → is_Some (unwritten self !! path)) →
  encodes self →
  let r := flush_loop imap keys self b out in
  returned r = Ret ()
  ∧ config (self' r) = config self
  ∧ base_folder (self' r) = base_folder self
  ∧ (∀ path, path ∉ keys → unwritten (self' r) !! path = unwritten self !! path)
  ∧ (∀ path f, path ∈ keys → unwritten self !! path = Some f →
       ∃ b0 eml,
         encode_object (config self) path (f_value f) None = Ret eml
         ∧ let a := (imap_append imap b0 (base_folder self) eml).1 in
           (a.1 = OK ∧ unwritten (self' r) !! path = None)
           ∨ (a.1 ≠ OK ∧ unwritten (self' r) !! path = Some f
              ∧ Failed a.2 ∈ printed r))
  ∧ unwritten_bytes (self' r) - staged_size (unwritten (self' r))
    = unwritten_bytes self - staged_size (unwritten self)
  ∧ (∀ o, o ∈ out → o ∈ printed r).
Proof.
  induction keys as [| path rest IH]; intros self b out Hnd Hin Henc.
  { simpl. repeat split; try done. intros p f Hp. by apply elem_of_nil in Hp. }
  apply NoDup_cons in Hnd as [Hnotin Hnd].
  destruct (Hin path) as [f Hf]; [by left |].
  destruct (Henc path f Hf) as [eml He].
  simpl. rewrite Hf, He.
  destruct (imap_append imap b (base_folder self) eml) as [[rv d] b'] eqn:Ha.
  destruct (decide (rv = OK)) as [Hok | Hno].
  - set (self1 := set_unwritten (delete path (unwritten self))
                    (unwritten_bytes self - len (f_value f)) self).
    destruct (IH self1 b' out Hnd) as (H1 & H2 & H3 & H4 & H5 & H6 & H7).
    { intros p Hp. simpl. rewrite lookup_delete_ne; [apply Hin; by right |].
      intros ->. done. }
    { intros p g Hp. simpl in *. apply lookup_delete_Some in Hp as [_ Hp].
      by apply Henc. }
    split; [done |]. split; [done |]. split; [done |].
    split; [| split; [| split]]; try done.
    + intros p [Hne Hp]%not_elem_of_cons. rewrite H4 by done. simpl.
      by apply lookup_delete_ne.
    + intros p g [-> | Hp]%elem_of_cons Hg.
      * exists b, eml. rewrite Hf in Hg. injection Hg as <-. split; [done |].
        rewrite Ha. left. split; [done |]. rewrite H4 by done. simpl.
        apply lookup_delete_eq.
      * assert (p ≠ path) by (intros ->; done).
        apply (H5 p g Hp). simpl. by rewrite lookup_delete_ne.
    + rewrite H6. simpl. rewrite (staged_size_delete _ _ f) by done. lia.
  - destruct (IH self b' (out ++ [Failed d]) Hnd) as (H1 & H2 & H3 & H4 & H5 & H6 & H7).
    { intros p Hp. apply Hin. by right. }
    { done. }
    split; [done |]. split; [done |]. split; [done |].
    split; [| split; [| split]]; try done.
    + intros p [_ Hp]%not_elem_of_cons. by apply H4.
    + intros p g [-> | Hp]%elem_of_cons Hg.
      * exists b, eml. rewrite Hf in Hg. injection Hg as <-. split; [done |].
        rewrite Ha. right. split; [done |]. split; [by rewrite H4 |].
        apply H7, elem_of_app. right. constructor.
      * by apply H5.
    + intros o Ho. apply H7, elem_of_app. by left.
Qed.



Lemma flush_frame keys : ∀ self b out,
  let r := flush_loop imap keys self b out in
  config (self' r) = config self ∧ sstack (self' r) = sstack self
  ∧ tree (self' r) = tree self.
Proof.
  induction keys as [| path rest IH]; intros self b out; [done |].
  simpl. destruct (unwritten self !! path) as [f |]; [| done].
  destruct (encode_object _ _ _ _); [| done].
  destruct (imap_append imap b (base_folder self) a) as [[rv d] b'].
  destruct (decide (rv = OK)); [| apply IH].
  destruct (IH (set_unwritten (delete path (unwritten self))
                  (unwritten_bytes self - len (f_value f)) self) b' out)
    as (? & ? & ?).
  done.
Qed.

End Flush.

Lemma encodes_staged : encodes staged.
Proof.
  intros path f Hp. change (unwritten staged) with ({[lit "a" := file_a]} : gmap str IFAP_File) in Hp.
  apply lookup_singleton_Some in Hp as [<- <-].
  eexists. vm_compute. reflexivity.
Qed.



(** ** set_encryption_key and the scoped session *)

Section Session.
Context {B : Type} (imap : IMAP B) (L : Reader) (C : Crypto).

Lemma synchronize_frame self b :
  let r := synchronize imap L self b in
  config (self' r) = config self ∧ sstack (self' r) = sstack self
  ∧ unwritten (self' r) = unwritten self.
Proof.
  unfold synchronize.
  destruct (imap_select imap b (base_folder self)) as [status b1].
  destruct (decide (OK ≠ status)); [done |].
  destruct (imap_search imap b1) as [[rv seqs] b2].
  destruct (decide (rv ≠ OK)); [done |].
  destruct (parse_seqs seqs) as [l |]; [| done].
  destruct (scan imap L (config self) b2 (scan_start self) (rev (py_sorted l)))
    as [[r b3] st].
  by destruct r.
Qed.

Lemma and_then_config (a : outcome) (k : IFAP → B → outcome) :
  (∀ s b', config (self' (k s b')) = config s) →
  config (self' (and_then a k)) = config (self' a).
Proof.
  intros Hk. unfold and_then. destruct (returned a); [| done]. simpl. apply Hk.
Qed.

Lemma _maybe_flush_config self b :
  config (self' (_maybe_flush imap self b)) = config self.
Proof.
  unfold _maybe_flush. destruct (negb _ || _); [| done].
  apply flush_frame.
Qed.

(** What [set_encryption_key] sets, and the mode of an encode that
    follows it. *)
Lemma set_encryption_key_enables self passphrase :
  let k := urlsafe_b64encode (take 32 (sha256_digest C passphrase)) in
  let c := config (set_encryption_key C self passphrase) in
  key c = Some k ∧ fernet c = Some (Fernet_new C k) ∧ encrypt c = true
  ∧ ∀ file_path file_data metadata p,
      encode_parts c file_path file_data metadata = Ret p →
      e_encoding p = "7bit" ∧ e_subject p = "..." ∧ e_filename p = "ifap.enc".
Proof.
  simpl. repeat split; try done.
  all: unfold encode_parts in H; simpl in H.
  all: destruct (json_dumps _); [| done]; simpl in H.
  all: destruct (json_dumps _); [| done]; simpl in H.
  all: by injection H as <-.
Qed.

(** C9. [set_encryption_key] sets the key to the URL-safe base64 of the
    first 32 bytes of the digest and turns [encrypt] on; called inside a
    scoped session, this is undone when the session exits: [__exit__]
    puts back the configuration [__enter__] had copied, so [encrypt],
    [fernet] and [key] are what they were before the session. *)
Theorem session_exit_drops_encryption_key self b passphrase :
  let r1 := __enter__ imap L self b in
  returned r1 = Ret () →
  let s2 := set_encryption_key C (self' r1) passphrase in
  let r3 := __exit__ imap L s2 (backend' r1) in
  key (config s2) = Some (urlsafe_b64encode (take 32 (sha256_digest C passphrase)))
  ∧ encrypt (config s2) = true
  ∧ config (self' r3) = Copy (config self)
  ∧ encrypt (config (self' r3)) = encrypt (config self).
Proof.
  intros r1 Hret s2 r3.
  split; [done |]. split; [done |].
  assert (Hstack : sstack s2 = sstack self ++ [Copy (config self)]).
  { unfold s2, r1, __enter__. simpl.
    by destruct (synchronize_frame
                   (set_config (set_buffering true (config self))
                      (set_sstack (sstack self ++ [Copy (config self)]) self)) b)
      as (_ & -> & _). }
  assert (Hc : config (self' r3) = Copy (config self)).
  { unfold r3, __exit__. rewrite Hstack, last_snoc.
    rewrite and_then_config, _maybe_flush_config; [done |].
    intros s b'. apply synchronize_frame. }
  split; [done |]. by rewrite Hc.
Qed.

End Session.

(** The reversal on an example: a fresh engine on a folder with one
    message enters a session, sets a key and leaves the session. *)
Lemma session_exit_drops_encryption_key_witness :
  let r1 := __enter__ folder_imap py27 fresh (folder_of [eml_a]) in
  let s2 := set_encryption_key toy_crypto (self' r1) "hunter2" in
  let r3 := __exit__ folder_imap py27 s2 (backend' r1) in
  returned r1 = Ret ()
  ∧ key (config s2)
    = Some (urlsafe_b64encode (take 32 (sha256_digest toy_crypto "hunter2")))
  ∧ encrypt (config s2) = true
  ∧ config (self' r3) = Copy (config fresh)
  ∧ encrypt (config (self' r3)) = encrypt (config fresh).
Proof.
  intros r1 s2 r3.
  assert (H : returned r1 = Ret ()) by (vm_compute; reflexivity).
  split; [exact H |].
  exact (session_exit_drops_encryption_key folder_imap py27 toy_crypto fresh
           (folder_of [eml_a]) "hunter2" H).
Defined.

(** After that session an object is encoded in plaintext mode. *)
Lemma session_exit_then_plaintext :
  let r1 := __enter__ folder_imap py27 fresh (folder_of [eml_a]) in
  let s2 := set_encryption_key toy_crypto (self' r1) "hunter2" in
  let r3 := __exit__ folder_imap py27 s2 (backend' r1) in
  encrypt (config (self' r3)) = false
  ∧ encode_object (config (self' r3)) "a" "one" None = Ret eml_a.
Proof. split; vm_compute; reflexivity. Qed.

(** ** The encoder *)

Lemma bind_Ret {A B} (m : result A) (f : A → result B) b :
  m ≫= f = Ret b → ∃ a, m = Ret a ∧ f a = Ret b.
Proof. destruct m as [a | e]; [by exists a | done]. Qed.

Lemma dumps_with_list nl level x l :
  dumps_with nl level (JList (x :: l)) =
    items ← collect (dumps_with nl (S level)) (x :: l);
    Ret ("[" ++ nl (S level) ++ join (", " ++ nl (S level)) items ++ nl level ++ "]").
Proof.
  assert (H : ∀ l',
    (fix chunks (l : list json) : result (list str) :=
       match l with
       | [] => Ret []
       | x :: r => a ← dumps_with nl (S level) x; b ← chunks r; Ret (a :: b)
       end) l' = collect (dumps_with nl (S level)) l').
  { induction l' as [| y l' IH]; [done |].
    simpl. destruct (dumps_with nl (S level) y); [| done]. simpl. by rewrite IH. }
  change (dumps_with nl level (JList (x :: l))) with
    (items ← (fix chunks (l : list json) : result (list str) :=
                match l with
                | [] => Ret []
                | x :: r => a ← dumps_with nl (S level) x; b ← chunks r; Ret (a :: b)
                end) (x :: l);
     Ret ("[" ++ nl (S level) ++ join (", " ++ nl (S level)) items ++ nl level ++ "]")).
  by rewrite H.
Qed.

Lemma dumps_with_dict nl level kv d :
  dumps_with nl level (JDict (kv :: d)) =
    items ← collect (item_text nl level) (kv :: d);
    Ret ("{" ++ nl (S level) ++ join (", " ++ nl (S level)) items ++ nl level ++ "}").
Proof.
  assert (H : ∀ d',
    (fix chunks (d : dict) : result (list str) :=
       match d with
       | [] => Ret []
       | (k, x) :: r =>
           k' ← encode_basestring_ascii k;
           a ← dumps_with nl (S level) x;
           b ← chunks r;
           Ret ((k' ++ ": " ++ a) :: b)
       end) d' = collect (item_text nl level) d').
  { induction d' as [| [k y] d' IH]; [done |].
    rewrite IH. cbn [collect]. unfold item_text. cbn [fst snd].
    destruct (encode_basestring_ascii k); [| reflexivity].
    destruct (dumps_with nl (S level) y); reflexivity. }
  change (dumps_with nl level (JDict (kv :: d))) with
    (items ← (fix chunks (d : dict) : result (list str) :=
                match d with
                | [] => Ret []
                | (k, x) :: r =>
                    k' ← encode_basestring_ascii k;
                    a ← dumps_with nl (S level) x;
                    b ← chunks r;
                    Ret ((k' ++ ": " ++ a) :: b)
                end) (kv :: d);
     Ret ("{" ++ nl (S level) ++ join (", " ++ nl (S level)) items ++ nl level ++ "}")).
  by rewrite H.
Qed.

Lemma collect_snoc {A} (f : A → result str) l x :
  collect f (l ++ [x]) = items ← collect f l; i ← f x; Ret (items ++ [i]).
Proof.
  induction l as [| y l IH]; simpl.
  - by destruct (f x).
  - destruct (f y); [| done]. simpl. rewrite IH.
    destruct (collect f l); [| done]. simpl. by destruct (f x).
Qed.

Lemma collect_nonempty {A} (f : A → result str) x l items :
  collect f (x :: l) = Ret items → items ≠ [].
Proof.
  simpl. destruct (f x); [| done]. simpl. destruct (collect f l); [| done].
  simpl. by intros [= <-].
Qed.

Lemma join_snoc sep items i :
  items ≠ [] → join sep (items ++ [i]) = join sep items ++ sep ++ i.
Proof.
  induction items as [| a items IH]; [done |]. intros _.
  destruct items as [| b items]; [done |].
  change (join sep ((a :: b :: items) ++ [i]))
    with (a ++ sep ++ join sep ((b :: items) ++ [i])).
  rewrite IH by done.
  change (join sep (a :: b :: items)) with (a ++ sep ++ join sep (b :: items)).
  by rewrite <- !app_assoc.
Qed.

Lemma dict_set_fresh k v d : dict_get k d = None → dict_set k v d = d ++ [(k, v)].
Proof.
  induction d as [| [k' v'] d IH]; [done |]. simpl.
  destruct (decide (k' = k)); [done |]. intros H. by rewrite IH.
Qed.

Lemma dict_get_set k v d k' :
  dict_get k' (dict_set k v d) = if decide (k = k') then Some v else dict_get k' d.
Proof.
  induction d as [| [k0 v0] d IH]; simpl.
  - by destruct (decide (k = k')).
  - destruct (decide (k0 = k)) as [-> | Hne]; simpl.
    + by destruct (decide (k = k')).
    + rewrite IH. destruct (decide (k0 = k')) as [-> | ?]; [| done].
      by destruct (decide (k = k')).
Qed.

Lemma dict_get_update d m k :
  dict_get k m = None → dict_get k (dict_update d m) = dict_get k d.
Proof.
  unfold dict_update. revert d.
  induction m as [| [k' v'] m IH]; intros d; [done |]. simpl.
  destruct (decide (k' = k)); [done |]. intros H.
  rewrite IH by done. rewrite dict_get_set. by destruct (decide (k' = k)).
Qed.

Lemma dict_set_nonempty k v d : dict_set k v d ≠ [].
Proof. destruct d as [| [k' v'] d]; [done |]. simpl. by destruct (decide (k' = k)). Qed.

Lemma dict_update_nonempty d m : d ≠ [] → dict_update d m ≠ [].
Proof.
  unfold dict_update. revert d.
  induction m as [| [k v] m IH]; intros d Hd; [done |].
  simpl. apply IH, dict_set_nonempty.
Qed.

Lemma chr_code c : chr (code c) = c.
Proof. unfold chr, code. rewrite N2Z.id. apply ascii_N_embedding. Qed.

Lemma code_range c : 0 ≤ code c < 256.
Proof. unfold code. pose proof (N_ascii_bounded c). lia. Qed.

Lemma utf8_decode_ascii (s : str) :
  Forall (λ c, code c < 128) s → utf8_decode (code <$> s) = Some (code <$> s).
Proof.
  induction 1 as [| c s Hc _ IH]; [done |].
  rewrite fmap_cons. cbn [utf8_decode].
  destruct (code c <? 128) eqn:E; [| lia]. by rewrite IH.
Qed.

Lemma escape_plain c : plain c → escape_cp (code c) = [c].
Proof.
  intros (Hr & Hq & Hb). unfold escape_cp.
  repeat (match goal with |- context [?a =? ?b] => destruct (a =? b) eqn:?; [lia |] end).
  destruct ((32 <=? code c) && (code c <=? 126)) eqn:E; [| lia].
  by rewrite chr_code.
Qed.

Lemma encode_plain (s : str) :
  Forall plain s → encode_basestring_ascii s = Ret (QUOTE :: s ++ [QUOTE]).
Proof.
  intros Hp. unfold encode_basestring_ascii.
  rewrite (utf8_decode_ascii s).
  2: { eapply Forall_impl; [done |]. intros c (Hr & _). simpl. lia. }
  do 3 f_equal. induction Hp as [| c s Hc _ IH]; [done |].
  rewrite !fmap_cons. cbn [List.concat]. by rewrite escape_plain, IH.
Qed.

Lemma len_app (s t : str) : len (s ++ t) = len s + len t.
Proof. unfold len. rewrite length_app. lia. Qed.

Lemma len_cons c (s : str) : len (c :: s) = 1 + len s.
Proof. unfold len. simpl length. lia. Qed.

Lemma len_nonneg (s : str) : 0 ≤ len s.
Proof. unfold len. lia. Qed.

(** Adding a key to a dictionary that is not empty makes its text longer
    by the separator, the two encoded strings and the colon. *)
Lemma json_dumps_add_key mdata k v x :
  mdata ≠ [] → dict_get k mdata = None →
  Forall plain k → Forall plain v →
  json_dumps mdata = Ret x →
  ∃ x', json_dumps (dict_set k (JStr v) mdata) = Ret x'
        ∧ len x' = len x + len k + len v + 10.
Proof.
  intros Hne Hk Hpk Hpv Hx. rewrite dict_set_fresh by done.
  unfold json_dumps, dumps in *.
  destruct mdata as [| kv d]; [done |].
  rewrite dumps_with_dict in Hx. apply bind_Ret in Hx as (items & Hitems & Hx).
  injection Hx as <-.
  change ((kv :: d) ++ [(k, JStr v)]) with (kv :: (d ++ [(k, JStr v)])).
  rewrite dumps_with_dict.
  change (kv :: (d ++ [(k, JStr v)])) with ((kv :: d) ++ [(k, JStr v)]).
  rewrite collect_snoc, Hitems. simpl.
  unfold item_text. simpl. rewrite !encode_plain by done. simpl.
  eexists. split; [reflexivity |].
  rewrite join_snoc by (by eapply collect_nonempty).
  unfold len. repeat (cbn [length app newline_indent replicate]; rewrite ?length_app).
  lia.
Qed.

Lemma plain_underscore : plain "_"%char.
Proof. unfold plain. change (code "_"%char) with 95. lia. Qed.

Lemma encode_mdata_shape file_path file_data metadata :
  let mdata0 := [(lit "fn", JStr file_path); (lit "bytes", JInt (len file_data))] in
  let mdata := match metadata with
               | Some (kv :: m) => dict_update mdata0 (kv :: m)
               | _ => mdata0
               end in
  mdata ≠ []
  ∧ ((∀ m, metadata = Some m → dict_get "_" m = None) → dict_get "_" mdata = None).
Proof.
  intros mdata0 mdata. split.
  - unfold mdata. destruct metadata as [[| kv m] |]; try done.
    by apply dict_update_nonempty.
  - intros H. unfold mdata. destruct metadata as [[| kv m] |]; try done.
    rewrite dict_get_update; [done |]. by apply H.
Qed.

(** C7. In encrypted mode, when the caller's metadata has no ['_'] key,
    the serialized metadata is 11 bytes longer than a multiple of 148
    (the padding is cut for the text without the ['_'] entry, whose key,
    quotes and separators then add 11 bytes) and the padded payload is a
    multiple of 2048 bytes long. *)
Theorem encrypted_padding_lengths cfg file_path file_data metadata p :
  encrypt cfg = true →
  (∀ m, metadata = Some m → dict_get "_" m = None) →
  encode_parts cfg file_path file_data metadata = Ret p →
  len (e_xifap p) mod 148 = 11 ∧ len (e_file_data p) mod 2048 = 0.
Proof.
  intros Henc Hmeta Hp. unfold encode_parts in Hp.
  destruct (encode_mdata_shape file_path file_data metadata) as [Hne Hnone].
  specialize (Hnone Hmeta).
  set (mdata := match metadata with
                | Some (kv :: m) => dict_update _ (kv :: m)
                | _ => _
                end) in *.
  apply bind_Ret in Hp as (x & Hx & Hp). rewrite Henc in Hp.
  set (n := Z.to_nat (148 - len x mod 148)) in *.
  pose proof (Z.mod_pos_bound (len x) 148 ltac:(lia)) as Hmod.
  destruct (json_dumps_add_key mdata "_" (take n (replicate 200 "_"%char)) x)
    as (x' & Hx' & Hlen); try done.
  { apply Forall_cons. split; [apply plain_underscore | apply Forall_nil_2]. }
  { apply Forall_take, Forall_replicate, plain_underscore. }
  rewrite Hx' in Hp. simpl in Hp. injection Hp as <-. simpl.
  split.
  - rewrite Hlen. unfold len at 2 3. rewrite length_take, length_replicate.
    change (Z.of_nat (length (lit "_"))) with 1.
    replace (Z.of_nat (n `min` 200)) with (148 - len x mod 148) by (unfold n; lia).
    pose proof (Z.div_mod (len x) 148 ltac:(lia)) as Hdm.
    replace (len x + 1 + (148 - len x mod 148) + 10)
      with (11 + (len x / 148 + 1) * 148) by lia.
    by rewrite Z.mod_add.
  - pose proof (Z.mod_pos_bound (len file_data) 2048 ltac:(lia)) as Hmod2.
    rewrite len_app. unfold len at 2. rewrite length_replicate.
    pose proof (Z.div_mod (len file_data) 2048 ltac:(lia)) as Hdm.
    replace (len file_data + Z.of_nat (Z.to_nat (2048 - len file_data mod 2048)))
      with (0 + (len file_data / 2048 + 1) * 2048) by lia.
    by rewrite Z.mod_add.
Qed.

Lemma encrypted_padding_lengths_witness :
  let cfg := config (set_encryption_key toy_crypto fresh "hunter2") in
  let p := parts_of (encode_parts cfg "a" "one" None) in
  encrypt cfg = true
  ∧ (∀ m, (None : option dict) = Some m → dict_get "_" m = None)
  ∧ encode_parts cfg "a" "one" None = Ret p
  ∧ len (e_xifap p) mod 148 = 11 ∧ len (e_file_data p) mod 2048 = 0.
Proof.
  intros cfg p.
  assert (H1 : encrypt cfg = true) by reflexivity.
  assert (H2 : ∀ m, (None : option dict) = Some m → dict_get "_" m = None) by done.
  assert (H3 : encode_parts cfg "a" "one" None = Ret p) by (vm_compute; reflexivity).
  split; [exact H1 |]. split; [exact H2 |]. split; [exact H3 |].
  exact (encrypted_padding_lengths cfg "a" "one" None p H1 H2 H3).
Defined.

(** For ["one"] written to [a] the serialized metadata is 159 bytes long. *)
Lemma encrypted_metadata_not_multiple :
  let cfg := config (set_encryption_key toy_crypto fresh "hunter2") in
  (λ p, len (e_xifap p)) <$> match encode_parts cfg "a" "one" None with
                               | Ret p => Some p
                               | Raise _ => None
                               end = Some 159.
Proof. vm_compute. reflexivity. Qed.

(** ** Reading back what the encoder writes

    The round trip of [encode_object] and the scan, against the reader of
    Python 2.7: [json.loads] on the text of [json.dumps], the header reader
    on the lines of the message, and the two ways [_reflow] has of folding
    the metadata into the [X-IFAP] field. *)

(** Induction on a value, with the hypothesis for every element of a list
    and every value of a dictionary. *)
Lemma json_ind (P : json → Prop) :
  P JNull → (∀ b, P (JBool b)) → (∀ z, P (JInt z)) → (∀ s, P (JStr s)) →
  (∀ l, Forall P l → P (JList l)) →
  (∀ d, Forall (λ kv, P kv.2) d → P (JDict d)) →
  ∀ v, P v.
Proof.
  intros Hn Hb Hz Hs Hl Hd.
  refine (fix IH (v : json) : P v :=
    match v with
    | JNull => Hn
    | JBool b => Hb b
    | JInt z => Hz z
    | JStr s => Hs s
    | JList l =>
        Hl l ((fix all (l : list json) : Forall P l :=
                 match l with
                 | [] => Forall_nil_2 P
                 | x :: r => Forall_cons_2 P x r (IH x) (all r)
                 end) l)
    | JDict d =>
        Hd d ((fix all (d : dict) : Forall (λ kv, P kv.2) d :=
                 match d with
                 | [] => Forall_nil_2 _
                 | kv :: r => Forall_cons_2 _ kv r (IH kv.2) (all r)
                 end) d)
    end).
Qed.

Lemma wf_json_list l : wf_json (JList l) ↔ Forall wf_json l.
Proof.
  induction l as [| x l IH]; simpl; [by split |].
  rewrite Forall_cons. simpl in IH. by rewrite IH.
Qed.

Lemma wf_json_dict d :
  wf_json (JDict d) ↔ NoDup d.*1 ∧ Forall (λ kv, ascii_str kv.1 ∧ wf_json kv.2) d.
Proof.
  simpl. apply and_iff_compat_l.
  induction d as [| [k x] d IH]; [by split |].
  rewrite Forall_cons. simpl. rewrite IH. tauto.
Qed.

Lemma json_size_list_cons x l :
  json_size (JList (x :: l)) = (1 + json_size x + json_size (JList l))%nat.
Proof. simpl. lia. Qed.

Lemma json_size_dict_cons k x d :
  json_size (JDict ((k, x) :: d)) = (1 + json_size x + json_size (JDict d))%nat.
Proof. simpl. lia. Qed.

Lemma json_size_pos v : (1 ≤ json_size v)%nat.
Proof. destruct v; simpl; lia. Qed.

(** *** json.loads: whitespace, strings and numbers *)

Lemma skip_ws_app w t : ws w → skip_ws (w ++ t) = skip_ws t.
Proof. induction 1 as [| c w Hc _ IH]; [done |]. simpl. by rewrite Hc. Qed.

Lemma skip_ws_cons c t : is_json_ws c = false → skip_ws (c :: t) = c :: t.
Proof. intros H. simpl. by rewrite H. Qed.

Lemma char_eq_code (c d : ascii) : code c = code d → c = d.
Proof. intros H. rewrite <- (chr_code c), <- (chr_code d). by rewrite H. Qed.

Lemma hex_value_digit d : 0 ≤ d < 16 → hex_value (hex_digit d) = Some d.
Proof.
  intros H. unfold hex_value, hex_digit.
  destruct (d <? 10) eqn:E; rewrite code_chr by lia.
  - destruct ((48 <=? 48 + d) && (48 + d <=? 57)) eqn:E1; [f_equal; lia | lia].
  - destruct ((48 <=? 87 + d) && (87 + d <=? 57)) eqn:E1; [lia |].
    destruct ((97 <=? 87 + d) && (87 + d <=? 102)) eqn:E2; [f_equal; lia | lia].
Qed.

Lemma hex4_u_escape n :
  0 ≤ n < 65536 →
  ∃ h1 h2 h3 h4, u_escape n = [BACKSLASH; "u"%char; h1; h2; h3; h4]
                 ∧ hex4 h1 h2 h3 h4 = Some n.
Proof.
  intros H. unfold u_escape. eexists _, _, _, _. split; [reflexivity |].
  unfold hex4.
  rewrite !hex_value_digit by (apply Z.mod_pos_bound; lia). simpl. f_equal.
  assert (E1 : n = 16 * (n / 16) + n mod 16) by (apply Z.div_mod; lia).
  assert (E2 : n / 16 = 16 * (n / 256) + n / 16 mod 16).
  { replace (n / 256) with (n / 16 / 16) by (by rewrite Z.div_div by lia).
    apply Z.div_mod. lia. }
  assert (E3 : n / 256 = 16 * (n / 4096) + n / 256 mod 16).
  { replace (n / 4096) with (n / 256 / 16) by (by rewrite Z.div_div by lia).
    apply Z.div_mod. lia. }
  assert (E4 : n / 4096 mod 16 = n / 4096).
  { apply Z.mod_small. split; [apply Z.div_pos; lia | apply Z.div_lt_upper_bound; lia]. }
  lia.
Qed.

Lemma scan_string_plain c r :
  c ≠ QUOTE → c ≠ BACKSLASH → 32 ≤ code c →
  scan_string (c :: r) = '(t, rest) ← scan_string r; Some (c :: t, rest).
Proof.
  intros H1 H2 H3. cbn [scan_string].
  rewrite (decide_False (P := c = QUOTE)) by done.
  rewrite (decide_False (P := c = BACKSLASH)) by done.
  destruct (code c <? 32) eqn:E; [lia | done].
Qed.

Lemma scan_string_backslash e r :
  scan_string (BACKSLASH :: e :: r) =
    if decide (e = "u"%char) then
      match r with
      | h1 :: h2 :: h3 :: h4 :: r2 =>
          match hex4 h1 h2 h3 h4 with
          | None => None
          | Some u =>
              let single :=
                '(t, rest) ← scan_string r2; Some (utf8_encode u ++ t, rest) in
              if (55296 <=? u) && (u <=? 56319) then
                match r2 with
                | b :: u' :: g1 :: g2 :: g3 :: g4 :: r3 =>
                    match hex4 g1 g2 g3 g4 with
                    | Some u2 =>
                        if bool_decide (b = BACKSLASH)
                           && bool_decide (u' = "u"%char)
                           && (56320 <=? u2) && (u2 <=? 57343)
                        then
                          '(t, rest) ← scan_string r3;
                          Some (utf8_encode
                                  (65536 + (u - 55296) * 1024 + (u2 - 56320))
                                  ++ t, rest)
                        else single
                    | None => single
                    end
                | _ => single
                end
              else single
          end
      | _ => None
      end
    else
      let simple (x : ascii) :=
        '(t, rest) ← scan_string r; Some (x :: t, rest) in
      if decide (e = QUOTE) then simple QUOTE
      else if decide (e = BACKSLASH) then simple BACKSLASH
      else if decide (e = "/"%char) then simple "/"%char
      else if decide (e = "b"%char) then simple BS
      else if decide (e = "f"%char) then simple FF
      else if decide (e = "n"%char) then simple LF
      else if decide (e = "r"%char) then simple CR
      else if decide (e = "t"%char) then simple TAB
      else None.
Proof. reflexivity. Qed.

Lemma scan_string_simple e d r :
  e ≠ "u"%char →
  (if decide (e = QUOTE) then Some QUOTE
   else if decide (e = BACKSLASH) then Some BACKSLASH
   else if decide (e = "/"%char) then Some "/"%char
   else if decide (e = "b"%char) then Some BS
   else if decide (e = "f"%char) then Some FF
   else if decide (e = "n"%char) then Some LF
   else if decide (e = "r"%char) then Some CR
   else if decide (e = "t"%char) then Some TAB
   else None) = Some d →
  scan_string (BACKSLASH :: e :: r) = '(t, rest) ← scan_string r; Some (d :: t, rest).
Proof.
  intros Hu He. rewrite scan_string_backslash.
  rewrite (decide_False (P := e = "u"%char)) by done. cbv zeta.
  do 8 (match goal with
        | |- context [decide (e = ?b)] =>
            destruct (decide (e = b)); [by injection He as <- |]
        end).
  done.
Qed.

Lemma scan_string_u h1 h2 h3 h4 r u :
  hex4 h1 h2 h3 h4 = Some u → u < 55296 →
  scan_string (BACKSLASH :: "u"%char :: h1 :: h2 :: h3 :: h4 :: r)
  = '(t, rest) ← scan_string r; Some (utf8_encode u ++ t, rest).
Proof.
  intros Hh Hu. rewrite scan_string_backslash.
  rewrite (decide_True (P := "u"%char = "u"%char)) by done.
  rewrite Hh. cbv zeta.
  assert ((55296 <=? u) && (u <=? 56319) = false) as -> by lia.
  done.
Qed.

Lemma scan_string_escape c t x r :
  code c < 128 →
  scan_string t = Some (x, r) →
  scan_string (escape_cp (code c) ++ t) = Some (c :: x, r).
Proof.
  intros Hc Ht. pose proof (code_range c) as Hr.
  assert (Hsimple : ∀ e d, e ≠ "u"%char → code c = code d →
            (if decide (e = QUOTE) then Some QUOTE
             else if decide (e = BACKSLASH) then Some BACKSLASH
             else if decide (e = "/"%char) then Some "/"%char
             else if decide (e = "b"%char) then Some BS
             else if decide (e = "f"%char) then Some FF
             else if decide (e = "n"%char) then Some LF
             else if decide (e = "r"%char) then Some CR
             else if decide (e = "t"%char) then Some TAB
             else None) = Some d →
            scan_string ([BACKSLASH; e] ++ t) = Some (c :: x, r)).
  { intros e d Hu Hd He. apply char_eq_code in Hd as ->. cbn [app].
    rewrite (scan_string_simple e d) by done. by rewrite Ht. }
  unfold escape_cp.
  destruct (code c =? 34) eqn:E1.
  { apply (Hsimple QUOTE QUOTE); [done | change (code QUOTE) with 34; lia | done]. }
  destruct (code c =? 92) eqn:E2.
  { apply (Hsimple BACKSLASH BACKSLASH); [done | change (code BACKSLASH) with 92; lia | done]. }
  destruct (code c =? 10) eqn:E3.
  { apply (Hsimple "n"%char LF); [done | change (code LF) with 10; lia | done]. }
  destruct (code c =? 13) eqn:E4.
  { apply (Hsimple "r"%char CR); [done | change (code CR) with 13; lia | done]. }
  destruct (code c =? 9) eqn:E5.
  { apply (Hsimple "t"%char TAB); [done | change (code TAB) with 9; lia | done]. }
  destruct (code c =? 12) eqn:E6.
  { apply (Hsimple "f"%char FF); [done | change (code FF) with 12; lia | done]. }
  destruct (code c =? 8) eqn:E7.
  { apply (Hsimple "b"%char BS); [done | change (code BS) with 8; lia | done]. }
  destruct ((32 <=? code c) && (code c <=? 126)) eqn:E8.
  - rewrite chr_code. cbn [app]. rewrite scan_string_plain, Ht; [done | | | lia].
    + intros ->. by vm_compute in E1.
    + intros ->. by vm_compute in E2.
  - destruct (code c <? 65536) eqn:E9; [| lia].
    destruct (hex4_u_escape (code c)) as (h1 & h2 & h3 & h4 & -> & Hh); [lia |].
    cbn [app]. rewrite (scan_string_u _ _ _ _ _ (code c)) by (done || lia).
    rewrite Ht. simpl. unfold utf8_encode.
    destruct (code c <? 128) eqn:E11; [| lia]. by rewrite chr_code.
Qed.

(** The reader undoes the escapes of the encoder on an ASCII string. *)
Lemma scan_string_encoded s rest :
  ascii_str s →
  scan_string (List.concat (escape_cp <$> (code <$> s)) ++ QUOTE :: rest) = Some (s, rest).
Proof.
  induction 1 as [| c s Hc _ IH].
  - simpl. by destruct (decide (QUOTE = QUOTE)).
  - rewrite !fmap_cons. cbn [List.concat]. rewrite <- app_assoc.
    by apply scan_string_escape.
Qed.

Lemma parse_string_encoded s t rest :
  ascii_str s →
  encode_basestring_ascii s = Ret t →
  ∃ body, t = QUOTE :: body ∧ parse_string (body ++ rest) = Some (s, rest).
Proof.
  intros Hs Ht. unfold encode_basestring_ascii in Ht.
  rewrite (utf8_decode_ascii s) in Ht by done. injection Ht as <-.
  eexists. split; [reflexivity |].
  unfold parse_string. rewrite <- app_assoc. cbn [app].
  rewrite scan_string_encoded by done. simpl.
  rewrite (utf8_decode_ascii s) by done. by rewrite bool_decide_true.
Qed.

Lemma take_while_app {A} (f : A → bool) l r :
  Forall (λ x, f x = true) l →
  match r with [] => True | x :: _ => f x = false end →
  take_while f (l ++ r) = l.
Proof.
  intros Hl Hr. induction Hl as [| x l Hx _ IH]; simpl.
  - destruct r as [| y r]; [done |]. simpl. by rewrite Hr.
  - by rewrite Hx, IH.
Qed.

Lemma parse_number_digits (neg : bool) (n : Z) (rest : str) :
  0 ≤ n → number_stop rest →
  let ds := take_while is_digit (digits n ++ rest) in
  let rest' := drop (length ds) (digits n ++ rest) in
  match ds with
  | [] => None
  | d :: ds' =>
      if bool_decide (d = "0"%char) && negb (bool_decide (ds' = [])) then None
      else if match rest' with
              | c :: _ => bool_decide (c = "."%char) || bool_decide (c = "e"%char)
                          || bool_decide (c = "E"%char)
              | [] => false
              end then None
      else v ← digits_value 0 ds; Some (JInt (if neg then - v else v), rest')
  end = Some (JInt (if neg then - n else n), rest).
Proof.
  intros Hn Hstop.
  destruct (digits_spec n rest Hn) as (d & ds & p & He & Hd & Hz & Hp & Hv).
  rewrite He. rewrite app_comm_cons.
  rewrite take_while_app; [| done |].
  2: { destruct rest; [done |]. apply Hstop. }
  cbv zeta. rewrite drop_app_length.
  assert (bool_decide (d = "0"%char) && negb (bool_decide (ds = [])) = false) as ->.
  { destruct (decide (d = "0"%char)) as [H0 | H0].
    - destruct (Hz H0) as [_ ->]. by rewrite andb_false_r.
    - by rewrite (bool_decide_false _ H0). }
  assert (match rest with
          | c :: _ => bool_decide (c = "."%char) || bool_decide (c = "e"%char)
                      || bool_decide (c = "E"%char)
          | [] => false
          end = false) as ->.
  { destruct rest as [| c rest]; [done |]. destruct Hstop as (_ & H1 & H2 & H3).
    by rewrite !bool_decide_false. }
  specialize (Hv 0 []). rewrite app_nil_r in Hv. rewrite Hv. simpl.
  by replace (0 * p + n) with n by lia.
Qed.

Lemma digit_not_minus c : is_digit c = true → c ≠ "-"%char.
Proof. intros H ->. by vm_compute in H. Qed.

(** The reader takes [str(z)] as the integer [z]. *)
Lemma parse_number_py_str z rest :
  number_stop rest → parse_number (py_str z ++ rest) = Some (JInt z, rest).
Proof.
  intros Hstop. unfold py_str. destruct (z <? 0) eqn:Hz.
  - unfold parse_number. cbn [app].
    rewrite (decide_True (P := "-"%char = "-"%char)) by done.
    rewrite (parse_number_digits true (Z.opp z)) by (done || lia).
    by rewrite Z.opp_involutive.
  - unfold parse_number.
    destruct (digits_spec z rest ltac:(lia)) as (d & ds & p & He & Hd & _).
    assert (Hdd : is_digit d = true) by (by inversion Hd).
    pose proof (parse_number_digits false z rest ltac:(lia) Hstop) as H.
    rewrite He in H |- *.
    rewrite (decide_False (P := d = "-"%char)) by (by apply digit_not_minus).
    exact H.
Qed.

Lemma py_str_head z :
  ∃ c r, py_str z = c :: r ∧ (is_digit c = true ∨ c = "-"%char).
Proof.
  unfold py_str. destruct (z <? 0) eqn:Hz.
  - eexists _, _. split; [reflexivity |]. by right.
  - destruct (digits_spec z [] ltac:(lia)) as (d & ds & p & He & Hd & _).
    rewrite !app_nil_r in He. exists d, ds. split; [done |]. left. by inversion Hd.
Qed.

Lemma starts_with_head p c s d t :
  p = d :: t → c ≠ d → starts_with p (c :: s) = false.
Proof.
  intros -> Hne. unfold starts_with. apply bool_decide_false.
  simpl. congruence.
Qed.

Lemma parse_value_number fuel c r :
  is_digit c = true ∨ c = "-"%char →
  parse_value (S fuel) (c :: r) = parse_number (c :: r).
Proof.
  intros Hc.
  assert (Hne : ∀ d, is_digit d = false → d ≠ "-"%char → c ≠ d).
  { intros d H1 H2 ->. destruct Hc; congruence. }
  cbn [parse_value].
  rewrite (decide_False (P := c = QUOTE)) by (by apply Hne).
  rewrite (decide_False (P := c = "{"%char)) by (by apply Hne).
  rewrite (decide_False (P := c = "["%char)) by (by apply Hne).
  rewrite (starts_with_head "null" c r "n"%char "ull") by (done || by apply Hne).
  rewrite (starts_with_head "true" c r "t"%char "rue") by (done || by apply Hne).
  rewrite (starts_with_head "false" c r "f"%char "alse") by (done || by apply Hne).
  done.
Qed.

(** *** json.loads: dictionaries *)

Lemma dict_get_None k (d : dict) : k ∉ d.*1 → dict_get k d = None.
Proof.
  induction d as [| [k' v] d IH]; [done |]. simpl.
  intros [H1 H2]%not_elem_of_cons. destruct (decide (k' = k)); [done |]. by apply IH.
Qed.

Lemma dict_of_pairs_acc (d acc : dict) :
  NoDup (acc.*1 ++ d.*1) →
  fold_left (λ acc kv, dict_set kv.1 kv.2 acc) d acc = acc ++ d.
Proof.
  revert acc. induction d as [| [k v] d IH]; intros acc Hnd.
  - by rewrite app_nil_r.
  - simpl. rewrite dict_set_fresh.
    + rewrite IH; [by rewrite <- app_assoc |].
      rewrite fmap_app, <- app_assoc. done.
    + apply dict_get_None. apply NoDup_app in Hnd as (_ & Hnd & _).
      intros Hin. apply (Hnd k Hin). simpl. by left.
Qed.

Lemma dict_of_pairs_NoDup (d : dict) : NoDup d.*1 → dict_of_pairs d = d.
Proof. intros H. unfold dict_of_pairs. by rewrite dict_of_pairs_acc. Qed.

(** One step of the reader on each kind of value. *)
Lemma parse_value_string f r :
  parse_value (S f) (QUOTE :: r) = '(t, rest) ← parse_string r; Some (JStr t, rest).
Proof. reflexivity. Qed.

Lemma parse_value_list f r :
  parse_value (S f) ("["%char :: r) =
    match skip_ws r with
    | c' :: r' =>
        if decide (c' = "]"%char) then Some (JList [], r')
        else '(l, rest) ← parse_elements f (c' :: r'); Some (JList l, rest)
    | [] => None
    end.
Proof. reflexivity. Qed.

Lemma parse_value_dict f r :
  parse_value (S f) ("{"%char :: r) =
    match skip_ws r with
    | c' :: r' =>
        if decide (c' = "}"%char) then Some (JDict [], r')
        else '(d, rest) ← parse_members f (c' :: r');
             Some (JDict (dict_of_pairs d), rest)
    | [] => None
    end.
Proof. reflexivity. Qed.

Lemma parse_elements_unfold f s :
  parse_elements (S f) s =
    '(v, r1) ← parse_value f s;
    match skip_ws r1 with
    | c :: r2 =>
        if decide (c = "]"%char) then Some ([v], r2)
        else if decide (c = ","%char) then
          '(l, r3) ← parse_elements f (skip_ws r2); Some (v :: l, r3)
        else None
    | [] => None
    end.
Proof. reflexivity. Qed.

Lemma parse_members_unfold f r :
  parse_members (S f) (QUOTE :: r) =
    '(k, r1) ← parse_string r;
    match skip_ws r1 with
    | c1 :: r2 =>
        if decide (c1 = ":"%char) then
          '(v, r3) ← parse_value f (skip_ws r2);
          match skip_ws r3 with
          | c2 :: r4 =>
              if decide (c2 = "}"%char) then Some ([(k, v)], r4)
              else if decide (c2 = ","%char) then
                '(d, r5) ← parse_members f (skip_ws r4);
                Some ((k, v) :: d, r5)
              else None
          | [] => None
          end
        else None
    | [] => None
    end.
Proof. reflexivity. Qed.

Lemma value_start_digit c : is_digit c = true ∨ c = "-"%char → value_start c.
Proof.
  intros Hc.
  assert (Hne : ∀ d, is_digit d = false → d ≠ "-"%char → c ≠ d).
  { intros d H1 H2 ->. destruct Hc; congruence. }
  split; [| split; by apply Hne].
  unfold is_json_ws. rewrite !bool_decide_false; [done | by apply Hne ..].
Qed.

Lemma ws_not_number c : is_json_ws c = true → is_digit c = false ∧ c ≠ "."%char ∧ c ≠ "e"%char ∧ c ≠ "E"%char.
Proof.
  unfold is_json_ws. intros H.
  repeat (apply orb_true_iff in H as [H | H]); apply bool_decide_eq_true in H as ->;
    by vm_compute.
Qed.

Lemma number_stop_after w c rest :
  ws w → c = "]"%char ∨ c = "}"%char ∨ c = ","%char → number_stop (w ++ c :: rest).
Proof.
  intros Hw Hc. destruct Hw as [| x w Hx _]; simpl.
  - destruct Hc as [-> | [-> | ->]]; by vm_compute.
  - by apply ws_not_number.
Qed.

Lemma encode_head s t : encode_basestring_ascii s = Ret t → ∃ t', t = QUOTE :: t'.
Proof.
  unfold encode_basestring_ascii. destruct (utf8_decode _); [| done].
  intros [= <-]. by eexists.
Qed.

Lemma join_cons2 sep (a b : str) items :
  join sep (a :: b :: items) = a ++ sep ++ join sep (b :: items).
Proof. done. Qed.

(** Writes the separators and brackets of the encoder as lists of bytes. *)
Ltac lits :=
  change (lit ", ") with [","%char; " "%char] in *;
  change (lit ": ") with [":"%char; " "%char] in *;
  change (lit "[") with ["["%char] in *;
  change (lit "]") with ["]"%char] in *;
  change (lit "{") with ["{"%char] in *;
  change (lit "}") with ["}"%char] in *.

Section Reader.
Context (nl : nat → str) (nl_ws : ∀ level, ws (nl level)).

(** The text of a value starts with a byte that is neither whitespace nor
    a closing bracket. *)
Lemma dumps_head level v t :
  dumps_with nl level v = Ret t → ∃ c t', t = c :: t' ∧ value_start c.
Proof.
  destruct v as [| [] | z | s | [| x l] | [| kv d]].
  - intros [= <-]. eexists _, _. split; [reflexivity |]. by vm_compute.
  - intros [= <-]. eexists _, _. split; [reflexivity |]. by vm_compute.
  - intros [= <-]. eexists _, _. split; [reflexivity |]. by vm_compute.
  - intros [= <-]. destruct (py_str_head z) as (c & r & -> & Hc).
    eexists _, _. split; [reflexivity |]. by apply value_start_digit.
  - intros H. destruct (encode_head _ _ H) as [t' ->].
    eexists _, _. split; [reflexivity |]. by vm_compute.
  - intros [= <-]. eexists _, _. split; [reflexivity |]. by vm_compute.
  - rewrite dumps_with_list. intros (items & _ & [= <-])%bind_Ret.
    eexists _, _. split; [reflexivity |]. by vm_compute.
  - intros [= <-]. eexists _, _. split; [reflexivity |]. by vm_compute.
  - rewrite dumps_with_dict. intros (items & _ & [= <-])%bind_Ret.
    eexists _, _. split; [reflexivity |]. by vm_compute.
Qed.

Local Abbreviation reads_back := (reads_back nl).

(** The elements of a list and the members of a dictionary are read back
    when each of their values is. *)
Lemma parse_elements_items level l :
  Forall reads_back l → Forall wf_json l → l ≠ [] →
  ∀ items fuel w rest,
    collect (dumps_with nl level) l = Ret items →
    ws w → (json_size (JList l) ≤ S fuel)%nat →
    parse_elements fuel (join (", " ++ nl level) items ++ w ++ "]"%char :: rest)
    = Some (l, rest).
Proof.
  induction 1 as [| x l Hx Hl IH]; [done |].
  intros Hwf _ items fuel w rest Hitems Hw Hsize.
  apply Forall_cons in Hwf as [Hwx Hwl].
  cbn [collect] in Hitems.
  apply bind_Ret in Hitems as (a & Ha & Hitems).
  apply bind_Ret in Hitems as (items' & Hitems' & [= <-]).
  rewrite json_size_list_cons in Hsize.
  pose proof (json_size_pos x). pose proof (json_size_pos (JList l)).
  destruct fuel as [| f]; [lia |].
  rewrite parse_elements_unfold.
  destruct l as [| y l].
  - injection Hitems' as <-. cbn [join].
    rewrite (Hx level a f) by (done || lia || by apply number_stop_after; auto).
    cbn [mbind option_bind]. rewrite skip_ws_app by done. rewrite skip_ws_cons by done.
    by rewrite (decide_True (P := "]"%char = "]"%char)).
  - assert (Hne : items' ≠ []) by (by eapply collect_nonempty).
    destruct items' as [| b items']; [done |].
    set (sep := ", " ++ nl level) in *.
    rewrite join_cons2. unfold sep at 1. lits. rewrite <- !app_assoc. cbn [app].
    rewrite (Hx level a f); [| done | done | lia |].
    2: { apply (number_stop_after []); [constructor | auto]. }
    cbn [mbind option_bind]. rewrite skip_ws_cons by done.
    rewrite (decide_False (P := ","%char = "]"%char)) by done.
    rewrite (decide_True (P := ","%char = ","%char)) by done.
    change (" "%char :: nl level ++ ?t) with ((" "%char :: nl level) ++ t).
    rewrite skip_ws_app by (constructor; [done | apply nl_ws]).
    (* the next item starts with a byte that is not whitespace *)
    assert (Hb : ∃ c b', b = c :: b' ∧ value_start c).
    { cbn [collect] in Hitems'. apply bind_Ret in Hitems' as (b0 & Hb0 & Hr).
      apply bind_Ret in Hr as (? & _ & [= <- <-]). by eapply dumps_head. }
    destruct Hb as (c & b' & -> & Hc & _).
    assert (Hskip : ∀ t, skip_ws (join sep ((c :: b') :: items') ++ t)
                        = join sep ((c :: b') :: items') ++ t).
    { intros t. destruct items'; cbn [join app]; by rewrite skip_ws_cons. }
    rewrite Hskip.
    rewrite (IH Hwl ltac:(done) _ f w rest Hitems' Hw ltac:(lia)). done.
Qed.

Lemma parse_members_items level d :
  Forall (λ kv, reads_back kv.2) d →
  Forall (λ kv, ascii_str kv.1 ∧ wf_json kv.2) d → d ≠ [] →
  ∀ items fuel w rest,
    collect (item_text nl level) d = Ret items →
    ws w → (json_size (JDict d) ≤ S fuel)%nat →
    parse_members fuel (join (", " ++ nl (S level)) items ++ w ++ "}"%char :: rest)
    = Some (d, rest).
Proof.
  induction 1 as [| [k x] d Hx Hd IH]; [done |].
  intros Hwf _ items fuel w rest Hitems Hw Hsize.
  apply Forall_cons in Hwf as [[Hwk Hwx] Hwd]. simpl in Hwk, Hwx, Hx.
  cbn [collect] in Hitems.
  apply bind_Ret in Hitems as (a & Ha & Hitems).
  apply bind_Ret in Hitems as (items' & Hitems' & [= <-]).
  unfold item_text in Ha. simpl in Ha.
  apply bind_Ret in Ha as (k' & Hk' & Ha).
  apply bind_Ret in Ha as (tx & Htx & [= <-]).
  rewrite json_size_dict_cons in Hsize.
  pose proof (json_size_pos x). pose proof (json_size_pos (JDict d)).
  destruct fuel as [| f]; [lia |].
  destruct (dumps_head _ _ _ Htx) as (cx & tx' & -> & Hcx & _).
  assert (Hitem : ∀ t, parse_members (S f) ((k' ++ ": " ++ cx :: tx') ++ t) =
            '(v, r3) ← parse_value f ((cx :: tx') ++ t);
            match skip_ws r3 with
            | c2 :: r4 =>
                if decide (c2 = "}"%char) then Some ([(k, v)], r4)
                else if decide (c2 = ","%char) then
                  '(d, r5) ← parse_members f (skip_ws r4);
                  Some ((k, v) :: d, r5)
                else None
            | [] => None
            end).
  { intros t.
    destruct (parse_string_encoded k k' (": " ++ (cx :: tx') ++ t) Hwk Hk')
      as (body & -> & Hbody).
    lits. rewrite <- !app_assoc. cbn [app]. rewrite parse_members_unfold.
    cbn [app] in Hbody.
    rewrite Hbody. cbn [mbind option_bind]. rewrite skip_ws_cons by done.
    rewrite (decide_True (P := ":"%char = ":"%char)) by done.
    change (skip_ws (" "%char :: cx :: tx' ++ t)) with (skip_ws (cx :: tx' ++ t)).
    by rewrite skip_ws_cons. }
  destruct d as [| [k2 y] d].
  - injection Hitems' as <-. cbn [join]. rewrite Hitem.
    rewrite (Hx (S level) (cx :: tx') f) by (done || lia || by apply number_stop_after; auto).
    cbn [mbind option_bind]. rewrite skip_ws_app by done. rewrite skip_ws_cons by done.
    by rewrite (decide_True (P := "}"%char = "}"%char)).
  - assert (Hne : items' ≠ []) by (by eapply collect_nonempty).
    destruct items' as [| b items']; [done |].
    set (sep := ", " ++ nl (S level)) in *.
    rewrite join_cons2. rewrite <- (app_assoc _ _ (w ++ _)). rewrite Hitem.
    unfold sep at 1. lits. rewrite <- !app_assoc. cbn [app].
    change (parse_value f (cx :: tx' ++ ?t)) with (parse_value f ((cx :: tx') ++ t)).
    rewrite (Hx (S level) (cx :: tx') f); [| done | done | lia |].
    2: { apply (number_stop_after []); [constructor | auto]. }
    cbn [mbind option_bind]. rewrite skip_ws_cons by done.
    rewrite (decide_False (P := ","%char = "}"%char)) by done.
    rewrite (decide_True (P := ","%char = ","%char)) by done.
    change (" "%char :: nl (S level) ++ ?t) with ((" "%char :: nl (S level)) ++ t).
    rewrite skip_ws_app by (constructor; [done | apply nl_ws]).
    assert (Hb : ∃ b', b = QUOTE :: b').
    { cbn [collect] in Hitems'. apply bind_Ret in Hitems' as (b0 & Hb0 & Hr).
      apply bind_Ret in Hr as (? & _ & [= <- <-]).
      unfold item_text in Hb0. apply bind_Ret in Hb0 as (q & Hq & Hb0).
      apply bind_Ret in Hb0 as (? & _ & [= <-]).
      destruct (encode_head _ _ Hq) as [q' ->]. by eexists. }
    destruct Hb as (b' & ->).
    assert (Hskip : ∀ t, skip_ws (join sep ((QUOTE :: b') :: items') ++ t)
                        = join sep ((QUOTE :: b') :: items') ++ t).
    { intros t. destruct items'; cbn [join app]; by rewrite skip_ws_cons. }
    rewrite Hskip.
    rewrite (IH Hwd ltac:(done) _ f w rest Hitems' Hw ltac:(lia)). done.
Qed.

(** The reader gives back every well-formed value from its text. *)
Lemma parse_value_dumps v : reads_back v.
Proof.
  induction v as [| b | z | s | l IH | d IH] using json_ind;
    intros level t fuel rest Hwf Ht Hsize Hstop;
    (destruct fuel as [| f];
      [match type of Hsize with (json_size ?u <= _)%nat =>
         pose proof (json_size_pos u); lia end |]).
  - injection Ht as <-. reflexivity.
  - destruct b; injection Ht as <-; reflexivity.
  - injection Ht as <-. destruct (py_str_head z) as (c & r & He & Hc).
    rewrite <- (parse_number_py_str z rest Hstop). rewrite He. cbn [app].
    by apply parse_value_number.
  - simpl in Hwf, Ht.
    destruct (parse_string_encoded s t rest Hwf Ht) as (body & -> & Hbody).
    cbn [app]. rewrite parse_value_string, Hbody. done.
  - destruct l as [| x l].
    { injection Ht as <-. reflexivity. }
    rewrite dumps_with_list in Ht. apply bind_Ret in Ht as (items & Hitems & [= <-]).
    cbn [app]. rewrite <- !app_assoc.
    change (","%char :: " "%char :: nl (S level)) with (", " ++ nl (S level)).
    rewrite parse_value_list.
    rewrite skip_ws_app by apply nl_ws.
    assert (Hhead : ∃ c r, join (", " ++ nl (S level)) items = c :: r ∧ value_start c).
    { cbn [collect] in Hitems. apply bind_Ret in Hitems as (a & Ha & Hr).
      apply bind_Ret in Hr as (its & _ & [= <-]).
      destruct (dumps_head _ _ _ Ha) as (c & a' & -> & Hc).
      destruct its; cbn [join app]; eauto. }
    destruct Hhead as (c & r & Hj & Hc & Hc2 & _).
    pose proof (parse_elements_items (S level) (x :: l) IH
                  ltac:(by apply wf_json_list) ltac:(done) items f (nl level) rest
                  Hitems (nl_ws level) Hsize) as Hel.
    rewrite Hj in Hel |- *. cbn [app] in Hel |- *. rewrite skip_ws_cons by done.
    rewrite (decide_False (P := c = "]"%char)) by done.
    by rewrite Hel.
  - destruct d as [| kv d].
    { injection Ht as <-. reflexivity. }
    rewrite dumps_with_dict in Ht. apply bind_Ret in Ht as (items & Hitems & [= <-]).
    apply wf_json_dict in Hwf as [Hnd Hwf].
    cbn [app]. rewrite <- !app_assoc.
    change (","%char :: " "%char :: nl (S level)) with (", " ++ nl (S level)).
    rewrite parse_value_dict.
    rewrite skip_ws_app by apply nl_ws.
    assert (Hhead : ∃ r, join (", " ++ nl (S level)) items = QUOTE :: r).
    { cbn [collect] in Hitems. apply bind_Ret in Hitems as (a & Ha & Hr).
      apply bind_Ret in Hr as (its & _ & [= <-]).
      unfold item_text in Ha. apply bind_Ret in Ha as (q & Hq & Ha).
      apply bind_Ret in Ha as (? & _ & [= <-]).
      destruct (encode_head _ _ Hq) as [q' ->].
      destruct its; cbn [join app]; eauto. }
    destruct Hhead as (r & Hj).
    pose proof (parse_members_items level (kv :: d) IH Hwf ltac:(done) items f
                  (nl level) rest Hitems (nl_ws level) Hsize) as Hel.
    rewrite Hj in Hel |- *. cbn [app] in Hel |- *. rewrite skip_ws_cons by done.
    rewrite (decide_False (P := QUOTE = "}"%char)) by done.
    rewrite Hel. simpl. by rewrite dict_of_pairs_NoDup.
Qed.

End Reader.

Lemma wrapped_app s t : wrapped s → wrapped t → wrapped (s ++ t).
Proof.
  induction 1 as [| c s Hc Hl _ IH | s _ IH]; intros Ht; simpl; [done | |].
  - apply wrapped_char; auto.
  - apply wrapped_break; auto.
Qed.

Lemma printable_wrapped s : Forall printable s → wrapped s.
Proof.
  induction 1 as [| c s Hc _ IH]; constructor; try done.
  - intros ->. unfold printable in Hc. change (code CR) with 13 in Hc. lia.
  - intros ->. unfold printable in Hc. change (code LF) with 10 in Hc. lia.
Qed.

Lemma wrapped_join sep items :
  wrapped sep → Forall wrapped items → wrapped (join sep items).
Proof.
  intros Hsep. induction 1 as [| a items Ha Hi IH]; [constructor |].
  destruct items as [| b items]; [done |].
  rewrite join_cons2. auto using wrapped_app.
Qed.

Lemma wrapped_folded_indent level : wrapped (folded_indent level).
Proof.
  apply wrapped_break, printable_wrapped, Forall_replicate. by vm_compute.
Qed.

Lemma replace_char_app c new s t :
  replace_char c new (s ++ t) = replace_char c new s ++ replace_char c new t.
Proof.
  induction s as [| x s IH]; [done |].
  cbn [replace_char app]. by rewrite IH, <- app_assoc.
Qed.

Lemma replace_char_absent c new s : c ∉ s → replace_char c new s = s.
Proof.
  induction s as [| x s IH]; [done |].
  intros [Hx Hs]%not_elem_of_cons. cbn [replace_char].
  rewrite decide_False by done. by rewrite IH.
Qed.

Lemma refold_app s t : refold (s ++ t) = refold s ++ refold t.
Proof. apply replace_char_app. Qed.

Lemma printable_not_LF s : Forall printable s → LF ∉ s.
Proof.
  intros H Hin. rewrite Forall_forall in H. apply H in Hin.
  unfold printable in Hin. change (code LF) with 10 in Hin. lia.
Qed.

Lemma refold_printable s : Forall printable s → refold s = s.
Proof. intros H. by apply replace_char_absent, printable_not_LF. Qed.

Lemma refold_join sep items :
  refold (join sep items) = join (refold sep) (refold <$> items).
Proof.
  induction items as [| a items IH]; [done |].
  destruct items as [| b items]; [done |].
  rewrite join_cons2, !refold_app, IH. by rewrite !fmap_cons, join_cons2.
Qed.

Lemma refold_newline_indent level : refold (newline_indent level) = folded_indent level.
Proof.
  unfold newline_indent, folded_indent.
  change (LF :: ?s) with ([LF] ++ s). rewrite refold_app.
  rewrite (refold_printable (replicate _ _)); [done |].
  apply Forall_replicate. by vm_compute.
Qed.

Lemma length_refold s : (length s ≤ length (refold s))%nat.
Proof.
  unfold refold. induction s as [| c s IH]; [done |].
  cbn [replace_char]. rewrite length_app. cbn [length].
  destruct (decide (c = LF));
    [change (length (CRLF ++ " ")) with 3%nat | change (length [c]) with 1%nat]; lia.
Qed.

Lemma hex_digit_printable d : 0 ≤ d < 16 → printable (hex_digit d).
Proof.
  intros H. unfold printable, hex_digit.
  destruct (d <? 10) eqn:E; rewrite code_chr by lia; lia.
Qed.

Lemma u_escape_printable n : Forall printable (u_escape n).
Proof.
  unfold u_escape.
  repeat (apply Forall_cons; split; [first [by vm_compute | apply hex_digit_printable, Z.mod_pos_bound; lia] |]).
  constructor.
Qed.

Lemma escape_cp_printable cp : 0 ≤ cp < 128 → Forall printable (escape_cp cp).
Proof.
  intros H. unfold escape_cp.
  repeat (match goal with
          | |- context [?a =? ?b] =>
              destruct (a =? b) eqn:?;
              [repeat (apply Forall_cons; split; [by vm_compute |]); constructor |]
          end).
  destruct ((32 <=? cp) && (cp <=? 126)) eqn:E.
  { apply Forall_cons. split; [| constructor]. unfold printable. rewrite code_chr; lia. }
  destruct (cp <? 65536) eqn:E2; [apply u_escape_printable | lia].
Qed.

Lemma encode_printable s t :
  ascii_str s → encode_basestring_ascii s = Ret t → Forall printable t.
Proof.
  intros Hs Ht. unfold encode_basestring_ascii in Ht.
  rewrite (utf8_decode_ascii s) in Ht by done. injection Ht as <-.
  apply Forall_cons. split; [by vm_compute |].
  apply Forall_app. split; [| by repeat constructor; vm_compute].
  induction Hs as [| c s Hc _ IH]; [constructor |].
  rewrite !fmap_cons. cbn [List.concat]. apply Forall_app. split; [| done].
  apply escape_cp_printable. pose proof (code_range c). lia.
Qed.

Lemma Ret_inj {A} (a b : A) : Ret a = Ret b → a = b.
Proof. congruence. Qed.

Lemma bind_ret_l {A B} (a : A) (f : A → result B) : (Ret a ≫= f) = f a.
Proof. reflexivity. Qed.

Lemma digit_printable c : is_digit c = true → printable c.
Proof. unfold is_digit, printable. lia. Qed.

Lemma py_str_printable z : Forall printable (py_str z).
Proof.
  assert (H : ∀ n, 0 ≤ n → Forall printable (digits n)).
  { intros n Hn. destruct (digits_spec n [] Hn) as (d & ds & p & He & Hd & _).
    rewrite !app_nil_r in He. rewrite He.
    eapply Forall_impl; [done |]. apply digit_printable. }
  unfold py_str. destruct (z <? 0) eqn:E.
  - apply Forall_cons. split; [by vm_compute | apply H; lia].
  - apply H. lia.
Qed.

Lemma folds_printable level v t :
  Forall printable t → t ≠ [] → json_size v = 1%nat →
  dumps_with folded_indent level v = Ret t →
  dumps_with folded_indent level v = Ret (refold t) ∧ wrapped (refold t)
  ∧ (json_size v ≤ length t)%nat.
Proof.
  intros Hp Hne Hs Ht. rewrite (refold_printable t) by done.
  split; [done |]. split; [by apply printable_wrapped |].
  rewrite Hs. destruct t; [done | simpl; lia].
Qed.

Lemma folds_elements level l : ∀ items,
  Forall folds l → Forall wf_json l →
  collect (dumps_with newline_indent level) l = Ret items →
  collect (dumps_with folded_indent level) l = Ret (refold <$> items)
  ∧ Forall wrapped (refold <$> items)
  ∧ ∀ sep, (1 ≤ length sep)%nat →
      (json_size (JList l) ≤ length (join sep items) + 2)%nat.
Proof.
  induction l as [| x l IH]; intros items Hf Hwf Hitems.
  { injection Hitems as <-. repeat split; [constructor | simpl; lia]. }
  apply Forall_cons in Hf as [Hx Hl]. apply Forall_cons in Hwf as [Hwx Hwl].
  cbn [collect] in Hitems.
  apply bind_Ret in Hitems as (a & Ha & Hitems).
  apply bind_Ret in Hitems as (items' & Hitems' & [= <-]).
  destruct (Hx level a Hwx Ha) as (Ea & Wa & Sa).
  destruct (IH items' Hl Hwl Hitems') as (Ei & Wi & Si).
  split; [| split].
  - cbn [collect]. rewrite Ea, Ei. reflexivity.
  - rewrite fmap_cons. by apply Forall_cons.
  - intros sep Hsep. specialize (Si sep Hsep).
    rewrite json_size_list_cons.
    destruct items' as [| b items'].
    + destruct l; [| cbn [collect] in Hitems';
        apply bind_Ret in Hitems' as (? & _ & (? & _ & [=])%bind_Ret)].
      simpl in *. lia.
    + rewrite join_cons2, !length_app. lia.
Qed.

Lemma folds_members level d : ∀ items,
  Forall (λ kv, folds kv.2) d →
  Forall (λ kv, ascii_str kv.1 ∧ wf_json kv.2) d →
  collect (item_text newline_indent level) d = Ret items →
  collect (item_text folded_indent level) d = Ret (refold <$> items)
  ∧ Forall wrapped (refold <$> items)
  ∧ ∀ sep, (1 ≤ length sep)%nat →
      (json_size (JDict d) ≤ length (join sep items) + 2)%nat.
Proof.
  induction d as [| [k x] d IH]; intros items Hf Hwf Hitems.
  { injection Hitems as <-. repeat split; [constructor | simpl; lia]. }
  apply Forall_cons in Hf as [Hx Hd]. apply Forall_cons in Hwf as [[Hwk Hwx] Hwd].
  simpl in Hx, Hwk, Hwx.
  cbn [collect] in Hitems.
  apply bind_Ret in Hitems as (a & Ha & Hitems).
  apply bind_Ret in Hitems as (items' & Hitems' & [= <-]).
  unfold item_text in Ha. cbn [fst snd] in Ha.
  apply bind_Ret in Ha as (k' & Hk' & Ha).
  apply bind_Ret in Ha as (tx & Htx & [= <-]).
  destruct (Hx (S level) tx Hwx Htx) as (Ea & Wa & Sa).
  destruct (IH items' Hd Hwd Hitems') as (Ei & Wi & Si).
  pose proof (encode_printable k k' Hwk Hk') as Hpk.
  change (k' ++ ":"%char :: " "%char :: tx) with (k' ++ ": " ++ tx) in *.
  assert (Er : refold (k' ++ ": " ++ tx) = k' ++ ": " ++ refold tx).
  { rewrite !refold_app. by rewrite (refold_printable k'). }
  split; [| split].
  - assert (Eitem : item_text folded_indent level (k, x) = Ret (k' ++ ": " ++ refold tx)).
    { unfold item_text. cbn [fst snd]. by rewrite Hk', bind_ret_l, Ea. }
    cbn [collect]. rewrite Eitem, bind_ret_l, Ei, bind_ret_l.
    by rewrite fmap_cons, Er.
  - rewrite fmap_cons. apply Forall_cons. split; [| done].
    rewrite Er. apply wrapped_app; [by apply printable_wrapped |].
    apply wrapped_app; [| done]. apply printable_wrapped. by repeat constructor.
  - intros sep Hsep. specialize (Si sep Hsep).
    rewrite json_size_dict_cons.
    destruct items' as [| b items'].
    + destruct d as [| [k2 x2] d]; [| cbn [collect] in Hitems';
        apply bind_Ret in Hitems' as (? & _ & (? & _ & [=])%bind_Ret)].
      simpl in Si |- *. rewrite !length_app. simpl. lia.
    + rewrite join_cons2, !length_app. lia.
Qed.

Lemma refold_brackets (o c : ascii) level items :
  printable o → printable c →
  refold ([o] ++ newline_indent (S level)
            ++ join (", " ++ newline_indent (S level)) items
            ++ newline_indent level ++ [c])
  = [o] ++ folded_indent (S level)
        ++ join (", " ++ folded_indent (S level)) (refold <$> items)
        ++ folded_indent level ++ [c].
Proof.
  intros Ho Hc.
  rewrite !refold_app, refold_join, !refold_app, !refold_newline_indent.
  rewrite (refold_printable [o]), (refold_printable [c]) by (by apply Forall_singleton).
  by rewrite (refold_printable ", ") by (by repeat constructor).
Qed.

(** [_reflow] with [preserve] on the text of a value. *)
Lemma folds_json v : folds v.
Proof.
  induction v as [| b | z | s | l IH | d IH] using json_ind; intros level t Hwf Ht.
  - injection Ht as <-. apply folds_printable; try done. by repeat constructor.
  - destruct b; injection Ht as <-; (apply folds_printable; try done; by repeat constructor).
  - injection Ht as <-. apply folds_printable; try done.
    + apply py_str_printable.
    + destruct (py_str_head z) as (c & r & -> & _). done.
  - simpl in Hwf, Ht. apply folds_printable; try done.
    + by eapply encode_printable.
    + destruct (encode_head _ _ Ht) as [t' ->]. done.
  - destruct l as [| x l].
    { injection Ht as <-. apply folds_printable; try done. by repeat constructor. }
    rewrite dumps_with_list in Ht. apply bind_Ret in Ht as (items & Hitems & <-%Ret_inj).
    apply wf_json_list in Hwf.
    destruct (folds_elements (S level) (x :: l) items IH Hwf Hitems) as (Ei & Wi & Si).
    change (lit "[") with ["["%char]. change (lit "]") with ["]"%char].
    rewrite refold_brackets by (by vm_compute).
    split; [| split].
    + rewrite dumps_with_list, Ei. reflexivity.
    + repeat apply wrapped_app; try apply wrapped_folded_indent;
        try (apply printable_wrapped; by repeat constructor).
      apply wrapped_join; [| done].
      apply wrapped_app; [apply printable_wrapped; by repeat constructor |].
      apply wrapped_folded_indent.
    + specialize (Si (", " ++ newline_indent (S level)) ltac:(simpl; lia)).
      rewrite !length_app. simpl length at 1 4. lia.
  - destruct d as [| kv d].
    { injection Ht as <-. apply folds_printable; try done. by repeat constructor. }
    rewrite dumps_with_dict in Ht. apply bind_Ret in Ht as (items & Hitems & <-%Ret_inj).
    apply wf_json_dict in Hwf as [_ Hwf].
    destruct (folds_members level (kv :: d) items IH Hwf Hitems) as (Ei & Wi & Si).
    change (lit "{") with ["{"%char]. change (lit "}") with ["}"%char].
    rewrite refold_brackets by (by vm_compute).
    split; [| split].
    + rewrite dumps_with_dict, Ei. reflexivity.
    + repeat apply wrapped_app; try apply wrapped_folded_indent;
        try (apply printable_wrapped; by repeat constructor).
      apply wrapped_join; [| done].
      apply wrapped_app; [apply printable_wrapped; by repeat constructor |].
      apply wrapped_folded_indent.
    + specialize (Si (", " ++ newline_indent (S level)) ltac:(simpl; lia)).
      rewrite !length_app. simpl length at 1 4. lia.
Qed.

(** *** strip *)

Lemma lstrip_app_one u c :
  lstrip (u ++ [c]) = match lstrip u with [] => lstrip [c] | _ => lstrip u ++ [c] end.
Proof.
  induction u as [| x u IH]; [done |].
  cbn [app lstrip]. destruct (is_space x); [done | done].
Qed.

Lemma rstrip_cons c s :
  rstrip (c :: s) =
    match rstrip s with
    | [] => if is_space c then [] else [c]
    | _ => c :: rstrip s
    end.
Proof.
  unfold rstrip. cbn [rev]. rewrite lstrip_app_one.
  destruct (lstrip (rev s)) as [| x r] eqn:E.
  - cbn [rev lstrip]. by destruct (is_space c).
  - rewrite rev_app_distr. cbn [rev app].
    destruct (rev r ++ [x]) eqn:E2; [by destruct (rev r) | done].
Qed.

Lemma wrapped_lstrip s : wrapped s → wrapped (lstrip s).
Proof.
  induction 1 as [| c s Hc Hl Hs IH | s Hs IH]; [constructor | |].
  - cbn [lstrip]. destruct (is_space c); [done | by constructor].
  - exact IH.
Qed.

Lemma wrapped_rstrip s : wrapped s → wrapped (rstrip s).
Proof.
  induction 1 as [| c s Hc Hl Hs IH | s Hs IH]; [constructor | |].
  - rewrite rstrip_cons. destruct (rstrip s) eqn:E.
    + destruct (is_space c); repeat constructor; done.
    + by constructor.
  - rewrite !rstrip_cons. destruct (rstrip s) eqn:E.
    + constructor.
    + by apply wrapped_break.
Qed.

Lemma wrapped_strip s : wrapped s → wrapped (strip s).
Proof. intros. by apply wrapped_rstrip, wrapped_lstrip. Qed.

Lemma remove_spaces_cons c s :
  remove_spaces (c :: s) = if is_space c then remove_spaces s else c :: remove_spaces s.
Proof.
  unfold remove_spaces. destruct (is_space c) eqn:E.
  - by rewrite filter_cons_False by (by rewrite E).
  - by rewrite filter_cons_True.
Qed.

Lemma remove_spaces_lstrip s : remove_spaces (lstrip s) = remove_spaces s.
Proof.
  induction s as [| c s IH]; [done |].
  cbn [lstrip]. rewrite (remove_spaces_cons c s).
  destruct (is_space c) eqn:E; [done |]. by rewrite remove_spaces_cons, E.
Qed.

Lemma remove_spaces_rstrip s : remove_spaces (rstrip s) = remove_spaces s.
Proof.
  induction s as [| c s IH]; [done |].
  rewrite rstrip_cons, (remove_spaces_cons c s), <- IH.
  destruct (rstrip s) eqn:E.
  - destruct (is_space c) eqn:Ec; [done |]. by rewrite remove_spaces_cons, Ec.
  - by rewrite remove_spaces_cons.
Qed.

Lemma remove_spaces_strip s : remove_spaces (strip s) = remove_spaces s.
Proof. unfold strip. by rewrite remove_spaces_rstrip, remove_spaces_lstrip. Qed.

Lemma remove_spaces_app s t : remove_spaces (s ++ t) = remove_spaces s ++ remove_spaces t.
Proof. apply filter_app. Qed.

Lemma remove_spaces_id s : Forall (λ c, is_space c = false) s → remove_spaces s = s.
Proof.
  induction 1 as [| c s Hc _ IH]; [done |]. by rewrite remove_spaces_cons, Hc, IH.
Qed.

Lemma remove_spaces_clean s : Forall (λ c, is_space c = false) (remove_spaces s).
Proof.
  induction s as [| c s IH]; [constructor |].
  rewrite remove_spaces_cons. destruct (is_space c) eqn:E; [done | by constructor].
Qed.

Lemma take1_rstrip c s : is_space c = false → take 1 (rstrip (c :: s)) = [c].
Proof. intros H. rewrite rstrip_cons, H. by destruct (rstrip s). Qed.

Lemma take1_strip s : take 1 (strip s) = take 1 (remove_spaces s).
Proof.
  unfold strip. rewrite <- (remove_spaces_lstrip s).
  induction s as [| c s IH]; [done |].
  cbn [lstrip]. destruct (is_space c) eqn:E; [done |].
  by rewrite take1_rstrip, remove_spaces_cons, E.
Qed.

Lemma rstrip_id s d : last s = Some d → is_space d = false → rstrip s = s.
Proof.
  intros Hl Hd. induction s as [| c s IH]; [done |].
  rewrite rstrip_cons. destruct s as [| c' s].
  - injection Hl as ->. by rewrite Hd.
  - rewrite IH by done. done.
Qed.

Lemma strip_id c m d :
  is_space c = false → is_space d = false → strip (c :: m ++ [d]) = c :: m ++ [d].
Proof.
  intros Hc Hd. unfold strip. cbn [lstrip]. rewrite Hc.
  apply (rstrip_id _ d); [| done].
  change (c :: m ++ [d]) with ((c :: m) ++ [d]). by rewrite last_snoc.
Qed.

Lemma strip_cons_space c s : is_space c = true → strip (c :: s) = strip s.
Proof. intros H. unfold strip. cbn [lstrip]. by rewrite H. Qed.

(** *** _reflow without [preserve] *)

Lemma clean_wrapped s : Forall (λ c, is_space c = false) s → wrapped s.
Proof.
  induction 1 as [| c s Hc _ IH]; constructor; try done; by intros ->.
Qed.

Lemma remove_spaces_sub_runs fuel n : ∀ s,
  Forall (λ c, is_space c = false) s →
  remove_spaces (sub_runs fuel n (CRLF ++ " ") s) = s.
Proof.
  induction fuel as [| f IH]; intros s Hs; [by apply remove_spaces_id |].
  cbn [sub_runs]. destruct (decide (n ≤ length s)%nat); [| by apply remove_spaces_id].
  rewrite !remove_spaces_app.
  rewrite (remove_spaces_id (take n s)) by (by apply Forall_take).
  rewrite IH by (by apply Forall_drop).
  change (remove_spaces (CRLF ++ " ")) with (@nil ascii).
  apply take_drop.
Qed.

Lemma wrapped_sub_runs fuel n : ∀ s,
  Forall (λ c, is_space c = false) s →
  wrapped (sub_runs fuel n (CRLF ++ " ") s).
Proof.
  induction fuel as [| f IH]; intros s Hs; [by apply clean_wrapped |].
  cbn [sub_runs]. destruct (decide (n ≤ length s)%nat); [| by apply clean_wrapped].
  apply wrapped_app; [by apply clean_wrapped, Forall_take |].
  apply wrapped_break, IH. by apply Forall_drop.
Qed.

(** *** The header reader on an encoded message *)

Local Abbreviation starts_blank line :=
  (match line with c :: _ => is_blank c | [] => false end).

Lemma splitlines_cons c r :
  c ≠ CR → c ≠ LF →
  splitlines (c :: r) = match splitlines r with l :: ls => (c :: l) :: ls | [] => [[c]] end.
Proof. intros. cbn [splitlines]. by rewrite !decide_False. Qed.

Lemma splitlines_crlf r : splitlines (CR :: LF :: r) = [CR; LF] :: splitlines r.
Proof. reflexivity. Qed.

Lemma splitlines_line l r :
  CR ∉ l → LF ∉ l → splitlines (l ++ CRLF ++ r) = (l ++ CRLF) :: splitlines r.
Proof.
  induction l as [| c l IH]; [done |].
  intros [? ?]%not_elem_of_cons [? ?]%not_elem_of_cons.
  cbn [app]. rewrite splitlines_cons by done.
  change (l ++ CR :: LF :: r) with (l ++ CRLF ++ r). by rewrite IH.
Qed.

Lemma splitlines_head c r :
  c ≠ CR → c ≠ LF → ∃ l ls, splitlines (c :: r) = (c :: l) :: ls.
Proof. intros. rewrite splitlines_cons by done. destruct (splitlines r); eauto. Qed.

(** The lines of a wrapped text and the line end after it: all but the
    first start with a space, and together they are the text. *)
Lemma splitlines_wrapped s :
  wrapped s → ∀ tail, ∃ l ls,
    splitlines (s ++ CRLF ++ tail) = l :: ls ++ splitlines tail
    ∧ Forall (λ line, starts_blank line = true) ls
    ∧ List.concat (l :: ls) = s ++ CRLF.
Proof.
  induction 1 as [| c s Hc Hl Hs IH | s Hs IH]; intros tail.
  - exists CRLF, []. done.
  - destruct (IH tail) as (l & ls & E & Hb & Hcat).
    exists (c :: l), ls. cbn [app]. rewrite splitlines_cons, E by done.
    split; [done |]. split; [done |]. cbn [List.concat app] in Hcat |- *. by rewrite Hcat.
  - destruct (IH tail) as (l & ls & E & Hb & Hcat).
    exists CRLF, ((" "%char :: l) :: ls). cbn [app]. rewrite splitlines_crlf.
    rewrite splitlines_cons, E by done.
    split; [done |]. split; [by constructor |].
    cbn [List.concat app] in Hcat |- *. by rewrite Hcat.
Qed.

Lemma take_while_true {A} (f : A → bool) x r :
  f x = true → take_while f (x :: r) = x :: take_while f r.
Proof. intros H. simpl. by rewrite H. Qed.

Lemma is_header_line_blank line : starts_blank line = true → is_header_line line = true.
Proof. intros H. unfold is_header_line. rewrite H. by destruct (starts_with _ _). Qed.

(** The reader only adds fields after those it has stored. *)
Lemma parse_headers_prefix lines : ∀ n t h v acc,
  ∃ more, parse_headers lines n t h v acc = acc ++ more.
Proof.
  induction lines as [| line rest IH]; intros n t h v acc.
  { destruct h; [exists []; by rewrite app_nil_r | eexists; reflexivity]. }
  cbn [parse_headers]. destruct (starts_blank line).
  { destruct h; apply IH. }
  set (acc' := match h with [] => acc | _ => _ end).
  assert (H : ∃ more0, acc' = acc ++ more0).
  { destruct h; [exists []; by rewrite app_nil_r | eexists; reflexivity]. }
  destruct H as [more0 ->].
  assert (H : ∀ n h v, ∃ more, parse_headers rest n t h v (acc ++ more0) = acc ++ more).
  { intros n' h' v'. destruct (IH n' t h' v' (acc ++ more0)) as [more ->].
    exists (more0 ++ more). by rewrite app_assoc. }
  destruct (starts_with "From " line).
  - destruct (decide (n = 0%nat)); [apply H |].
    destruct (decide (S n = t)); [by eexists | apply H].
  - destruct (cut_at_colon line) as [[name value] |]; apply H.
Qed.

(** Continuation lines are collected for the field at hand. *)
Lemma parse_headers_folded ls :
  Forall (λ line, starts_blank line = true) ls →
  ∀ rest n t c h v acc,
    parse_headers (ls ++ rest) n t (c :: h) v acc
    = parse_headers rest (n + length ls) t (c :: h) (v ++ ls) acc.
Proof.
  induction 1 as [| line ls Hb _ IH]; intros rest n t c h v acc.
  { cbn [app length]. by rewrite Nat.add_0_r, app_nil_r. }
  cbn [app parse_headers]. rewrite Hb, IH. cbn [length].
  rewrite <- app_assoc. f_equal. lia.
Qed.

(** A line that is not a continuation stores the field at hand. *)
Lemma parse_headers_after line rest n t c h v acc :
  starts_blank line = false →
  ∃ more, parse_headers (line :: rest) n t (c :: h) v acc
          = acc ++ (c :: h, rstrip_crlf (removelast (List.concat v))) :: more.
Proof.
  intros Hb. cbn [parse_headers]. rewrite Hb.
  set (x := (c :: h, rstrip_crlf (removelast (List.concat v)))).
  assert (H : ∀ n h v, ∃ more, parse_headers rest n t h v (acc ++ [x]) = acc ++ x :: more).
  { intros n' h' v'. destruct (parse_headers_prefix rest n' t h' v' (acc ++ [x])) as [more ->].
    exists more. by rewrite <- app_assoc. }
  destruct (starts_with "From " line).
  - destruct (decide (n = 0%nat)); [apply H |].
    destruct (decide (S n = t)); [by exists [] | apply H].
  - destruct (cut_at_colon line) as [[name value] |]; apply H.
Qed.

Lemma rstrip_crlf_snoc u x : x ≠ CR → x ≠ LF → rstrip_crlf (u ++ [x]) = u ++ [x].
Proof.
  intros H1 H2. unfold rstrip_crlf. rewrite rev_unit. cbn [rstrip_crlf_rev].
  rewrite !bool_decide_eq_false_2 by done. cbn [orb rev]. by rewrite rev_involutive.
Qed.

Lemma rstrip_crlf_CR s : rstrip_crlf (s ++ [CR]) = rstrip_crlf s.
Proof. unfold rstrip_crlf. by rewrite rev_unit. Qed.

Lemma rstrip_crlf_LF s : rstrip_crlf (s ++ [LF]) = rstrip_crlf s.
Proof. unfold rstrip_crlf. by rewrite rev_unit. Qed.

Lemma wrapped_last s :
  wrapped s → ∀ c, c ≠ CR → c ≠ LF → ∃ u x, c :: s = u ++ [x] ∧ x ≠ CR ∧ x ≠ LF.
Proof.
  induction 1 as [| c s Hc Hl Hs IH | s Hs IH]; intros c0 H1 H2.
  - by exists [], c0.
  - destruct (IH c Hc Hl) as (u & x & E & ?). exists (c0 :: u), x. by rewrite E.
  - destruct (IH " "%char) as (u & x & E & ?); [done | done |].
    exists (c0 :: CR :: LF :: u), x. by rewrite E.
Qed.

Lemma get_field_app name a b :
  get_field name (a ++ b) =
    match get_field name a with Some v => Some v | None => get_field name b end.
Proof.
  induction a as [| [k v] a IH]; [done |].
  cbn [app get_field]. by destruct (decide (lower k = lower name)).
Qed.

(** The field values end with the line end stripped, whether a line
    follows or not. *)
Lemma field_value s :
  wrapped s →
  rstrip_crlf (" "%char :: s ++ CRLF) = " "%char :: s
  ∧ rstrip_crlf (removelast (" "%char :: s ++ CRLF)) = " "%char :: s.
Proof.
  intros Hs. destruct (wrapped_last s Hs " "%char) as (u & x & E & H1 & H2); [done | done |].
  change (" "%char :: s ++ CRLF) with ((" "%char :: s) ++ CRLF). rewrite E.
  change CRLF with ([CR] ++ [LF]). rewrite !app_assoc.
  rewrite removelast_last, rstrip_crlf_LF, rstrip_crlf_CR.
  by rewrite rstrip_crlf_snoc.
Qed.

Lemma parse_headers_fixed subject rest t :
  parse_headers
    (("To: .. <to@ifap.example>" ++ CRLF) :: ("From: .. <from@ifap.example>" ++ CRLF)
       :: (("Subject: " ++ subject) ++ CRLF) :: ("X-IFAP:" ++ CRLF) :: rest) 0 t [] [] []
  = parse_headers rest 4 t "X-IFAP" [[]] (fixed_fields subject).
Proof. reflexivity. Qed.

(** Decides that a byte is not in a literal. *)
Ltac absent := apply (bool_decide_unpack _); by vm_compute.

(** The [X-IFAP] field of a message whose metadata is the wrapped text
    [s], when the line after the field is there with its first byte. *)
Lemma email_header_xifap subject s c tail :
  CR ∉ subject → LF ∉ subject → wrapped s →
  c ≠ CR → c ≠ LF → is_blank c = false →
  py27_email_header
    ("To: .. <to@ifap.example>" ++ CRLF ++ "From: .. <from@ifap.example>" ++ CRLF
       ++ ("Subject: " ++ subject) ++ CRLF ++ "X-IFAP:" ++ CRLF
       ++ (" "%char :: s) ++ CRLF ++ c :: tail) "X-IFAP"
  = Some (" "%char :: s).
Proof.
  intros Hcr Hlf Hs Hc1 Hc2 Hc3. unfold py27_email_header.
  assert (Hlines : ∃ l ls l0 ls0,
    splitlines ("To: .. <to@ifap.example>" ++ CRLF ++ "From: .. <from@ifap.example>" ++ CRLF
       ++ ("Subject: " ++ subject) ++ CRLF ++ "X-IFAP:" ++ CRLF
       ++ (" "%char :: s) ++ CRLF ++ c :: tail)
    = ("To: .. <to@ifap.example>" ++ CRLF) :: ("From: .. <from@ifap.example>" ++ CRLF)
       :: (("Subject: " ++ subject) ++ CRLF) :: ("X-IFAP:" ++ CRLF)
       :: ((" "%char :: l) :: ls) ++ (c :: l0) :: ls0
    ∧ Forall (λ line, starts_blank line = true) ((" "%char :: l) :: ls)
    ∧ List.concat ((" "%char :: l) :: ls) = " "%char :: s ++ CRLF).
  { destruct (splitlines_wrapped s Hs (c :: tail)) as (l & ls & E & Hb & Hcat).
    destruct (splitlines_head c tail Hc1 Hc2) as (l0 & ls0 & E0).
    exists l, ls, l0, ls0. split; [| split].
    - rewrite (splitlines_line "To: .. <to@ifap.example>") by absent.
      rewrite (splitlines_line "From: .. <from@ifap.example>") by absent.
      rewrite (splitlines_line ("Subject: " ++ subject)).
      2, 3: apply not_elem_of_app; split; [absent | done].
      rewrite (splitlines_line "X-IFAP:") by absent.
      cbn [app]. rewrite splitlines_cons, E, E0 by done. done.
    - by constructor.
    - cbn [List.concat app] in Hcat |- *. by rewrite Hcat. }
  destruct Hlines as (l & ls & l0 & ls0 & -> & Hb & Hcat).
  assert (Htw : ∃ rest,
    take_while is_header_line
      (("To: .. <to@ifap.example>" ++ CRLF) :: ("From: .. <from@ifap.example>" ++ CRLF)
       :: (("Subject: " ++ subject) ++ CRLF) :: ("X-IFAP:" ++ CRLF)
       :: ((" "%char :: l) :: ls) ++ (c :: l0) :: ls0)
    = ("To: .. <to@ifap.example>" ++ CRLF) :: ("From: .. <from@ifap.example>" ++ CRLF)
       :: (("Subject: " ++ subject) ++ CRLF) :: ("X-IFAP:" ++ CRLF)
       :: ((" "%char :: l) :: ls) ++ rest
    ∧ (rest = [] ∨ ∃ more, rest = (c :: l0) :: more)).
  { exists (take_while is_header_line ((c :: l0) :: ls0)). split.
    - rewrite !take_while_true by reflexivity. do 4 f_equal.
      clear Hcat. induction Hb as [| line lines Hl _ IH]; [done |].
      cbn [app]. rewrite take_while_true by (by apply is_header_line_blank).
      by rewrite IH.
    - cbn [take_while]. destruct (is_header_line (c :: l0)); eauto. }
  destruct Htw as (rest & -> & Hrest).
  generalize (length (("To: .. <to@ifap.example>" ++ CRLF)
       :: ("From: .. <from@ifap.example>" ++ CRLF)
       :: (("Subject: " ++ subject) ++ CRLF) :: ("X-IFAP:" ++ CRLF)
       :: ((" "%char :: l) :: ls) ++ rest)). intros t.
  rewrite parse_headers_fixed.
  change (lit "X-IFAP") with ("X"%char :: lit "-IFAP").
  rewrite (parse_headers_folded _ Hb).
  destruct (field_value s Hs) as [V1 V2].
  assert (Hv : List.concat ([[]] ++ (" "%char :: l) :: ls) = " "%char :: s ++ CRLF).
  { by rewrite <- Hcat. }
  destruct Hrest as [-> | [more ->]].
  - cbn [parse_headers]. rewrite Hv, V1. rewrite get_field_app. reflexivity.
  - destruct (parse_headers_after (c :: l0) more (4 + length ((" "%char :: l) :: ls)) t
                "X"%char "-IFAP" ([[]] ++ (" "%char :: l) :: ls) (fixed_fields subject) Hc3)
      as [tl ->].
    rewrite Hv, V2. rewrite get_field_app. reflexivity.
Qed.

(** *** The metadata dictionary *)

Lemma dict_set_keys k v d x : x ∈ (dict_set k v d).*1 → x = k ∨ x ∈ d.*1.
Proof.
  induction d as [| [k' v'] d IH]; cbn [dict_set].
  - intros ->%list_elem_of_singleton. by left.
  - destruct (decide (k' = k)) as [-> | Hne]; rewrite !fmap_cons, !elem_of_cons; cbn [fst].
    + tauto.
    + intros [-> | H]; [tauto |]. apply IH in H. tauto.
Qed.

Lemma dict_set_NoDup k v d : NoDup d.*1 → NoDup (dict_set k v d).*1.
Proof.
  induction d as [| [k' v'] d IH]; cbn [dict_set].
  - intros _. apply NoDup_singleton.
  - rewrite fmap_cons. intros [Hk Hd]%NoDup_cons. cbn [fst] in Hk.
    destruct (decide (k' = k)) as [-> | Hne]; rewrite fmap_cons; apply NoDup_cons.
    + done.
    + split; [| by apply IH]. cbn [fst]. intros [-> | H]%dict_set_keys; done.
Qed.

Lemma dict_set_Forall (P : str * json → Prop) k v d :
  P (k, v) → Forall P d → Forall P (dict_set k v d).
Proof.
  intros Hkv. induction 1 as [| [k' v'] d Hx Hd IH]; cbn [dict_set].
  - by apply Forall_singleton.
  - destruct (decide (k' = k)); by constructor.
Qed.

Lemma dict_update_NoDup m : ∀ d, NoDup d.*1 → NoDup (dict_update d m).*1.
Proof.
  unfold dict_update. induction m as [| [k v] m IH]; intros d Hd; [done |].
  cbn [fold_left]. by apply IH, dict_set_NoDup.
Qed.

Lemma dict_update_Forall (P : str * json → Prop) m :
  Forall P m → ∀ d, Forall P d → Forall P (dict_update d m).
Proof.
  unfold dict_update. induction 1 as [| [k v] m Hx Hm IH]; intros d Hd; [done |].
  cbn [fold_left]. by apply IH, dict_set_Forall.
Qed.

Lemma dict_get_update_NoDup m : ∀ d k,
  NoDup m.*1 →
  dict_get k (dict_update d m) =
    match dict_get k m with Some v => Some v | None => dict_get k d end.
Proof.
  unfold dict_update. induction m as [| [k' v'] m IH]; intros d k Hm; [done |].
  rewrite fmap_cons in Hm. apply NoDup_cons in Hm as [Hk Hm]. cbn [fst] in Hk.
  cbn [fold_left dict_get fst snd]. rewrite IH by done.
  destruct (decide (k' = k)) as [-> | Hne].
  - rewrite (dict_get_None k m Hk), dict_get_set. by rewrite decide_True.
  - destruct (dict_get k m); [done |]. rewrite dict_get_set. by rewrite decide_False.
Qed.

Lemma dict_get_del k k' d :
  dict_get k (dict_del k' d) = if decide (k = k') then None else dict_get k d.
Proof.
  unfold dict_del. induction d as [| [k0 v0] d IH]; [by destruct (decide (k = k')) |].
  destruct (decide (k0 = k')) as [-> | Hne].
  - rewrite filter_cons_False by (cbn [fst]; by intros H; apply H).
    rewrite IH. cbn [dict_get]. destruct (decide (k = k')) as [-> | ?]; [done |].
    by rewrite decide_False.
  - rewrite filter_cons_True by done. cbn [dict_get]. rewrite IH.
    destruct (decide (k0 = k)) as [<- | ?]; [by rewrite decide_False |]. done.
Qed.

Lemma dict_get_drop k k' d :
  dict_get k (if dict_has k' d then dict_del k' d else d)
  = if decide (k = k') then None else dict_get k d.
Proof.
  unfold dict_has. destruct (bool_decide (is_Some (dict_get k' d))) eqn:E.
  - apply dict_get_del.
  - apply bool_decide_eq_false in E. destruct (decide (k = k')) as [-> | ?]; [| done].
    destruct (dict_get k' d); [| done]. exfalso. apply E. by eexists.
Qed.

Lemma strip_transport_get k d :
  dict_get k (strip_transport d)
  = if decide (k = lit "_") then None
    else if decide (k = lit "fn") then None else dict_get k d.
Proof.
  unfold strip_transport. rewrite dict_get_drop.
  destruct (decide (k = lit "fn")) as [-> | ?].
  - by destruct (decide (lit "fn" = lit "_")).
  - by rewrite dict_get_drop.
Qed.

(** *** The encoder returns on well-formed values *)

Lemma encode_returns s : ascii_str s → ∃ t, encode_basestring_ascii s = Ret t.
Proof.
  intros Hs. unfold encode_basestring_ascii. rewrite (utf8_decode_ascii s) by done. eauto.
Qed.

Lemma collect_returns {A} (f : A → result str) l :
  Forall (λ x, ∃ t, f x = Ret t) l → ∃ items, collect f l = Ret items.
Proof.
  induction 1 as [| x l [t Ht] _ [items IH]]; [by exists [] |].
  exists (t :: items). cbn [collect]. by rewrite Ht, bind_ret_l, IH.
Qed.

(** [json.dumps] returns on a well-formed value. *)
Lemma dumps_returns v : ∀ nl level, wf_json v → ∃ t, dumps_with nl level v = Ret t.
Proof.
  induction v as [| b | z | s | l IH | d IH] using json_ind; intros nl level Hwf.
  - by eexists.
  - destruct b; by eexists.
  - by eexists.
  - by apply encode_returns.
  - destruct l as [| x l]; [by eexists |].
    rewrite dumps_with_list. apply wf_json_list in Hwf.
    destruct (collect_returns (dumps_with nl (S level)) (x :: l)) as [items ->].
    { rewrite Forall_forall in IH, Hwf |- *. intros y Hy. by apply IH, Hwf. }
    by eexists.
  - destruct d as [| kv d]; [by eexists |].
    rewrite dumps_with_dict. apply wf_json_dict in Hwf as [_ Hwf].
    destruct (collect_returns (item_text nl level) (kv :: d)) as [items ->].
    { rewrite Forall_forall in IH, Hwf |- *. intros [k y] Hy.
      destruct (Hwf _ Hy) as [Hk Hwy]. cbn [fst snd] in Hk, Hwy.
      destruct (encode_returns k Hk) as [k' Hk'].
      destruct (IH _ Hy nl (S level) Hwy) as [t Ht]. cbn [snd] in Ht.
      exists (k' ++ ": " ++ t). unfold item_text. cbn [fst snd].
      by rewrite Hk', bind_ret_l, Ht. }
    by eexists.
Qed.

(** *** json.loads on the text of json.dumps *)

(** [json.loads(json.dumps(v))] is [v]. *)
Lemma json_loads_dumps nl v t :
  (∀ level, ws (nl level)) → wf_json v →
  dumps_with nl 0 v = Ret t → (json_size v ≤ S (length t))%nat →
  py27_json_loads t = Ret v.
Proof.
  intros Hnl Hwf Ht Hsize. unfold py27_json_loads.
  destruct (dumps_head nl 0 v t Ht) as (c & t' & -> & Hc & _).
  rewrite skip_ws_cons by done.
  pose proof (parse_value_dumps nl Hnl v 0%nat (c :: t') (S (length (c :: t'))) []
                Hwf Ht Hsize I) as H.
  rewrite app_nil_r in H. by rewrite H.
Qed.

Lemma ws_newline_indent level : ws (newline_indent level).
Proof. apply Forall_cons. split; [done |]. by apply Forall_replicate. Qed.

Lemma ws_folded_indent level : ws (folded_indent level).
Proof. repeat (apply Forall_cons; split; [done |]). by apply Forall_replicate. Qed.

Lemma join_app sep (l1 l2 : list str) :
  l1 ≠ [] → l2 ≠ [] → join sep (l1 ++ l2) = join sep l1 ++ sep ++ join sep l2.
Proof.
  induction l1 as [| a l1 IH]; [done |]. intros _ H2.
  destruct l1 as [| b l1].
  - destruct l2 as [| c l2]; [done |]. cbn [app]. by rewrite join_cons2.
  - change ((a :: b :: l1) ++ l2) with (a :: b :: (l1 ++ l2)).
    rewrite !join_cons2. change (b :: l1 ++ l2) with ((b :: l1) ++ l2).
    rewrite IH by done. by rewrite <- !app_assoc.
Qed.

Lemma five_lines (a b c d e r : str) :
  (join CRLF [a; b; c; d; e] ++ CRLF) ++ r
  = a ++ CRLF ++ b ++ CRLF ++ c ++ CRLF ++ d ++ CRLF ++ e ++ CRLF ++ r.
Proof. cbn [join]. by rewrite <- !app_assoc. Qed.

(** The same on the 1024 bytes fetched of the joined lines. *)
Lemma header_of_lines subject s rest :
  CR ∉ subject → LF ∉ subject → wrapped s →
  len (join CRLF [lit "To: .. <to@ifap.example>"; lit "From: .. <from@ifap.example>";
                  "Subject: " ++ subject; lit "X-IFAP:"; " "%char :: s]) + 2 < 1024 →
  py27_email_header
    (take 1024
       (join CRLF (lit "To: .. <to@ifap.example>" :: lit "From: .. <from@ifap.example>"
                   :: ("Subject: " ++ subject) :: lit "X-IFAP:" :: (" "%char :: s)
                   :: lit "Content-Type: application/x-ifap" :: rest))) "X-IFAP"
  = Some (" "%char :: s).
Proof.
  intros Hcr Hlf Hs Hlen.
  set (five := [lit "To: .. <to@ifap.example>"; lit "From: .. <from@ifap.example>";
                "Subject: " ++ subject; lit "X-IFAP:"; " "%char :: s]) in *.
  change (lit "To: .. <to@ifap.example>" :: lit "From: .. <from@ifap.example>"
            :: ("Subject: " ++ subject) :: lit "X-IFAP:" :: (" "%char :: s)
            :: lit "Content-Type: application/x-ifap" :: rest)
    with (five ++ lit "Content-Type: application/x-ifap" :: rest).
  rewrite join_app by done.
  assert (Ht : ∃ tail, join CRLF (lit "Content-Type: application/x-ifap" :: rest)
                       = "C"%char :: tail).
  { destruct rest; [by eexists |]. rewrite join_cons2. by eexists. }
  destruct Ht as [tail ->]. rewrite app_assoc.
  assert (Hl : (length (join CRLF five ++ CRLF) < 1024)%nat).
  { rewrite length_app. unfold len in Hlen. change (length CRLF) with 2%nat. lia. }
  rewrite take_app_ge by lia.
  destruct (1024 - length (join CRLF five ++ CRLF))%nat as [| k] eqn:E; [lia |].
  cbn [take]. unfold five. rewrite five_lines.
  by apply email_header_xifap.
Qed.

(** *** The two ways of reflowing the metadata *)

(** Plain mode: the field holds the serialized metadata with folded line
    ends, which [strip] leaves alone and [json.loads] reads. *)
Lemma reflow_preserved md t :
  wf_json (JDict md) → md ≠ [] → json_dumps md = Ret t →
  ∃ s, _reflow t " " 78 true = " "%char :: s ∧ wrapped s
       ∧ strip (" "%char :: s) = s ∧ take 1 s = "{"
       ∧ py27_json_loads s = Ret (JDict md).
Proof.
  intros Hwf Hne Ht. unfold json_dumps, dumps in Ht.
  destruct (folds_json (JDict md) 0%nat t Hwf Ht) as (Ef & Wf & Sf).
  assert (Hshape : ∃ mid, refold t = "{"%char :: mid ++ ["}"%char]).
  { destruct md as [| kv d]; [done |].
    rewrite dumps_with_dict in Ef. apply bind_Ret in Ef as (items & _ & E%Ret_inj).
    rewrite <- E. change (lit "{") with ["{"%char]. change (lit "}") with ["}"%char].
    eexists (folded_indent 1 ++ join _ items ++ folded_indent 0).
    cbn [app]. by rewrite <- !app_assoc. }
  destruct Hshape as [mid Hmid].
  assert (Hstrip : strip (refold t) = refold t) by (rewrite Hmid; by apply strip_id).
  exists (refold t). split; [| split; [done | split; [| split]]].
  - unfold _reflow. fold refold. by rewrite Hstrip.
  - by rewrite strip_cons_space.
  - by rewrite Hmid.
  - apply (json_loads_dumps folded_indent); [apply ws_folded_indent | done | done |].
    pose proof (length_refold t). lia.
Qed.

(** Encrypted mode: the field holds the token in runs of 77 bytes, which
    the Fernet object decrypts. *)
Lemma reflow_token f t :
  (∀ data token,
     remove_spaces token = remove_spaces (fernet_encrypt f data) →
     fernet_decrypt f token = Ret data) →
  (∀ data, take 1 (remove_spaces (fernet_encrypt f data)) ≠ "{") →
  ∃ s, _reflow (fernet_encrypt f t) " " 78 false = " "%char :: s ∧ wrapped s
       ∧ take 1 (strip (" "%char :: s)) ≠ "{"
       ∧ fernet_decrypt f (strip (" "%char :: s)) = Ret t.
Proof.
  intros Hinv Hshape. set (T := remove_spaces (fernet_encrypt f t)).
  assert (HT : Forall (λ c, is_space c = false) T) by apply remove_spaces_clean.
  exists (strip (sub_runs (length T) 77 (CRLF ++ " ") T)).
  assert (Hrs : remove_spaces (strip (" "%char :: strip (sub_runs (length T) 77 (CRLF ++ " ") T)))
                = T).
  { rewrite remove_spaces_strip, remove_spaces_cons. cbn [is_space].
    change (is_space " "%char) with true. cbv iota.
    by rewrite remove_spaces_strip, remove_spaces_sub_runs. }
  split; [reflexivity |]. split; [by apply wrapped_strip, wrapped_sub_runs |].
  split.
  - rewrite take1_strip, <- remove_spaces_strip, Hrs. apply Hshape.
  - by apply Hinv.
Qed.

(** *** The message of an object *)

(** The [try] block, step by step. *)
Lemma parse_message_steps cfg env text item V xifap md fp :
  py27_email_header text "X-IFAP" = Some V →
  (if decide (take 1 (strip V) ≠ "{")
   then match fernet cfg with
        | Some f => fernet_decrypt f (strip V)
        | None => Raise AttributeError
        end
   else Ret (strip V)) = Ret xifap →
  py27_json_loads xifap = Ret (JDict md) →
  dict_get "fn" md = Some fp →
  parse_message py27 cfg [ItemPair env text; item] = Ret (md, fp).
Proof.
  intros H1 H2 H3 H4. unfold parse_message.
  cbn [header_text email_header json_loads py27]. rewrite bind_ret_l, H1, bind_ret_l.
  cbv zeta. rewrite H2, bind_ret_l, H3, bind_ret_l.
  unfold getitem. by rewrite H4.
Qed.

Lemma mdata_get file_path file_data m k :
  NoDup m.*1 → dict_get "fn" m = None → dict_get "bytes" m = None →
  dict_get k (dict_update [(lit "fn", JStr file_path); (lit "bytes", JInt (len file_data))] m)
  = if decide (k = lit "fn") then Some (JStr file_path)
    else if decide (k = lit "bytes") then Some (JInt (len file_data))
    else dict_get k m.
Proof.
  intros Hnd Hfn Hbytes. rewrite dict_get_update_NoDup by done.
  cbn [dict_get].
  destruct (decide (k = lit "fn")) as [-> | ?].
  { by rewrite Hfn, decide_True. }
  rewrite decide_False by done.
  destruct (decide (k = lit "bytes")) as [-> | ?].
  { by rewrite Hbytes, decide_True. }
  rewrite decide_False by done. by destruct (dict_get k m).
Qed.

Lemma mdata_wf file_path file_data m :
  ascii_str file_path → wf_json (JDict m) →
  wf_json (JDict (dict_update
                    [(lit "fn", JStr file_path); (lit "bytes", JInt (len file_data))] m)).
Proof.
  intros Hp [Hnd Hwf]%wf_json_dict. apply wf_json_dict. split.
  - apply dict_update_NoDup. by apply (bool_decide_unpack _).
  - apply dict_update_Forall; [done |].
    repeat (apply Forall_cons; split; [split; [by apply (bool_decide_unpack _) | done] |]).
    constructor.
Qed.

Lemma mdata_same file_path file_data (metadata : option dict) :
  match metadata with
  | Some (kv :: m) =>
      dict_update [(lit "fn", JStr file_path); (lit "bytes", JInt (len file_data))] (kv :: m)
  | _ => [(lit "fn", JStr file_path); (lit "bytes", JInt (len file_data))]
  end
  = dict_update [(lit "fn", JStr file_path); (lit "bytes", JInt (len file_data))]
      (default [] metadata).
Proof. by destruct metadata as [[| kv m] |]. Qed.

Lemma encode_lines_plain cfg file_path file_data metadata t :
  encrypt cfg = false →
  json_dumps (dict_update [(lit "fn", JStr file_path); (lit "bytes", JInt (len file_data))]
                (default [] metadata)) = Ret t →
  ∃ rest,
    encode_lines cfg file_path file_data metadata
    = Ret (lit "To: .. <to@ifap.example>" :: lit "From: .. <from@ifap.example>"
           :: ("Subject: " ++ file_path) :: lit "X-IFAP:" :: _reflow t " " 78 true
           :: lit "Content-Type: application/x-ifap" :: rest).
Proof.
  intros Henc Ht. unfold encode_lines, encode_parts. cbv zeta.
  rewrite mdata_same, Ht, bind_ret_l, Henc, bind_ret_l.
  unfold _maybe_encrypt. rewrite Henc. cbn [e_xifap e_file_data e_subject negb].
  rewrite !bind_ret_l. by eexists.
Qed.

Lemma encode_lines_encrypted cfg f file_path file_data metadata t t' :
  encrypt cfg = true → fernet cfg = Some f →
  let mdata := dict_update [(lit "fn", JStr file_path); (lit "bytes", JInt (len file_data))]
                 (default [] metadata) in
  json_dumps mdata = Ret t →
  json_dumps (dict_set "_" (JStr (take (Z.to_nat (148 - len t mod 148))
                                    (replicate 200 "_"%char))) mdata) = Ret t' →
  ∃ rest,
    encode_lines cfg file_path file_data metadata
    = Ret (lit "To: .. <to@ifap.example>" :: lit "From: .. <from@ifap.example>"
           :: ("Subject: " ++ "...") :: lit "X-IFAP:"
           :: _reflow (fernet_encrypt f t') " " 78 false
           :: lit "Content-Type: application/x-ifap" :: rest).
Proof.
  intros Henc Hf mdata Ht Ht'. unfold encode_lines, encode_parts. cbv zeta.
  rewrite mdata_same. fold mdata. rewrite Ht, bind_ret_l, Henc, Ht', !bind_ret_l.
  unfold _maybe_encrypt. rewrite Henc, Hf. cbn [e_xifap e_file_data e_subject negb].
  rewrite !bind_ret_l. by eexists.
Qed.

Lemma fetch_answer_one eml :
  ∃ env, (fetch_answer [eml] 1).2 = [ItemPair env (take 1024 eml); ItemStr ")"].
Proof. by eexists. Qed.

(** The encrypted and the plain branch end the same way. *)
Lemma round_trip_end file_path file_data m mdata k :
  NoDup m.*1 → dict_get "fn" m = None → dict_get "bytes" m = None →
  (∀ k, k ≠ lit "_" →
     dict_get k mdata
     = dict_get k (dict_update
                     [(lit "fn", JStr file_path); (lit "bytes", JInt (len file_data))] m)) →
  dict_get k (strip_transport mdata) =
    if decide (k = lit "bytes") then Some (JInt (len file_data))
    else if decide (k = lit "_") then None
    else if decide (k = lit "fn") then None
    else dict_get k m.
Proof.
  intros Hnd Hfn Hbytes Hget. rewrite strip_transport_get.
  destruct (decide (k = lit "_")) as [-> | H1].
  { by rewrite decide_False. }
  destruct (decide (k = lit "fn")) as [-> | H2].
  { by rewrite decide_False. }
  rewrite Hget, mdata_get by done.
  rewrite (decide_False (P := k = lit "fn")) by done.
  by destruct (decide (k = lit "bytes")).
Qed.

(** *** The stand-in for the cryptographic library *)

Lemma toy_bytes_letters s : toy_bytes (toy_letters s) = Some s.
Proof.
  induction s as [| c s IH]; [done |].
  cbn [toy_letters toy_bytes]. pose proof (code_range c) as Hc.
  assert (Hq : 0 ≤ code c / 16 < 16).
  { split; [apply Z.div_pos; lia | apply Z.div_lt_upper_bound; lia]. }
  assert (Hr : 0 ≤ code c mod 16 < 16) by (apply Z.mod_pos_bound; lia).
  rewrite !code_chr by lia.
  destruct ((97 <=? 97 + code c / 16) && (97 + code c / 16 <? 113)
            && (97 <=? 97 + code c mod 16) && (97 + code c mod 16 <? 113)) eqn:E; [| lia].
  rewrite IH. cbn [fmap option_fmap option_map]. do 2 f_equal.
  replace (16 * (97 + code c / 16 - 97) + (97 + code c mod 16 - 97)) with (code c).
  - apply chr_code.
  - pose proof (Z.div_mod (code c) 16). lia.
Qed.

Lemma toy_letters_clean s : Forall (λ c, is_space c = false) (toy_letters s).
Proof.
  induction s as [| c s IH]; [constructor |].
  cbn [toy_letters]. pose proof (code_range c) as Hc.
  assert (Hq : 0 ≤ code c / 16 < 16).
  { split; [apply Z.div_pos; lia | apply Z.div_lt_upper_bound; lia]. }
  assert (Hr : 0 ≤ code c mod 16 < 16) by (apply Z.mod_pos_bound; lia).
  repeat (apply Forall_cons; split; [unfold is_space; rewrite code_chr by lia; lia |]).
  done.
Qed.

Lemma toy_config_ready : fernet_ready toy_config.
Proof.
  intros _. exists (toy_fernet (urlsafe_b64encode (take 32 (sha256_digest toy_crypto "hunter2")))).
  split; [reflexivity |].
  assert (H : ∀ k data, remove_spaces (fernet_encrypt (toy_fernet k) data)
                        = "g"%char :: "A"%char :: toy_letters data).
  { intros k data. cbn [fernet_encrypt toy_fernet]. rewrite remove_spaces_app.
    by rewrite (remove_spaces_id (toy_letters data)) by apply toy_letters_clean. }
  split.
  - intros data token Ht. rewrite H in Ht.
    cbn [fernet_decrypt toy_fernet]. rewrite Ht. cbn [bool_decide andb].
    rewrite !bool_decide_eq_true_2 by done. cbn [andb].
    by rewrite toy_bytes_letters.
  - intros data. by rewrite H.
Qed.

(** C4. Encoding an object and reading the message back as the scan does
    gives the path and the metadata, less ['_'] and ['fn'] and with the
    length of the payload under ['bytes'], for an ASCII path and
    well-formed ASCII metadata without the keys ['fn'] and ['bytes'],
    when the [X-IFAP] field ends within the 1024 bytes that are fetched;
    in plain mode the path has no line break, in encrypted mode the
    Fernet object decrypts its own tokens. *)
Theorem encode_then_parse cfg file_path file_data metadata :
  ascii_str file_path →
  (encrypt cfg = false → (CR ∉ file_path) ∧ (LF ∉ file_path)) →
  wf_json (JDict (default [] metadata)) →
  dict_get "fn" (default [] metadata) = None →
  dict_get "bytes" (default [] metadata) = None →
  fernet_ready cfg →
  xifap_end cfg file_path file_data metadata < 1024 →
  round_trips cfg file_path file_data metadata.
Proof.
  intros Hp Hlines Hwf Hfn Hbytes Hready Hend.
  set (m := default [] metadata) in *.
  set (md := dict_update [(lit "fn", JStr file_path); (lit "bytes", JInt (len file_data))] m).
  pose proof (mdata_wf file_path file_data m Hp Hwf) as Hmd. fold md in Hmd.
  assert (Hne : md ≠ []) by (by apply dict_update_nonempty).
  assert (Hnd : NoDup m.*1) by (by apply wf_json_dict in Hwf as [? _]).
  destruct (dumps_returns (JDict md) newline_indent 0%nat Hmd) as [t Ht].
  unfold round_trips, encode_object. unfold xifap_end in Hend.
  destruct (encrypt cfg) eqn:Henc.
  - destruct (Hready Henc) as (f & Hf & Hinv & Hshape).
    set (md' := dict_set "_" (JStr (take (Z.to_nat (148 - len t mod 148))
                                      (replicate 200 "_"%char))) md).
    assert (Hmd' : wf_json (JDict md')).
    { apply wf_json_dict in Hmd as [H1 H2]. apply wf_json_dict.
      split; [by apply dict_set_NoDup |].
      apply dict_set_Forall; [| done].
      split; [by apply (bool_decide_unpack _) |]. cbn [snd wf_json].
      apply Forall_take, Forall_replicate. by vm_compute. }
    destruct (dumps_returns (JDict md') newline_indent 0%nat Hmd') as [t' Ht'].
    destruct (encode_lines_encrypted cfg f file_path file_data metadata t t' Henc Hf Ht Ht')
      as [rest Hl].
    destruct (reflow_token f t' Hinv Hshape) as (s & Hs & Ws & Htake & Hdec).
    rewrite Hs in Hl. rewrite Hl in Hend |- *. cbn [take] in Hend.
    rewrite bind_ret_l. eexists _, md'. split; [reflexivity |].
    match goal with
    | |- context [fetch_answer [?e] 1] => destruct (fetch_answer_one e) as [env ->]
    end.
    split.
    + apply (parse_message_steps _ _ _ _ (" "%char :: s) t').
      * apply header_of_lines; [absent | absent | done | exact Hend].
      * rewrite decide_True by done. by rewrite Hf.
      * apply (json_loads_dumps newline_indent); [apply ws_newline_indent | done | done |].
        destruct (folds_json (JDict md') 0%nat t' Hmd' Ht') as (_ & _ & Hsize). lia.
      * unfold md'. rewrite dict_get_set, decide_False by done.
        unfold md. rewrite mdata_get by done. by rewrite decide_True.
    + intros k. apply (round_trip_end file_path); try done.
      intros k' Hk'. unfold md'. rewrite dict_get_set. by rewrite decide_False.
  - destruct (Hlines eq_refl) as [Hcr Hlf].
    destruct (encode_lines_plain cfg file_path file_data metadata t Henc Ht) as [rest Hl].
    destruct (reflow_preserved md t Hmd Hne Ht) as (s & Hs & Ws & Hstrip & Htake & Hloads).
    rewrite Hs in Hl. rewrite Hl in Hend |- *. cbn [take] in Hend.
    rewrite bind_ret_l. eexists _, md. split; [reflexivity |].
    match goal with
    | |- context [fetch_answer [?e] 1] => destruct (fetch_answer_one e) as [env ->]
    end.
    split.
    + apply (parse_message_steps _ _ _ _ (" "%char :: s) s).
      * by apply header_of_lines.
      * rewrite Hstrip. rewrite decide_False; [done |]. by intros H.
      * done.
      * unfold md. rewrite mdata_get by done. by rewrite decide_True.
    + intros k. by apply (round_trip_end file_path).
Qed.

(** The round trip in encrypted mode, for ['one'] written to [a] with two
    entries of metadata. *)
Lemma encode_then_parse_witness :
  let keys := Some [(lit "mode", JInt 420); (lit "tags", JList [JStr "x"; JNull])] in
  ascii_str "a"
  ∧ wf_json (JDict (default [] keys))
  ∧ xifap_end toy_config "a" "one" keys < 1024
  ∧ round_trips toy_config "a" "one" keys.
Proof.
  intros keys.
  assert (H1 : ascii_str "a") by (by apply (bool_decide_unpack _)).
  assert (H2 : encrypt toy_config = false → (CR ∉ lit "a") ∧ (LF ∉ lit "a")) by done.
  assert (H3 : wf_json (JDict (default [] keys))).
  { apply wf_json_dict. split; [by apply (bool_decide_unpack _) |].
    apply Forall_cons. split; [split; [by apply (bool_decide_unpack _) | done] |].
    apply Forall_cons. split; [| constructor].
    split; [by apply (bool_decide_unpack _) |]. cbn [snd]. apply wf_json_list.
    apply Forall_cons. split; [by apply (bool_decide_unpack _) |].
    by apply Forall_singleton. }
  assert (H4 : dict_get "fn" (default [] keys) = None) by reflexivity.
  assert (H5 : dict_get "bytes" (default [] keys) = None) by reflexivity.
  assert (H6 : xifap_end toy_config "a" "one" keys < 1024) by (vm_compute; reflexivity).
  split; [exact H1 |]. split; [exact H3 |]. split; [exact H6 |].
  exact (encode_then_parse toy_config "a" "one" keys H1 H2 H3 H4 H5 toy_config_ready H6).
Defined.

(** The message written for [a] with metadata [{'fn': 'b'}] is read as a
    message for [b]. *)
Lemma encode_then_parse_reads_other :
  parse_message py27 default_config
    (fetch_answer
       [sure (encode_object default_config "a" "one" (Some [(lit "fn", JStr "b")]))] 1).2
  = Ret ([(lit "fn", JStr "b"); (lit "bytes", JInt 3)], JStr "b").
Proof. vm_compute. reflexivity. Qed.

(** Metadata with an ['fn'] entry of its own replaces the path. *)
Lemma encode_then_parse_other_path :
  ¬ round_trips default_config "a" "one" (Some [(lit "fn", JStr "b")]).
Proof.
  intros (eml & mdata & He & Hp & _).
  vm_compute in He. injection He as <-. vm_compute in Hp. discriminate Hp.
Qed.

(** Metadata with a ['bytes'] entry of its own replaces the length. *)
Lemma encode_then_parse_other_length :
  ¬ round_trips default_config "a" "one" (Some [(lit "bytes", JInt 7)]).
Proof.
  intros (eml & mdata & He & Hp & Hk).
  vm_compute in He. injection He as <-. vm_compute in Hp. injection Hp as <-.
  specialize (Hk "bytes"). vm_compute in Hk. discriminate Hk.
Qed.

(** Metadata that takes the [X-IFAP] field past the 1024 bytes fetched is
    not read at all. *)
Lemma encode_then_parse_long_metadata :
  ¬ round_trips default_config "a" "one"
      (Some [(lit "note", JStr (replicate 1000 "x"%char))]).
Proof.
  intros (eml & mdata & He & Hp & _).
  vm_compute in He. injection He as <-. vm_compute in Hp. discriminate Hp.
Qed.

(** In plain mode a path with an empty line ends the header before the
    [X-IFAP] field. *)
Lemma encode_then_parse_broken_path :
  ¬ round_trips default_config ("a" ++ CRLF ++ CRLF) "one" None.
Proof.
  intros (eml & mdata & He & Hp & _).
  vm_compute in He. injection He as <-. vm_compute in Hp. discriminate Hp.
Qed.

(** ** What synchronize does to the index *)

Section Scan.
Context {B : Type} (imap : IMAP B) (L : Reader).

(** The four ways a turn of the loop ends without an exception. *)
Lemma process_cases cfg st seq answer st' :
  process L cfg st seq answer = Ret st' →
  st' = add_broken seq st
  ∨ st' = {| s_tree := s_tree st; s_broken := s_broken st;
             s_to_delete := s_to_delete st; s_out := s_out st ++ [SnapshotAt seq] |}
  ∨ st' = st
  ∨ ∃ k md,
      latest_seq (s_tree st) k < seq
      ∧ st' = {| s_tree := <[k := (seq, strip_transport md)]> (s_tree st);
                 s_broken := s_broken st;
                 s_to_delete := match s_tree st !! k with
                                | Some (old, _) => {[old]} ∪ s_to_delete st
                                | None => s_to_delete st
                                end;
                 s_out := s_out st |}.
Proof.
  unfold process. destruct answer as [rv data].
  destruct (decide (rv ≠ OK)); [intros [= <-]; by left |].
  destruct (parse_message L cfg data) as [[md fp] | e].
  2: { destruct (handled e); [intros [= <-]; by left | done]. }
  destruct (is_snapshot_path fp); [intros [= <-]; right; by left |].
  destruct (py_hash fp) as [k |]; [| done].
  destruct (latest_seq (s_tree st) k >=? seq) eqn:E.
  - intros [= <-]. right. right. by left.
  - intros [= <-]. right. right. right. exists k, md. split; [lia | done].
Qed.

Lemma index_le_refl T : index_le T T.
Proof. intros k s md H. exists s, md. split; [done | lia]. Qed.

Lemma index_le_trans T1 T2 T3 : index_le T1 T2 → index_le T2 T3 → index_le T1 T3.
Proof.
  intros H1 H2 k s md H. destruct (H1 k s md H) as (s' & md' & H' & ?).
  destruct (H2 k s' md' H') as (s2 & md2 & ? & ?). exists s2, md2. split; [done | lia].
Qed.

Lemma index_le_insert T k s md :
  latest_seq T k < s → index_le T (<[k := (s, md)]> T).
Proof.
  intros Hl k' s' md' H. destruct (decide (k = k')) as [<- | Hne].
  - exists s, md. rewrite lookup_insert_eq. split; [done |].
    unfold latest_seq in Hl. rewrite H in Hl. lia.
  - exists s', md'. rewrite lookup_insert_ne by done. split; [done | lia].
Qed.

Lemma process_index_le cfg st seq answer st' :
  process L cfg st seq answer = Ret st' → index_le (s_tree st) (s_tree st').
Proof.
  intros [-> | [-> | [-> | (k & md & Hl & ->)]]]%process_cases;
    try apply index_le_refl.
  by apply index_le_insert.
Qed.

Lemma scan_index_le cfg seqs : ∀ b st,
  index_le (s_tree st) (s_tree (scan imap L cfg b st seqs).2).
Proof.
  induction seqs as [| seq rest IH]; intros b st; [apply index_le_refl |].
  cbn [scan]. destruct (decide (seq ∈ s_to_delete st)); [apply IH |].
  destruct (imap_fetch imap b seq) as [answer b'].
  destruct (process L cfg st seq answer) as [st' |] eqn:E; [| apply index_le_refl].
  eapply index_le_trans; [by eapply process_index_le | apply IH].
Qed.

(** The tree that [synchronize] leaves is the one it had or the one of the
    scan. *)
Lemma synchronize_tree self b :
  tree (self' (synchronize imap L self b)) = tree self
  ∨ ∃ b2 seqs l,
      (imap_search imap (imap_select imap b (base_folder self)).2).1.2 = seqs
      ∧ parse_seqs seqs = Some l
      ∧ tree (self' (synchronize imap L self b))
        = s_tree (scan imap L (config self) b2 (scan_start self) (rev (py_sorted l))).2.
Proof.
  unfold synchronize.
  destruct (imap_select imap b (base_folder self)) as [status b1]. cbn [snd].
  destruct (decide (OK ≠ status)); [by left |].
  destruct (imap_search imap b1) as [[rv seqs] b2]. cbn [fst snd].
  destruct (decide (rv ≠ OK)); [by left |].
  destruct (parse_seqs seqs) as [l |] eqn:El; [| by left].
  right. exists b2, seqs, l. split; [done |]. split; [done |].
  destruct (scan imap L (config self) b2 (scan_start self) (rev (py_sorted l)))
    as [[r b3] st].
  by destruct r.
Qed.

(** X2. Whatever the backend answers and however [synchronize] ends, every
    path of the index is still in the index afterwards, at the sequence
    it had or a higher one. *)
Theorem synchronize_never_lowers self b :
  index_le (tree self) (tree (self' (synchronize imap L self b))).
Proof.
  destruct (synchronize_tree self b) as [-> | (b2 & seqs & l & _ & _ & ->)].
  - apply index_le_refl.
  - apply (scan_index_le (config self) (rev (py_sorted l)) b2 (scan_start self)).
Qed.

(** X1. A search answer with an empty field (the empty answer of a folder
    without messages, a leading, trailing or doubled space) ends
    [synchronize] with the [ValueError] of [int('')]: nothing is fetched,
    nothing is printed and the engine is as it was. *)
Theorem synchronize_empty_field self b seqs :
  (imap_select imap b (base_folder self)).1 = OK →
  (imap_search imap (imap_select imap b (base_folder self)).2).1 = (OK, seqs) →
  [] ∈ split_on " "%char seqs →
  let r := synchronize imap L self b in
  returned r = Raise ValueError ∧ self' r = self ∧ printed r = []
  ∧ backend' r = (imap_search imap (imap_select imap b (base_folder self)).2).2.
Proof.
  intros Hsel Hsearch Hin. unfold synchronize.
  destruct (imap_select imap b (base_folder self)) as [status b1]. cbn [fst snd] in *.
  destruct (decide (OK ≠ status)); [congruence |].
  destruct (imap_search imap b1) as [[rv seqs'] b2]. cbn [fst snd] in *.
  injection Hsearch as -> ->.
  destruct (decide (OK ≠ OK)); [done |].
  destruct (parse_seqs seqs) as [l |] eqn:El; [| done].
  exfalso. unfold parse_seqs in El.
  assert (Hs : is_Some (mapM py_int (split_on " "%char seqs))) by (by eexists).
  apply mapM_is_Some_1 in Hs. rewrite Forall_forall in Hs.
  destruct (Hs [] Hin) as [z Hz]. done.
Qed.

Lemma latest_seq_le T T' k : index_le T T' → T !! k = None ∨ latest_seq T k ≤ latest_seq T' k.
Proof.
  intros H. destruct (T !! k) as [[s md] |] eqn:E; [right | by left].
  destruct (H k s md E) as (s' & md' & E' & ?). unfold latest_seq. by rewrite E, E'.
Qed.

Lemma scan_entries cfg T0 l seqs : ∀ b st,
  (∀ x, x ∈ seqs → x ∈ l) →
  index_le T0 (s_tree st) →
  (∀ k s md, s_tree st !! k = Some (s, md) → entry_from T0 l k s md) →
  ∀ k s md, s_tree (scan imap L cfg b st seqs).2 !! k = Some (s, md) →
    entry_from T0 l k s md.
Proof.
  induction seqs as [| seq rest IH]; intros b st Hl Hle Hst; [done |].
  cbn [scan]. destruct (decide (seq ∈ s_to_delete st)).
  { apply IH; [| done | done]. intros x Hx. apply Hl. by right. }
  destruct (imap_fetch imap b seq) as [answer b'].
  destruct (process L cfg st seq answer) as [st' |] eqn:E; [| done].
  assert (Hl' : ∀ x, x ∈ rest → x ∈ l) by (intros x Hx; apply Hl; by right).
  pose proof (process_index_le _ _ _ _ _ E) as Hle'.
  apply IH; [done | by eapply index_le_trans |].
  apply process_cases in E as [-> | [-> | [-> | (k0 & md0 & Hlt & ->)]]]; try done.
  cbn [s_tree]. intros k s md Hk.
  destruct (decide (k0 = k)) as [-> | Hne].
  2: { rewrite lookup_insert_ne in Hk by done. by apply Hst. }
  rewrite lookup_insert_eq in Hk. injection Hk as <- <-.
  right. split; [| split; [apply Hl; by left |]].
  - destruct (T0 !! k) as [[s0 m0] |] eqn:E0.
    + destruct (Hle k s0 m0 E0) as (s1 & m1 & E1 & ?).
      unfold latest_seq in Hlt |- *. rewrite E1 in Hlt. rewrite E0. lia.
    + unfold latest_seq at 1. rewrite E0.
      destruct (s_tree st !! k) as [[s1 m1] |] eqn:E1.
      * destruct (Hst k s1 m1 E1) as [H | (H & _)]; [congruence |].
        unfold latest_seq in H, Hlt. rewrite E0 in H. rewrite E1 in Hlt. lia.
      * unfold latest_seq in Hlt. rewrite E1 in Hlt. lia.
  - rewrite !strip_transport_get. rewrite !decide_True by done.
    rewrite decide_False by done. by rewrite decide_True.
Qed.

Lemma elem_of_py_sorted l x : x ∈ rev (py_sorted l) ↔ x ∈ l.
Proof.
  rewrite !list_elem_of_In, <- in_rev, <- !list_elem_of_In.
  unfold py_sorted. by rewrite merge_sort_Permutation.
Qed.

(** X3. An entry of the index after [synchronize] is an entry it had
    before, or it stands above what the index had for that path, at a
    sequence that [search] listed, and its metadata has neither ['_'] nor
    ['fn']. *)
Theorem synchronize_entries self b k s md :
  tree (self' (synchronize imap L self b)) !! k = Some (s, md) →
  tree self !! k = Some (s, md)
  ∨ (latest_seq (tree self) k < s
     ∧ dict_get "_" md = None ∧ dict_get "fn" md = None
     ∧ ∃ l, parse_seqs (imap_search imap (imap_select imap b (base_folder self)).2).1.2
            = Some l ∧ s ∈ l).
Proof.
  intros Hk.
  destruct (synchronize_tree self b) as [E | (b2 & seqs & l & Es & El & E)];
    rewrite E in Hk; [by left |].
  destruct (scan_entries (config self) (tree self) l (rev (py_sorted l)) b2
              (scan_start self)) with (k := k) (s := s) (md := md)
    as [H | (H1 & H2 & H3 & H4)]; try done.
  - intros x. by rewrite elem_of_py_sorted.
  - apply index_le_refl.
  - intros k' s' md' H. by left.
  - by left.
  - right. split; [done |]. split; [done |]. split; [done |].
    exists l. by rewrite Es.
Qed.

Lemma elem_of_tree_seqs T s : s ∈ tree_seqs T ↔ recorded T s.
Proof.
  unfold tree_seqs, recorded. rewrite elem_of_list_to_set, list_elem_of_fmap. split.
  - intros ([k [s' md]] & -> & H%elem_of_map_to_list). by exists k, md.
  - intros (k & md & H). exists (k, (s, md)). split; [done |].
    by apply elem_of_map_to_list.
Qed.

Lemma rev_sorted l : StronglySorted (flip Z.le) (rev (py_sorted l)).
Proof.
  unfold py_sorted.
  assert (H : StronglySorted Z.le (merge_sort Z.le l)).
  { apply StronglySorted_merge_sort; [apply _ |]. intros x y. lia. }
  revert H. generalize (merge_sort Z.le l). intros m H.
  induction H as [| x r Hr IH Hx]; [constructor |].
  cbn [rev]. apply StronglySorted_app. split; [| split; [done | repeat constructor]].
  intros x1 x2 H1 ->%list_elem_of_singleton. unfold flip.
  rewrite Forall_forall in Hx. apply Hx.
  by rewrite list_elem_of_In, in_rev, <- list_elem_of_In.
Qed.

(** From an empty index nothing is queued by the loop: a path is filed
    once, at the highest of its sequences. *)
Lemma scan_first cfg seqs : ∀ b st,
  StronglySorted (flip Z.le) seqs →
  s_to_delete st = ∅ →
  (∀ k s md, s_tree st !! k = Some (s, md) → Forall (λ x, x ≤ s) seqs) →
  Forall (λ o, ∃ s, o = SnapshotAt s) (s_out st) →
  s_to_delete (scan imap L cfg b st seqs).2 = ∅
  ∧ Forall (λ o, ∃ s, o = SnapshotAt s) (s_out (scan imap L cfg b st seqs).2).
Proof.
  induction seqs as [| seq rest IH]; intros b st Hs Hd Ht Ho; [done |].
  apply StronglySorted_inv in Hs as [Hs Hseq].
  assert (Ht' : ∀ k s md, s_tree st !! k = Some (s, md) → Forall (λ x, x ≤ s) rest).
  { intros k s md H. apply Ht in H. by apply Forall_cons in H as [_ H]. }
  cbn [scan]. destruct (decide (seq ∈ s_to_delete st)); [by apply IH |].
  destruct (imap_fetch imap b seq) as [answer b'].
  destruct (process L cfg st seq answer) as [st' |] eqn:E; [| done].
  apply process_cases in E as [-> | [-> | [-> | (k0 & md0 & Hlt & ->)]]];
    try (by apply IH).
  - apply IH; try done. cbn [s_out]. apply Forall_app. split; [done |].
    apply Forall_singleton. by eexists.
  - assert (Hnone : s_tree st !! k0 = None).
    { destruct (s_tree st !! k0) as [[s1 m1] |] eqn:E1; [| done].
      pose proof (Ht _ _ _ E1) as Hf. apply Forall_cons in Hf as [Hf _].
      unfold latest_seq in Hlt. rewrite E1 in Hlt. lia. }
    rewrite Hnone. apply IH; try done. cbn [s_tree]. intros k s md Hk.
    destruct (decide (k0 = k)) as [-> | Hne].
    + rewrite lookup_insert_eq in Hk. injection Hk as <- <-.
      eapply Forall_impl; [exact Hseq |]. by unfold flip.
    + rewrite lookup_insert_ne in Hk by done. by eapply Ht'.
Qed.

(** X4. The first [synchronize] of an engine, when it returns, prints
    notes about snapshots and then one report of sequences to delete; a
    reported sequence was listed by [search] and is not one the index
    records. *)
Theorem first_synchronize_report self b :
  tree self = ∅ →
  returned (synchronize imap L self b) = Ret () →
  ∃ notes D l,
    printed (synchronize imap L self b) = notes ++ [DeleteThese D]
    ∧ Forall (λ o, ∃ s, o = SnapshotAt s) notes
    ∧ parse_seqs (imap_search imap (imap_select imap b (base_folder self)).2).1.2
      = Some l
    ∧ ∀ s, s ∈ D → s ∈ l ∧ ¬ recorded (tree (self' (synchronize imap L self b))) s.
Proof.
  intros Hempty. unfold synchronize.
  destruct (imap_select imap b (base_folder self)) as [status b1]. cbn [snd].
  destruct (decide (OK ≠ status)); [done |].
  destruct (imap_search imap b1) as [[rv seqs] b2]. cbn [fst snd].
  destruct (decide (rv ≠ OK)); [done |].
  destruct (parse_seqs seqs) as [l |] eqn:El; [| done].
  destruct (scan_first (config self) (rev (py_sorted l)) b2 (scan_start self))
    as [Hd Ho].
  { apply rev_sorted. }
  { done. }
  { intros k s md H. cbn [scan_start s_tree] in H. rewrite Hempty in H.
    by rewrite lookup_empty in H. }
  { constructor. }
  destruct (scan imap L (config self) b2 (scan_start self) (rev (py_sorted l)))
    as [[r b3] st]. cbn [snd] in Hd, Ho.
  destruct r as [[] | e]; [| done]. intros _. cbn [printed self' tree set_tree].
  eexists (s_out st), _, l. split; [reflexivity |]. split; [done |]. split; [done |].
  intros s. rewrite Hd. rewrite elem_of_union, !elem_of_difference, elem_of_list_to_set.
  intros [H | [[H1 _] H2]]; [by apply elem_of_empty in H |].
  split.
  - apply elem_of_py_sorted. by rewrite list_elem_of_In, <- in_rev, <- list_elem_of_In.
  - by rewrite <- elem_of_tree_seqs.
Qed.

End Scan.

(** On an empty folder the search answer is the empty string. *)
Lemma synchronize_empty_field_witness :
  let b := folder_of [] in
  let r := synchronize folder_imap py27 fresh b in
  (imap_search folder_imap b).1 = (OK, [])
  ∧ returned r = Raise ValueError ∧ self' r = fresh ∧ printed r = []
  ∧ backend' r = b.
Proof.
  intros b r. split; [reflexivity |].
  assert (H : [] ∈ split_on " "%char []) by (by constructor).
  exact (synchronize_empty_field folder_imap py27 fresh b [] eq_refl eq_refl H).
Defined.

(** The entry made from the one message of a folder. *)
Lemma synchronize_entries_witness :
  let r := synchronize folder_imap py27 fresh (folder_of [eml_a]) in
  tree (self' r) !! KStr "a" = Some (1, [(lit "bytes", JInt 3)])
  ∧ (tree fresh !! KStr "a" = Some (1, [(lit "bytes", JInt 3)])
     ∨ latest_seq (tree fresh) (KStr "a") < 1
       ∧ dict_get "_" [(lit "bytes", JInt 3)] = None
       ∧ dict_get "fn" [(lit "bytes", JInt 3)] = None
       ∧ ∃ l, parse_seqs (imap_search folder_imap
                 (imap_select folder_imap (folder_of [eml_a]) (base_folder fresh)).2).1.2
              = Some l ∧ 1 ∈ l).
Proof.
  intros r.
  assert (H : tree (self' r) !! KStr "a" = Some (1, [(lit "bytes", JInt 3)]))
    by (vm_compute; reflexivity).
  split; [exact H |].
  exact (synchronize_entries folder_imap py27 fresh (folder_of [eml_a]) (KStr "a") 1
           [(lit "bytes", JInt 3)] H).
Defined.

(** A first [synchronize] of a folder with [a] and its tombstone. *)
Lemma first_synchronize_report_witness :
  let b := folder_of [eml_a; eml_a_tombstone] in
  let r := synchronize folder_imap py27 fresh b in
  tree fresh = ∅ ∧ returned r = Ret ()
  ∧ ∃ notes D l,
      printed r = notes ++ [DeleteThese D]
      ∧ Forall (λ o, ∃ s, o = SnapshotAt s) notes
      ∧ parse_seqs (imap_search folder_imap
                      (imap_select folder_imap b (base_folder fresh)).2).1.2 = Some l
      ∧ ∀ s, s ∈ D → s ∈ l ∧ ¬ recorded (tree (self' r)) s.
Proof.
  intros b r.
  assert (H : returned r = Ret ()) by (vm_compute; reflexivity).
  split; [reflexivity |]. split; [exact H |].
  exact (first_synchronize_report folder_imap py27 fresh b eq_refl H).
Defined.

(** ** flush on a folder *)

Lemma Copy_same c : Copy c = c.
Proof. by destruct c. Qed.

Lemma Forall2_impl_elem {A C} (P Q : A → C → Prop) l k :
  Forall2 P l k → (∀ x y, x ∈ l → P x y → Q x y) → Forall2 Q l k.
Proof.
  induction 1 as [| x y l k Hxy _ IH]; intros H; constructor.
  - apply H; [by left | done].
  - apply IH. intros x' y' Hx'. apply H. by right.
Qed.

(** The messages that the loop appends, one for each key. *)
Lemma flush_loop_folder keys : ∀ self b out,
  (∀ path, path ∈ keys → is_Some (unwritten self !! path)) →
  NoDup keys →
  encodes self →
  let r := flush_loop folder_imap keys self b out in
  printed r = out
  ∧ fetch_log (backend' r) = fetch_log b
  ∧ ∃ emls,
      messages (backend' r) = messages b ++ emls
      ∧ Forall2 (λ path eml, ∃ f, unwritten self !! path = Some f
                   ∧ encode_object (config self) path (f_value f) None = Ret eml)
          keys emls.
Proof.
  induction keys as [| path rest IH]; intros self b out Hin Hnd Henc.
  { cbn. split; [done |]. split; [done |]. exists []. by rewrite app_nil_r. }
  apply NoDup_cons in Hnd as [Hnotin Hnd].
  destruct (Hin path) as [f Hf]; [by left |].
  destruct (Henc path f Hf) as [eml He].
  cbn [flush_loop]. rewrite Hf, He. cbn [imap_append folder_imap].
  rewrite decide_True by done.
  set (self1 := set_unwritten (delete path (unwritten self))
                  (unwritten_bytes self - len (f_value f)) self).
  set (b1 := {| messages := messages b ++ [eml]; fetch_log := fetch_log b |}).
  destruct (IH self1 b1 out) as (H1 & H2 & emls & H3 & H4); [| done | |].
  { intros p Hp. cbn. rewrite lookup_delete_ne; [apply Hin; by right |].
    intros ->. done. }
  { intros p g Hp. cbn in *. apply lookup_delete_Some in Hp as [_ Hp]. by apply Henc. }
  split; [done |]. split; [done |]. exists (eml :: emls). split.
  { rewrite H3. cbn. by rewrite <- app_assoc. }
  constructor; [by exists f |].
  eapply Forall2_impl; [exact H4 |]. cbn. intros p e (g & Hg & Hpe).
  apply lookup_delete_Some in Hg as [_ Hg]. by exists g.
Qed.

(** What [flush] does on a folder when every staged object can be encoded. *)
Lemma flush_folder_all self b :
  encodes self →
  let r := flush folder_imap self b in
  returned r = Ret ()
  ∧ unwritten (self' r) = ∅
  ∧ unwritten_bytes (self' r) = unwritten_bytes self - staged_size (unwritten self)
  ∧ printed r = []
  ∧ ∃ emls,
      messages (backend' r) = messages b ++ emls
      ∧ Forall2 (λ pf eml, encode_object (config self) pf.1 (f_value pf.2) None = Ret eml)
          (map_to_list (unwritten self)) emls.
Proof.
  intros Henc r.
  assert (Hin : ∀ path, path ∈ (map_to_list (unwritten self)).*1 →
                        is_Some (unwritten self !! path)).
  { intros p Hp. apply list_elem_of_fmap in Hp as ([k f] & -> & Hkf).
    apply elem_of_map_to_list in Hkf. by exists f. }
  pose proof (NoDup_fst_map_to_list (unwritten self)) as Hnd.
  destruct (flush_loop_spec folder_imap (map_to_list (unwritten self)).*1 self b [])
    as (H1 & _ & _ & H4 & H5 & H6 & _); try done.
  destruct (flush_loop_folder (map_to_list (unwritten self)).*1 self b [])
    as (G1 & _ & emls & G3 & G4); try done.
  fold (flush folder_imap self b) in H1, H4, H5, H6, G1, G3. fold r in H1, H4, H5, H6, G1, G3.
  assert (Hempty : unwritten (self' r) = ∅).
  { apply map_eq. intros p. rewrite lookup_empty.
    destruct (unwritten self !! p) as [f |] eqn:Hp.
    - destruct (H5 p f) as (b0 & eml & _ & [[_ H] | [H _]]); try done.
      apply list_elem_of_fmap. exists (p, f). split; [done |].
      by apply elem_of_map_to_list.
    - rewrite H4; [done |]. intros Hin'. apply Hin in Hin' as [? ?]. congruence. }
  split; [done |]. split; [done |]. split.
  { rewrite Hempty in H6. unfold staged_size at 1 in H6. rewrite map_fold_empty in H6. lia. }
  split; [done |]. exists emls. split; [done |].
  apply Forall2_fmap_l in G4. eapply Forall2_impl_elem; [exact G4 |].
  cbn. intros [p f] eml Hpf (g & Hg & He). cbn in *.
  apply elem_of_map_to_list in Hpf. by simplify_eq.
Qed.

(** X7. On a folder that takes every append, [flush] of staged objects
    that can all be encoded returns with nothing left staged, the byte
    counter lowered by their sizes, and the folder longer by one message
    for each, the encoding of that object, in the order in which the
    loop takes them; nothing is printed. *)
Theorem flush_appends_all self b :
  encodes self →
  let r := flush folder_imap self b in
  returned r = Ret ()
  ∧ unwritten (self' r) = ∅
  ∧ unwritten_bytes (self' r) = unwritten_bytes self - staged_size (unwritten self)
  ∧ printed r = []
  ∧ ∃ order emls,
      order ≡ₚ map_to_list (unwritten self)
      ∧ messages (backend' r) = messages b ++ emls
      ∧ Forall2 (λ pf eml, encode_object (config self) pf.1 (f_value pf.2) None = Ret eml)
          order emls.
Proof.
  intros Henc r.
  destruct (flush_folder_all self b Henc) as (H1 & H2 & H3 & H4 & emls & H5 & H6).
  repeat (split; [done |]). by exists (map_to_list (unwritten self)), emls.
Qed.

(** The flush of one staged write into an empty folder. *)
Lemma flush_appends_all_witness :
  let r := flush folder_imap staged (folder_of []) in
  encodes staged
  ∧ returned r = Ret () ∧ unwritten (self' r) = ∅
  ∧ unwritten_bytes (self' r) = unwritten_bytes staged - staged_size (unwritten staged)
  ∧ printed r = []
  ∧ ∃ order emls,
      order ≡ₚ map_to_list (unwritten staged)
      ∧ messages (backend' r) = messages (folder_of []) ++ emls
      ∧ Forall2 (λ pf eml, encode_object (config staged) pf.1 (f_value pf.2) None = Ret eml)
          order emls.
Proof.
  intros r. split; [exact encodes_staged |].
  exact (flush_appends_all staged (folder_of []) encodes_staged).
Defined.

(** ** The scoped session and the staged objects *)

Section SessionFlush.
Context (L : Reader).

Lemma synchronize_keeps_staged {B} (imap : IMAP B) self b :
  let r := synchronize imap L self b in
  unwritten (self' r) = unwritten self
  ∧ unwritten_bytes (self' r) = unwritten_bytes self
  ∧ config (self' r) = config self ∧ sstack (self' r) = sstack self.
Proof.
  unfold synchronize.
  destruct (imap_select imap b (base_folder self)) as [status b1].
  destruct (decide (OK ≠ status)); [done |].
  destruct (imap_search imap b1) as [[rv seqs] b2].
  destruct (decide (rv ≠ OK)); [done |].
  destruct (parse_seqs seqs) as [l |]; [| done].
  destruct (scan imap L (config self) b2 (scan_start self) (rev (py_sorted l)))
    as [[r b3] st].
  by destruct r.
Qed.

Lemma synchronize_messages self b :
  messages (backend' (synchronize folder_imap L self b)) = messages b.
Proof. by destruct (synchronize_folder L self b) as (_ & H & _). Qed.

(** What [__enter__] leaves, however [synchronize] ends. *)
Lemma enter_state {B} (imap : IMAP B) self b :
  let r := __enter__ imap L self b in
  config (self' r) = set_buffering true (config self)
  ∧ sstack (self' r) = sstack self ++ [Copy (config self)]
  ∧ unwritten (self' r) = unwritten self
  ∧ unwritten_bytes (self' r) = unwritten_bytes self.
Proof.
  unfold __enter__. cbn zeta.
  match goal with
  | |- context [synchronize imap L ?s ?b'] =>
      destruct (synchronize_keeps_staged imap s b') as (H1 & H2 & H3 & H4)
  end.
  rewrite H1, H2, H3, H4. done.
Qed.

(** X5. A session entered inside another one (buffering is already on)
    writes nothing when it is left, as long as the byte counter is
    within the limit: what was staged in it stays staged, no message is
    appended, and the configuration is the one before it was entered. *)
Theorem inner_exit_keeps_staged self b u n b2 :
  buffering (config self) = true →
  n ≤ buffering_max_bytes (config self) →
  let r1 := __enter__ folder_imap L self b in
  let r3 := __exit__ folder_imap L (set_unwritten u n (self' r1)) b2 in
  unwritten (self' r3) = u ∧ unwritten_bytes (self' r3) = n
  ∧ messages (backend' r3) = messages b2
  ∧ config (self' r3) = config self ∧ sstack (self' r3) = sstack self.
Proof.
  intros Hbuf Hn r1 r3.
  destruct (enter_state folder_imap self b) as (_ & Hstack & _). fold r1 in Hstack.
  unfold r3, __exit__. cbn [sstack set_unwritten]. rewrite Hstack, last_snoc.
  rewrite removelast_last, Copy_same.
  unfold _maybe_flush. cbn [config set_config buffering_max_bytes unwritten_bytes
                       set_sstack].
  rewrite Hbuf. cbn [negb orb].
  change (unwritten_bytes (set_unwritten u n (self' r1))) with n.
  destruct (buffering_max_bytes (config self) <? n) eqn:E; [lia |].
  unfold and_then. cbn [returned self' backend'].
  match goal with
  | |- context [synchronize folder_imap L ?s ?b'] =>
      destruct (synchronize_keeps_staged folder_imap s b') as (H1 & H2 & H3 & H4);
      pose proof (synchronize_messages s b') as H5
  end.
  cbn [self' backend']. rewrite H1, H2, H3, H4, H5. done.
Qed.

(** X6. On a folder that takes every append, when the outermost session
    is left (the configuration it had saved has buffering off) and every
    staged object can be encoded under that configuration, every staged
    object is appended: nothing stays staged, the byte counter goes down
    by their sizes, the folder is longer by one message for each, and the
    saved configuration is back. *)
Theorem outer_exit_flushes self b u n b2 :
  buffering (config self) = false →
  (∀ path f, u !! path = Some f →
     ∃ eml, encode_object (config self) path (f_value f) None = Ret eml) →
  let r1 := __enter__ folder_imap L self b in
  let r3 := __exit__ folder_imap L (set_unwritten u n (self' r1)) b2 in
  unwritten (self' r3) = ∅
  ∧ unwritten_bytes (self' r3) = n - staged_size u
  ∧ List.length (messages (backend' r3)) = (List.length (messages b2) + size u)%nat
  ∧ config (self' r3) = config self.
Proof.
  intros Hbuf Henc r1 r3.
  destruct (enter_state folder_imap self b) as (_ & Hstack & _). fold r1 in Hstack.
  unfold r3, __exit__. cbn [sstack set_unwritten]. rewrite Hstack, last_snoc.
  rewrite removelast_last, Copy_same.
  unfold _maybe_flush. cbn [config set_config]. rewrite Hbuf. cbn [negb orb].
  match goal with
  | |- context [flush folder_imap ?s ?b'] =>
      destruct (flush_folder_all s b') as (F1 & F2 & F3 & _ & emls & F5 & F6);
      [done |];
      destruct (flush_frame folder_imap (map_to_list (unwritten s)).*1 s b' [])
        as (F7 & _ & _);
      fold (flush folder_imap s b') in F7
  end.
  unfold and_then. rewrite F1.
  match goal with
  | |- context [synchronize folder_imap L ?s ?b'] =>
      destruct (synchronize_keeps_staged folder_imap s b') as (H1 & H2 & H3 & H4);
      pose proof (synchronize_messages s b') as H5
  end.
  cbn [self' backend']. rewrite H1, H2, H3, H5, F2, F3, F5, F7.
  split; [done |]. split; [done |]. split; [| done].
  rewrite length_app. apply Forall2_length in F6. rewrite <- F6.
  cbn [unwritten]. by rewrite length_map_to_list.
Qed.

(** X8. A staged object that cannot be encoded stops [flush]: it ends
    with an exception, and the object is still staged. *)
Theorem flush_stops_at_unencodable {B} (imap : IMAP B) self b path f e :
  unwritten self !! path = Some f →
  encode_object (config self) path (f_value f) None = Raise e →
  ∃ e', returned (flush imap self b) = Raise e'
        ∧ unwritten (self' (flush imap self b)) !! path = Some f.
Proof.
  intros Hf He. unfold flush.
  assert (Hin : path ∈ (map_to_list (unwritten self)).*1).
  { apply list_elem_of_fmap. exists (path, f). split; [done |].
    by apply elem_of_map_to_list. }
  revert Hin Hf He. generalize ([] : list output).
  generalize ((map_to_list (unwritten self)).*1). intros keys. revert self b.
  induction keys as [| q rest IH]; intros self b out Hin Hf He.
  { by apply elem_of_nil in Hin. }
  cbn [flush_loop]. destruct (decide (q = path)) as [-> | Hne].
  { rewrite Hf, He. by exists e. }
  apply elem_of_cons in Hin as [-> | Hin]; [done |].
  destruct (unwritten self !! q) as [g |] eqn:Hg; [| by exists KeyError].
  destruct (encode_object (config self) q (f_value g) None) as [eml | e1];
    [| by exists e1].
  destruct (imap_append imap b (base_folder self) eml) as [[rv d] b'].
  destruct (decide (rv = OK)); [| by apply IH].
  apply IH; [done | | done]. cbn. by rewrite lookup_delete_ne.
Qed.

End SessionFlush.

(** A session of a buffering engine that stages ["one"] for [a]. *)
Lemma inner_exit_keeps_staged_witness :
  let b := folder_of [eml_b] in
  let u : gmap str IFAP_File := {[lit "a" := file_a]} in
  let r1 := __enter__ folder_imap py27 buffered b in
  let r3 := __exit__ folder_imap py27 (set_unwritten u 3 (self' r1)) (backend' r1) in
  buffering (config buffered) = true
  ∧ 3 ≤ buffering_max_bytes (config buffered)
  ∧ unwritten (self' r3) = u ∧ unwritten_bytes (self' r3) = 3
  ∧ messages (backend' r3) = messages (backend' r1)
  ∧ config (self' r3) = config buffered
  ∧ sstack (self' r3) = sstack buffered.
Proof.
  intros b u r1 r3.
  assert (H : 3 ≤ buffering_max_bytes (config buffered)) by (vm_compute; discriminate).
  split; [reflexivity |]. split; [exact H |].
  exact (inner_exit_keeps_staged py27 buffered b u 3 (backend' r1) eq_refl H).
Defined.

(** A session of an engine without buffering that stages ["one"] for [a]. *)
Lemma outer_exit_flushes_witness :
  let b := folder_of [eml_b] in
  let u : gmap str IFAP_File := {[lit "a" := file_a]} in
  let r1 := __enter__ folder_imap py27 fresh b in
  let r3 := __exit__ folder_imap py27 (set_unwritten u 3 (self' r1)) (backend' r1) in
  buffering (config fresh) = false
  ∧ unwritten (self' r3) = ∅ ∧ unwritten_bytes (self' r3) = 3 - staged_size u
  ∧ List.length (messages (backend' r3))
    = (List.length (messages (backend' r1)) + size u)%nat
  ∧ config (self' r3) = config fresh.
Proof.
  intros b u r1 r3. split; [reflexivity |].
  exact (outer_exit_flushes py27 fresh b u 3 (backend' r1) eq_refl encodes_staged).
Defined.

(** A write staged under a path that is not UTF-8. *)
Lemma flush_stops_at_unencodable_witness :
  unwritten staged_bad !! bad_path = Some file_a
  ∧ encode_object (config staged_bad) bad_path (f_value file_a) None
    = Raise UnicodeDecodeError
  ∧ ∃ e', returned (flush folder_imap staged_bad (folder_of [])) = Raise e'
      ∧ unwritten (self' (flush folder_imap staged_bad (folder_of []))) !! bad_path
        = Some file_a.
Proof.
  assert (H1 : unwritten staged_bad !! bad_path = Some file_a)
    by apply lookup_singleton_eq.
  assert (H2 : encode_object (config staged_bad) bad_path (f_value file_a) None
               = Raise UnicodeDecodeError) by (vm_compute; reflexivity).
  split; [exact H1 |]. split; [exact H2 |].
  exact (flush_stops_at_unencodable folder_imap staged_bad (folder_of []) bad_path file_a
           UnicodeDecodeError H1 H2).
Defined.

(** ** Objects that cannot be encoded *)

(** The encoder raises nothing but [UnicodeDecodeError]. *)
Lemma encode_raises s e : encode_basestring_ascii s = Raise e → e = UnicodeDecodeError.
Proof. unfold encode_basestring_ascii. destruct (utf8_decode _); [done | congruence]. Qed.

Lemma collect_raises {A} (f : A → result str) l e :
  collect f l = Raise e → ∃ x, x ∈ l ∧ f x = Raise e.
Proof.
  induction l as [| x l IH]; [done |]. cbn [collect].
  destruct (f x) as [a |] eqn:E.
  - rewrite bind_ret_l. destruct (collect f l) as [b |] eqn:E2; [done |].
    intros [= ->]. destruct IH as (y & Hy & Hfy); [done |]. exists y. split; [by right | done].
  - intros [= ->]. exists x. split; [by left | done].
Qed.

Lemma dumps_raises v : ∀ nl level e,
  dumps_with nl level v = Raise e → e = UnicodeDecodeError.
Proof.
  induction v as [| b | z | s | l IH | d IH] using json_ind; intros nl level e; try done.
  - by destruct b.
  - apply encode_raises.
  - destruct l as [| x l]; [done |]. rewrite dumps_with_list.
    destruct (collect _ _) as [items |] eqn:E; [done |]. intros [= ->].
    apply collect_raises in E as (y & Hy & Hfy).
    rewrite Forall_forall in IH. by eapply IH.
  - destruct d as [| kv d]; [done |]. rewrite dumps_with_dict.
    destruct (collect _ _) as [items |] eqn:E; [done |]. intros [= ->].
    apply collect_raises in E as ([k y] & Hy & Hfy).
    unfold item_text in Hfy. cbn [fst snd] in Hfy.
    destruct (encode_basestring_ascii k) as [k' |] eqn:Ek.
    + rewrite bind_ret_l in Hfy.
      destruct (dumps_with nl (S level) y) as [t |] eqn:Et; [done |].
      injection Hfy as ->. rewrite Forall_forall in IH. by eapply (IH (k, y)).
    + injection Hfy as ->. by eapply encode_raises.
Qed.

Lemma collect_Ret_elem {A} (f : A → result str) l items x :
  collect f l = Ret items → x ∈ l → ∃ t, f x = Ret t.
Proof.
  revert items. induction l as [| y l IH]; intros items; [by intros _ ?%elem_of_nil |].
  cbn [collect]. intros (a & Ha & (b & Hb & _)%bind_Ret)%bind_Ret [-> | Hx]%elem_of_cons.
  - by exists a.
  - by eapply IH.
Qed.

Lemma dict_get_elem k (d : dict) v : dict_get k d = Some v → (k, v) ∈ d.
Proof.
  induction d as [| [k' v'] d IH]; [done |]. cbn [dict_get].
  destruct (decide (k' = k)) as [-> | ?]; [intros [= ->]; by left |].
  intros H. right. by apply IH.
Qed.

(** A dictionary with a string that is not UTF-8 is not serialized. *)
Lemma json_dumps_not_utf8 d k s :
  dict_get k d = Some (JStr s) → utf8_decode (code <$> s) = None →
  json_dumps d = Raise UnicodeDecodeError.
Proof.
  intros Hk Hs. unfold json_dumps, dumps.
  destruct (dumps_with newline_indent 0 (JDict d)) as [t |] eqn:E.
  - exfalso. destruct d as [| kv d]; [done |].
    rewrite dumps_with_dict in E. apply bind_Ret in E as (items & Hitems & _).
    destruct (collect_Ret_elem _ _ _ (k, JStr s) Hitems) as [t' Ht'].
    { by apply dict_get_elem. }
    unfold item_text in Ht'. cbn [fst snd] in Ht'.
    apply bind_Ret in Ht' as (k' & _ & (a & Ha & _)%bind_Ret).
    cbn [dumps_with] in Ha. unfold encode_basestring_ascii in Ha. by rewrite Hs in Ha.
  - f_equal. by eapply dumps_raises.
Qed.

(** X9. A path that is not valid UTF-8 cannot be written: whatever the
    mode and the payload, [encode_object] raises [UnicodeDecodeError]
    (unless the metadata brings an ['fn'] entry of its own). *)
Theorem encode_object_not_utf8 cfg file_path file_data metadata :
  utf8_decode (code <$> file_path) = None →
  dict_get "fn" (default [] metadata) = None →
  encode_object cfg file_path file_data metadata = Raise UnicodeDecodeError.
Proof.
  intros Hp Hfn. unfold encode_object, encode_lines, encode_parts. cbv zeta.
  rewrite mdata_same.
  rewrite (json_dumps_not_utf8 _ "fn" file_path); [done | | done].
  rewrite dict_get_update by done. reflexivity.
Qed.

Lemma encode_object_not_utf8_witness :
  utf8_decode (code <$> bad_path) = None
  ∧ encode_object default_config bad_path "one" None = Raise UnicodeDecodeError.
Proof.
  assert (H : utf8_decode (code <$> bad_path) = None) by (vm_compute; reflexivity).
  split; [exact H |].
  exact (encode_object_not_utf8 default_config bad_path "one" None H eq_refl).
Defined.

(** ** A message in encrypted mode, read without the key *)

Lemma reflow_token_shape f t :
  (∀ data, take 1 (remove_spaces (fernet_encrypt f data)) ≠ "{") →
  ∃ s, _reflow (fernet_encrypt f t) " " 78 false = " "%char :: s ∧ wrapped s
       ∧ take 1 (strip (" "%char :: s)) ≠ "{".
Proof.
  intros Hshape. set (T := remove_spaces (fernet_encrypt f t)).
  assert (HT : Forall (λ c, is_space c = false) T) by apply remove_spaces_clean.
  exists (strip (sub_runs (length T) 77 (CRLF ++ " ") T)).
  split; [reflexivity |]. split; [by apply wrapped_strip, wrapped_sub_runs |].
  rewrite take1_strip, remove_spaces_cons.
  change (is_space " "%char) with true. cbv iota.
  rewrite remove_spaces_strip, remove_spaces_sub_runs by done. apply Hshape.
Qed.

(** X10. An engine without a key takes a message written in encrypted
    mode for a broken one: the turn of the loop for it classifies the
    sequence broken and changes nothing else. *)
Theorem encrypted_message_broken_without_key
    cfg cfg0 f file_path file_data metadata eml st seq env item :
  encrypt cfg = true → fernet cfg = Some f →
  (∀ data, take 1 (remove_spaces (fernet_encrypt f data)) ≠ "{") →
  encode_object cfg file_path file_data metadata = Ret eml →
  xifap_end cfg file_path file_data metadata < 1024 →
  fernet cfg0 = None →
  process py27 cfg0 st seq (OK, [ItemPair env (take 1024 eml); item])
  = Ret (add_broken seq st).
Proof.
  intros Henc Hf Hshape He Hend Hnone.
  unfold encode_object in He. apply bind_Ret in He as (lines & Hl & <-%Ret_inj).
  unfold xifap_end in Hend. rewrite Hl in Hend.
  assert (Hj : ∃ t t',
    json_dumps (dict_update [(lit "fn", JStr file_path); (lit "bytes", JInt (len file_data))]
                  (default [] metadata)) = Ret t
    ∧ json_dumps (dict_set "_" (JStr (take (Z.to_nat (148 - len t mod 148))
                                        (replicate 200 "_"%char)))
                    (dict_update [(lit "fn", JStr file_path);
                                  (lit "bytes", JInt (len file_data))]
                       (default [] metadata))) = Ret t').
  { unfold encode_lines, encode_parts in Hl. cbv zeta in Hl. rewrite mdata_same in Hl.
    apply bind_Ret in Hl as (p & Hp & _).
    apply bind_Ret in Hp as (t & Ht & Hp). rewrite Henc in Hp.
    apply bind_Ret in Hp as (t' & Ht' & _). by exists t, t'. }
  destruct Hj as (t & t' & Ht & Ht').
  destruct (encode_lines_encrypted cfg f file_path file_data metadata t t' Henc Hf Ht Ht')
    as [rest Hl'].
  rewrite Hl' in Hl. apply Ret_inj in Hl as <-.
  destruct (reflow_token_shape f t' Hshape) as (s & Hs & Ws & Htake).
  rewrite Hs in Hend |- *. cbn [take] in Hend.
  rewrite (process_parse_failed py27 cfg0 st seq _ AttributeError); [done |].
  unfold parse_message. cbn [header_text email_header py27]. rewrite bind_ret_l.
  rewrite header_of_lines; [| absent | absent | done | exact Hend].
  rewrite bind_ret_l. cbv zeta. rewrite decide_True by done. by rewrite Hnone.
Qed.

(** A message written with the key ['hunter2'], read by an engine with no
    key. *)
Lemma encrypted_message_broken_without_key_witness :
  let eml := sure (encode_object toy_config "a" "one" None) in
  encrypt toy_config = true
  ∧ encode_object toy_config "a" "one" None = Ret eml
  ∧ xifap_end toy_config "a" "one" None < 1024
  ∧ fernet default_config = None
  ∧ process py27 default_config (scan_start fresh) 1
      (OK, [ItemPair [] (take 1024 eml); ItemStr ")"])
    = Ret (add_broken 1 (scan_start fresh)).
Proof.
  intros eml.
  assert (H1 : encode_object toy_config "a" "one" None = Ret eml)
    by (vm_compute; reflexivity).
  assert (H2 : xifap_end toy_config "a" "one" None < 1024) by (vm_compute; reflexivity).
  split; [reflexivity |]. split; [exact H1 |]. split; [exact H2 |].
  split; [reflexivity |].
  destruct (toy_config_ready eq_refl) as (f & Hf & _ & Hb).
  exact (encrypted_message_broken_without_key toy_config default_config f "a" "one" None
           eml (scan_start fresh) 1 [] (ItemStr ")") eq_refl Hf Hb H1 H2 eq_refl).
Defined.

(** ** From a staged object to the index *)








(** ** The lines of [_reflow] *)

Lemma rstrip_clean s : Forall (λ c, is_space c = false) s → rstrip s = s.
Proof.
  induction 1 as [| c s Hc _ IH]; [done |].
  rewrite rstrip_cons, IH, Hc. by destruct s.
Qed.

Lemma rstrip_blank s : Forall (λ c, is_space c = true) s → rstrip s = [].
Proof.
  induction 1 as [| c s Hc _ IH]; [done |].
  by rewrite rstrip_cons, IH, Hc.
Qed.

Lemma rstrip_app a b :
  rstrip (a ++ b) = match rstrip b with [] => rstrip a | _ => a ++ rstrip b end.
Proof.
  induction a as [| c a IH]; [cbn [app]; by destruct (rstrip b) |].
  cbn [app]. rewrite !rstrip_cons, IH.
  destruct (rstrip b) as [| x r]; [done |]. by destruct a.
Qed.

Lemma lstrip_clean s : Forall (λ c, is_space c = false) s → lstrip s = s.
Proof. destruct 1 as [| c s Hc _]; [done |]. by apply lstrip_not_space. Qed.

Lemma lstrip_sub_runs fuel n sep s :
  (0 < n)%nat → Forall (λ c, is_space c = false) s →
  lstrip (sub_runs fuel n sep s) = sub_runs fuel n sep s.
Proof.
  intros Hn Hs. destruct fuel as [| f]; [by apply lstrip_clean |].
  cbn [sub_runs]. destruct (decide (n ≤ length s)%nat) as [Hle |]; [| by apply lstrip_clean].
  destruct s as [| c s]; [simpl in Hle; lia |].
  destruct n as [| n]; [lia |]. cbn [take app].
  apply lstrip_not_space. by apply Forall_cons in Hs as [? _].
Qed.

(** Without its trailing whitespace the text of [sub_runs] is the runs
    joined by the separator. *)
Lemma rstrip_sub_runs n sep :
  (0 < n)%nat → Forall (λ c, is_space c = true) sep →
  ∀ fuel s, (List.length s ≤ fuel)%nat → Forall (λ c, is_space c = false) s →
  ∃ lines, rstrip (sub_runs fuel n sep s) = join sep lines
    ∧ Forall (λ l, (0 < List.length l ≤ n)%nat) lines
    ∧ List.concat lines = s.
Proof.
  intros Hn Hsep. induction fuel as [| f IH]; intros s Hlen Hs.
  { destruct s; [| simpl in Hlen; lia]. by exists []. }
  cbn [sub_runs]. destruct (decide (n ≤ length s)%nat) as [Hle | Hgt].
  - destruct (IH (drop n s)) as (lines & E & Hl & Hc).
    { rewrite length_drop. lia. }
    { by apply Forall_drop. }
    assert (Ht : Forall (λ c, is_space c = false) (take n s)) by (by apply Forall_take).
    assert (Hlt : (0 < length (take n s) ≤ n)%nat) by (rewrite length_take; lia).
    rewrite rstrip_app. rewrite (rstrip_app sep), E.
    destruct lines as [| l ls].
    + cbn [join]. rewrite (rstrip_blank sep), rstrip_clean by done.
      exists [take n s]. split; [done |]. split; [by constructor |].
      cbn [List.concat] in Hc |- *. rewrite app_nil_r.
      rewrite <- (take_drop n s) at 2. by rewrite <- Hc, app_nil_r.
    + assert (Hj : join sep (l :: ls) ≠ []).
      { apply Forall_cons in Hl as [Hl _]. destruct l; [simpl in Hl; lia |].
        by destruct ls. }
      exists (take n s :: l :: ls). rewrite join_cons2.
      split; [| split; [by constructor |]].
      * destruct (join sep (l :: ls)) as [| x r] eqn:Ej; [done |].
        destruct (sep ++ x :: r) eqn:Es; [by destruct sep | done].
      * change (List.concat (take n s :: l :: ls)) with (take n s ++ List.concat (l :: ls)).
        rewrite Hc. apply take_drop.
  - rewrite rstrip_clean by done. destruct s as [| c s]; [by exists [] |].
    exists [c :: s]. split; [done |]. split; [| by cbn; rewrite app_nil_r].
    constructor; [| done]. simpl in *. lia.
Qed.

(** X12. Without [preserve], [_reflow] loses nothing but whitespace and
    keeps every line within [linelen]: for an indent of whitespace shorter
    than [linelen], the result is the indent and then lines joined by
    ['\r\n'] and the indent, each line non-empty and of at most
    [linelen - len(indent)] bytes, which put together are the data
    without its whitespace. *)
Theorem reflow_lines data indent linelen :
  Forall (λ c, is_space c = true) indent →
  (List.length indent < linelen)%nat →
  ∃ lines,
    _reflow data indent linelen false = indent ++ join (CRLF ++ indent) lines
    ∧ Forall (λ l, (0 < List.length l ≤ linelen - List.length indent)%nat) lines
    ∧ List.concat lines = remove_spaces data.
Proof.
  intros Hi Hlen. unfold _reflow, strip.
  pose proof (remove_spaces_clean data) as Hc.
  rewrite lstrip_sub_runs by (done || lia).
  destruct (rstrip_sub_runs (linelen - length indent) (CRLF ++ indent)) with
    (fuel := length (remove_spaces data)) (s := remove_spaces data)
    as (lines & -> & Hl & Hcat); try done; [lia | | by exists lines].
  apply Forall_app. split; [by repeat constructor | done].
Qed.

(** Seven bytes in lines of two, with an indent of one space. *)
Lemma reflow_lines_witness :
  Forall (λ c, is_space c = true) (lit " ")
  ∧ (List.length (lit " ") < 3)%nat
  ∧ ∃ lines,
      _reflow "ab cd efg" " " 3 false = lit " " ++ join (CRLF ++ lit " ") lines
      ∧ Forall (λ l, (0 < List.length l ≤ 3 - List.length (lit " "))%nat) lines
      ∧ List.concat lines = remove_spaces "ab cd efg".
Proof.
  assert (H1 : Forall (λ c, is_space c = true) (lit " ")) by (by apply Forall_singleton).
  assert (H2 : (List.length (lit " ") < 3)%nat) by (simpl; lia).
  split; [exact H1 |]. split; [exact H2 |].
  exact (reflow_lines "ab cd efg" " " 3 H1 H2).
Defined.

(** ** _clean_path *)

Lemma drop_slashes_head path : head (drop_slashes path) ≠ Some "/"%char.
Proof.
  induction path as [| c r IH]; [done |].
  cbn [drop_slashes]. destruct (decide (c = "/"%char)); [done |].
  cbn. by intros [= ->].
Qed.

Lemma drop_slashes_snoc u c :
  drop_slashes (u ++ [c])
  = match drop_slashes u with [] => drop_slashes [c] | _ => drop_slashes u ++ [c] end.
Proof.
  induction u as [| x u IH]; [done |].
  cbn [app drop_slashes]. by destruct (decide (x = "/"%char)).
Qed.

Lemma drop_end_slashes_cons c s :
  drop_end_slashes (c :: s)
  = match drop_end_slashes s with
    | [] => if decide (c = "/"%char) then [] else [c]
    | _ => c :: drop_end_slashes s
    end.
Proof.
  unfold drop_end_slashes. cbn [rev]. rewrite drop_slashes_snoc.
  destruct (drop_slashes (rev s)) as [| x r] eqn:E.
  - cbn [rev drop_slashes]. by destruct (decide (c = "/"%char)).
  - rewrite rev_app_distr. cbn [rev app].
    destruct (rev r ++ [x]) eqn:E'; [by destruct (rev r) | done].
Qed.

Lemma drop_end_slashes_last s : last (drop_end_slashes s) ≠ Some "/"%char.
Proof.
  unfold drop_end_slashes. pose proof (drop_slashes_head (rev s)) as H.
  destruct (drop_slashes (rev s)) as [| x r]; [done |].
  cbn [rev]. rewrite last_snoc. cbn in H. congruence.
Qed.

Lemma drop_end_slashes_head s :
  head s ≠ Some "/"%char → head (drop_end_slashes s) ≠ Some "/"%char.
Proof.
  destruct s as [| c s]; [done |]. intros H. rewrite drop_end_slashes_cons.
  destruct (drop_end_slashes s); [by destruct (decide (c = "/"%char)) | done].
Qed.

Lemma replace_slashes_cons2 a b r :
  replace_slashes (a :: b :: r)
  = if decide (a = "/"%char ∧ b = "/"%char) then "/"%char :: replace_slashes r
    else a :: replace_slashes (b :: r).
Proof. reflexivity. Qed.

Lemma replace_slashes_head s :
  head s ≠ Some "/"%char → head (replace_slashes s) ≠ Some "/"%char.
Proof.
  destruct s as [| a [| b r]]; try done. intros H. rewrite replace_slashes_cons2.
  rewrite decide_False; [done |]. intros [-> _]. by apply H.
Qed.

Lemma replace_slashes_last_le n : ∀ s,
  (List.length s ≤ n)%nat → last (replace_slashes s) = last s.
Proof.
  induction n as [| n IH]; intros s Hn.
  { destruct s; [done | simpl in Hn; lia]. }
  destruct s as [| a [| b r]]; try done.
  rewrite replace_slashes_cons2.
  destruct (decide (a = "/"%char ∧ b = "/"%char)) as [[-> ->] |].
  - rewrite !last_cons, IH by (simpl in *; lia). by destruct (last r).
  - rewrite (last_cons a (replace_slashes _)), IH by (simpl in *; lia).
    by rewrite <- last_cons.
Qed.

Lemma replace_slashes_last s : last (replace_slashes s) = last s.
Proof. by apply (replace_slashes_last_le (List.length s)). Qed.

(** X13. Whatever the path, [_clean_path] gives a path that neither
    starts nor ends with a slash. *)
Theorem clean_path_edges path :
  head (_clean_path path) ≠ Some "/"%char ∧ last (_clean_path path) ≠ Some "/"%char.
Proof.
  unfold _clean_path. split.
  - apply replace_slashes_head, drop_end_slashes_head, drop_slashes_head.
  - rewrite replace_slashes_last. apply drop_end_slashes_last.
Qed.

Lemma replace_slashes_clean a s :
  "/"%char ∉ a → replace_slashes (a ++ s) = a ++ replace_slashes s.
Proof.
  induction a as [| x a IH]; [done |]. intros [Hx Ha]%not_elem_of_cons.
  cbn [app]. specialize (IH Ha).
  destruct (a ++ s) as [| y t] eqn:E.
  - apply app_eq_nil in E as [-> ->]. done.
  - rewrite replace_slashes_cons2, decide_False by (intros [-> _]; done).
    rewrite IH. by destruct a.
Qed.

Lemma replace_slashes_run c r : c ≠ "/"%char → ∀ k,
  replace_slashes (replicate k "/"%char ++ c :: r)
  = replicate (Nat.div2 (S k)) "/"%char ++ replace_slashes (c :: r)
  ∧ replace_slashes (replicate (S k) "/"%char ++ c :: r)
  = replicate (Nat.div2 (S (S k))) "/"%char ++ replace_slashes (c :: r).
Proof.
  intros Hc. induction k as [| k [IH1 IH2]].
  - split; [done |]. cbn [replicate app Nat.div2].
    by rewrite replace_slashes_cons2, decide_False by (by intros [_ ?]).
  - split; [done |].
    change (replicate (S (S k)) "/"%char ++ c :: r)
      with ("/"%char :: "/"%char :: (replicate k "/"%char ++ c :: r)).
    change (Nat.div2 (S (S (S k)))) with (S (Nat.div2 (S k))).
    rewrite replace_slashes_cons2, decide_True by done. by rewrite IH1.
Qed.

Lemma drop_end_slashes_clean s d :
  last s = Some d → d ≠ "/"%char → drop_end_slashes s = s.
Proof.
  intros Hl Hd. induction s as [| c s IH]; [done |].
  rewrite drop_end_slashes_cons. destruct s as [| c' s].
  - injection Hl as ->. cbn. by rewrite decide_False.
  - by rewrite IH.
Qed.

(** X14. Between two path components a run of [k] slashes is left as a
    run of [(k + 1) / 2] (rounded down): two slashes become one, three or
    four become two, so only runs of at most two are reduced to a single
    separator. *)
Theorem clean_path_runs (a b : str) (k : nat) :
  a ≠ [] → b ≠ [] → "/"%char ∉ a → "/"%char ∉ b →
  _clean_path (a ++ replicate k "/"%char ++ b)
  = a ++ replicate (Nat.div2 (S k)) "/"%char ++ b.
Proof.
  intros Ha Hb Hna Hnb. unfold _clean_path.
  destruct a as [| x a]; [done |]. destruct b as [| y b]; [done |].
  apply not_elem_of_cons in Hna as Hx. destruct Hx as [Hx _].
  apply not_elem_of_cons in Hnb as Hy. destruct Hy as [Hy _].
  assert (E1 : drop_slashes ((x :: a) ++ replicate k "/"%char ++ y :: b)
               = (x :: a) ++ replicate k "/"%char ++ y :: b).
  { cbn [app drop_slashes]. by rewrite decide_False by (by apply not_eq_sym). }
  rewrite E1.
  destruct (exists_last (l := y :: b)) as (b0 & d & Eb); [done |].
  assert (Hd : d ≠ "/"%char).
  { intros ->. apply Hnb. rewrite Eb. apply elem_of_app. right. by left. }
  rewrite (drop_end_slashes_clean _ d); [| | done].
  2: { rewrite Eb, !app_assoc. apply last_snoc. }
  rewrite replace_slashes_clean by done.
  destruct (replace_slashes_run y b (not_eq_sym Hy) k) as [-> _].
  rewrite <- (app_nil_r (y :: b)) at 1. rewrite replace_slashes_clean by done.
  by rewrite app_nil_r.
Qed.

(** Three slashes between [a] and [b]. *)
Lemma clean_path_runs_witness :
  _clean_path "a///b" = lit "a//b".
Proof.
  assert (H1 : lit "a" ≠ []) by discriminate.
  assert (H2 : lit "b" ≠ []) by discriminate.
  assert (H3 : "/"%char ∉ lit "a") by (apply (bool_decide_unpack _); by vm_compute).
  assert (H4 : "/"%char ∉ lit "b") by (apply (bool_decide_unpack _); by vm_compute).
  exact (clean_path_runs "a" "b" 3 H1 H2 H3 H4).
Defined.
